(** * The evaluation loop of llm-codegen-benchmark, embedded in Rocq

    The TypeScript drivers (llm-codegen-test.ts, llm-context-test.ts,
    llm-sort.ts, process-events.ts, generate-data.ts) are translated function
    by function.  A JavaScript Number is an IEEE-754 binary64 value, so it is
    embedded as a primitive [float]; integers that the code keeps integral
    (durations, counters, the state of the linear-congruential generator) are
    [Z] or [nat] and are converted with [Z2float] wherever the source does
    floating-point arithmetic on them. *)

From Stdlib Require Import ZArith Floats List Bool String Ascii Lia.
From Stdlib Require Import Permutation Sorted DecimalString OrdersEx RelationClasses.
Import ListNotations.

Local Open Scope Z_scope.

Set Warnings "-inexact-float".

(** ** Numbers *)

Module JSNumber.

(** The Number nearest to an integer (exact below 2^53 in magnitude). *)
Definition Z2float (z : Z) : float := SF2Prim (binary_normalize prec emax z 0 false).

Definition nat2float (n : nat) : float := Z2float (Z.of_nat n).

(** [m * 2^e] with [e < 0], as the numerator over the denominator [2^(-e)]. *)
Definition signed (s : bool) (m : positive) : Z := cond_Zopp s (Zpos m).

(** ECMAScript [Math.floor]: non-finite values, zeros and integers are
  returned unchanged; otherwise the greatest integer below the argument. *)
Definition Math_floor (x : float) : float :=
match Prim2SF x with
| S754_finite s m e =>
    if 0 <=? e then x
    else
      let q := Z.shiftr (signed s m) (- e) in
      if q =? 0 then PrimFloat.zero else Z2float q
| _ => x
end.

(** ECMAScript [Math.round]: the integer closest to the argument, the one
  nearer to +infinity on a tie; a result of zero keeps the argument's
  sign. *)
Definition Math_round (x : float) : float :=
match Prim2SF x with
| S754_finite s m e =>
    if 0 <=? e then x
    else
      let q := Z.shiftr (2 * signed s m + 2 ^ (- e)) (1 - e) in
      if q =? 0 then (if s then PrimFloat.neg_zero else PrimFloat.zero) else Z2float q
| _ => x
end.

Definition Math_abs (x : float) : float := PrimFloat.abs x.

(** The integer a Number denotes, truncated toward zero (ECMAScript
  [ToIntegerOrInfinity], with 0 for the non-finite values). *)
Definition truncate (x : float) : Z :=
match Prim2SF x with
| S754_finite s m e =>
    if 0 <=? e then signed s m * 2 ^ e
    else cond_Zopp s (Z.shiftr (Zpos m) (- e))
| _ => 0
end.

(** ECMAScript [ToInt32]: the truncation reduced modulo 2^32 into
  [-2^31, 2^31). *)
Definition ToInt32 (x : float) : Z :=
let k := truncate x mod 2 ^ 32 in
if 2 ^ 31 <=? k then k - 2 ^ 32 else k.

(** The bitwise [&] of two Numbers. *)
Definition bitand (x y : float) : Z := Z.land (ToInt32 x) (ToInt32 y).

(** [Math.round(x * 100) / 100], the two-decimal rounding used throughout. *)
Definition round2 (x : float) : float := (Math_round (x * 100) / 100)%float.

End JSNumber.
Import JSNumber.

(** ** Strings

    A JavaScript string is a sequence of code units; it is embedded as a
    [string], one [ascii] per code unit (code units below 256).  [===] on
    strings is [String.eqb]. *)

Module JSString.

(** Code units removed by [String.prototype.trim]: TAB, LF, VT, FF, CR,
  SPACE and NBSP. *)
Definition is_white (c : ascii) : bool :=
let n := N_of_ascii c in
((9 <=? n) && (n <=? 13) || (n =? 32) || (n =? 160))%N.

Fixpoint trimStart (s : string) : string :=
match s with
| String c t => if is_white c then trimStart t else s
| EmptyString => EmptyString
end.

Fixpoint trimEnd (s : string) : string :=
match s with
| String c t =>
    match trimEnd t with
    | EmptyString => if is_white c then EmptyString else String c EmptyString
    | t' => String c t'
    end
| EmptyString => EmptyString
end.

Definition trim (s : string) : string := trimEnd (trimStart s).

(** [ToString] of an integral Number (below 10^21 in magnitude): its
  decimal digits, with a minus sign when negative. *)
Definition string_of_Z (z : Z) : string := NilZero.string_of_int (Z.to_int z).

(** A canonical array index: the decimal numeral, without leading zeros,
  of an integer in [0, 2^32 - 2]. *)
Definition digit_of (c : ascii) : option N :=
let n := N_of_ascii c in
if ((48 <=? n) && (n <=? 57))%N then Some (n - 48)%N else None.

Fixpoint decimal_value (s : string) (acc : N) : option N :=
match s with
| EmptyString => Some acc
| String c t =>
    match digit_of c with
    | Some d => decimal_value t (10 * acc + d)%N
    | None => None
    end
end.

Definition array_index (s : string) : option N :=
match s with
| EmptyString => None
| String c t =>
    if (Ascii.eqb c "0" && negb (String.eqb t ""))%bool then None
    else
      match decimal_value s 0 with
      | Some n => if (n <? 2 ^ 32 - 1)%N then Some n else None
      | None => None
      end
end.

(** Comparison by code units, one concrete comparator; a locale collation
  orders lower-case ASCII letters and digits the same way. *)
Definition codeUnitCompare (a b : string) : Z :=
match String_as_OT.compare a b with
| Lt => -1
| Eq => 0
| Gt => 1
end.

End JSString.
Import JSString.

(** ** Arrays *)

Module JSArray.

Section Sort.
Context {A : Type}.

(** Insertion into a sorted list, after every element that is not
    strictly greater: equal elements keep their order. *)
Fixpoint insert (le : A -> A -> bool) (x : A) (l : list A) : list A :=
  match l with
  | [] => [x]
  | y :: t => if le x y then x :: l else y :: insert le x t
  end.

Definition stable_sort (le : A -> A -> bool) (l : list A) : list A :=
  fold_right (insert le) [] l.

(** [Array.prototype.sort(cmp)]: a stable sort; [x] stays before [y]
    unless [cmp x y > 0].  For a consistent comparator every stable
    sorting algorithm returns this list. *)
Definition Array_sort (cmp : A -> A -> Z) (l : list A) : list A :=
  stable_sort (fun x y => cmp x y <=? 0) l.
End Sort.

End JSArray.
Import JSArray.

(** ** Objects used as dictionaries *)

Module JSObject.

(** The own string-keyed properties of an ordinary object, in creation
  order. *)
Definition t (V : Type) : Type := list (string * V).

Section Obj.
Context {V : Type}.

Definition is_index (p : string * V) : bool :=
  match array_index (fst p) with Some _ => true | None => false end.

Definition index_of (p : string * V) : N :=
  match array_index (fst p) with Some n => n | None => 0%N end.

(** [Object.entries]: array-index keys in ascending numeric order, then
    the other keys in creation order (OrdinaryOwnPropertyKeys). *)
Definition Object_entries (o : t V) : list (string * V) :=
  stable_sort (fun p q => (index_of p <=? index_of q)%N) (filter is_index o)
  ++ filter (fun p => negb (is_index p)) o.
End Obj.

Section GroupBy.
Context {A : Type}.

(** Append [x] to the group under [k], creating the group when absent. *)
Fixpoint add_to_group (o : t (list A)) (k : string) (x : A) : t (list A) :=
  match o with
  | [] => [(k, [x])]
  | (k', g) :: o' =>
      if String.eqb k' k then (k', g ++ [x]) :: o'
      else (k', g) :: add_to_group o' k x
  end.

(** [Object.groupBy(items, key)]. *)
Definition Object_groupBy (items : list A) (key : A -> string) : t (list A) :=
  fold_left (fun o x => add_to_group o (key x) x) items [].
End GroupBy.

End JSObject.
Import JSObject.

(** ** Data model *)

Record Event := { userId : string; duration : Z }.

Record UserAverage := { id : string; avg : float }.

Definition NUM_USERS : Z := 50.
Definition MIN_DURATION : Z := 10.
Definition MAX_DURATION : Z := 200.

(** ** Reference computation (llm-codegen-test.ts, llm-context-test.ts) *)

Section Reference.
Variable localeCompare : string -> string -> Z.

Definition by_id (a b : UserAverage) : Z := localeCompare (id a) (id b).

(** [group.reduce((a, b) => a + b.duration, 0) / group.length]. *)
Definition group_mean (group : list Event) : float :=
  (fold_left (fun a b => a + Z2float (duration b)) group 0
   / nat2float (List.length group))%float.

Definition computeCorrectAnswer (events : list Event) : list UserAverage :=
  let filtered := filter (fun e => 50 <=? duration e) events in
  let grouped := Object_groupBy filtered userId in
  let result :=
    map (fun '(id, group) =>
           {| id := id;
              avg := (Math_round (group_mean group * 100) / 100)%float |})
        (Object_entries grouped) in
  Array_sort by_id result.

(** The normalize-and-sort step applied to a parsed model answer
    (askLLMToCompute) and to the output of the generated program
    (executeGeneratedCode). *)
Definition normalize (result : list UserAverage) : list UserAverage :=
  Array_sort by_id
    (map (fun r => {| id := id r;
                      avg := (Math_round (avg r * 100) / 100)%float |})
         result).
End Reference.

(** ** Local benchmark (process-events.ts) *)

Definition processEvents (events : list Event) : list UserAverage :=
  let filtered := filter (fun e => 50 <=? duration e) events in
  let grouped := Object_groupBy filtered userId in
  let result :=
    map (fun '(id, group) => {| id := id; avg := group_mean group |})
        (Object_entries grouped) in
  result.

(** ** Scorer *)

Record Comparison := {
  matched : bool;
  correctCount : nat;
  totalCount : nat;
  accuracy : float
}.

(** The test of one expected entry inside the loop of [compareResults]. *)
Definition entry_correct (actual : list UserAverage) (exp : UserAverage) : bool :=
  match find (fun a => String.eqb (id a) (id exp)) actual with
  | Some act => (Math_abs (avg act - avg exp) <? 0.1)%float
  | None => false
  end.

Definition compareResults (expected : list UserAverage)
    (actual : option (list UserAverage)) : Comparison :=
  match actual with
  | None =>
      {| matched := false; correctCount := 0;
         totalCount := List.length expected; accuracy := 0 |}
  | Some actual =>
      let correctCount :=
        fold_left (fun n exp => if entry_correct actual exp then S n else n)
                  expected 0%nat in
      {| matched := Nat.eqb correctCount (List.length expected)
                    && Nat.eqb (List.length actual) (List.length expected);
         correctCount := correctCount;
         totalCount := List.length expected;
         accuracy :=
           Math_round (nat2float correctCount / nat2float (List.length expected) * 100)%float |}
  end.

(** ** Code-execution sandbox (llm-codegen-test.ts)

    Spawning the child and reading its pipes is outside the program; what
    the child did is the input: either it closed with an exit code ([None]
    when a signal ended it) and the text captured on its two streams, or
    spawning failed with a message.  [JSON_parse] is the built-in parser
    followed by the cast to [UserAverage[]]: [None] when the [try] block
    throws. *)

Inductive ChildOutcome :=
| Closed (code : option Z) (stdout stderr : string)
| SpawnError (message : string).

Record Execution := {
  result : option (list UserAverage);
  latencyMs : Z;
  error : option string
}.

Section Sandbox.
Variable localeCompare : string -> string -> Z.
Variable JSON_parse : string -> option (list UserAverage).

(** The template literal [${code}]. *)
Definition code_text (code : option Z) : string :=
  match code with
  | Some n => string_of_Z n
  | None => "null"
  end.

Definition executeGeneratedCode (latency : Z) (child : ChildOutcome) : Execution :=
  match child with
  | Closed code stdout stderr =>
      if negb (match code with Some 0 => true | _ => false end) then
        {| result := None;
           latencyMs := latency;
           error := Some (if String.eqb stderr "" then
                            "Process exited with code " ++ code_text code
                          else stderr)%string |}
      else
        match JSON_parse (trim stdout) with
        | Some parsed =>
            {| result := Some (normalize localeCompare parsed);
               latencyMs := latency;
               error := None |}
        | None =>
            {| result := None;
               latencyMs := latency;
               error := Some ("Failed to parse output: "
                              ++ substring 0 200 stdout)%string |}
        end
  | SpawnError message =>
      {| result := None; latencyMs := latency; error := Some message |}
  end.
End Sandbox.

(** ** Data generators

    [Math.random] reads hidden state of the runtime.  The ambient state is
    a [World]: the sequence of Numbers the runtime will draw and how many
    were drawn so far.  A computation is a function from the world to a
    result and the next world. *)

Record World := { draws : nat -> float; drawn : nat }.

Definition JS (A : Type) : Type := World -> A * World.

Definition ret {A} (a : A) : JS A := fun w => (a, w).

Definition bind {A B} (m : JS A) (k : A -> JS B) : JS B :=
  fun w => let (a, w') := m w in k a w'.

Notation "x <- m ;; k" := (bind m (fun x => k))
  (at level 61, m at next level, right associativity).

Definition Math_random : JS float :=
  fun w => (draws w (drawn w), {| draws := draws w; drawn := S (drawn w) |}).

(** The two fields of an event, each from one random Number, as both
    generators write them:
    [Math.floor(r * NUM_USERS) + 1] and
    [Math.floor(r * (MAX_DURATION - MIN_DURATION + 1)) + MIN_DURATION]. *)
Definition user_number (r : float) : Z :=
  truncate (Math_floor (r * Z2float NUM_USERS) + 1)%float.

Definition duration_number (r : float) : Z :=
  truncate (Math_floor (r * Z2float (MAX_DURATION - MIN_DURATION + 1))
            + Z2float MIN_DURATION)%float.

Definition make_event (r1 r2 : float) : Event :=
  {| userId := ("user" ++ string_of_Z (user_number r1))%string;
     duration := duration_number r2 |}.

Module CodegenTest.

Definition seed : Z := 12345.

(** One call of the closure [random]: the new value of [current] and the
    Number returned. *)
Definition random (current : Z) : float * Z :=
  let current' :=
    bitand (Z2float current * 1103515245 + 12345)%float 2147483647 in
  ((Z2float current' / 2147483647)%float, current').

Fixpoint generate_loop (count : nat) (current : Z) : list Event :=
  match count with
  | O => []
  | S n =>
      let (r1, c1) := random current in
      let (r2, c2) := random c1 in
      make_event r1 r2 :: generate_loop n c2
  end.

(** [generateEvents(count)] of llm-codegen-test.ts: [current] is a local
    variable initialised with the seed at every call. *)
Definition generateEvents (count : nat) : JS (list Event) :=
  ret (generate_loop count seed).

End CodegenTest.

Module ContextTest.

(** [generateEvents(count)] of llm-context-test.ts, on [Math.random]. *)
Fixpoint generateEvents (count : nat) : JS (list Event) :=
  match count with
  | O => ret []
  | S n =>
      r1 <- Math_random ;;
      r2 <- Math_random ;;
      rest <- generateEvents n ;;
      ret (make_event r1 r2 :: rest)
  end.

End ContextTest.

Module GenerateData.

(** [generateEvent()] of generate-data.ts. *)
Definition generateEvent : JS Event :=
  r1 <- Math_random ;;
  r2 <- Math_random ;;
  ret (make_event r1 r2).

End GenerateData.

(** ** Sorting test (llm-sort.ts)

    The arrays hold the integers the test generates; [a[i]] is [nth_error],
    [None] standing for [undefined]. *)

Module SortTest.

Definition strict_eq (x y : option Z) : bool :=
  match x, y with
  | Some a, Some b => a =? b
  | None, None => true
  | _, _ => false
  end.

Definition arraysEqual (a b : list Z) : bool :=
  if negb (Nat.eqb (List.length a) (List.length b)) then false
  else
    forallb (fun i => strict_eq (nth_error a i) (nth_error b i))
            (seq 0 (List.length a)).

(** What the call to the model produced. *)
Inductive ModelReply :=
| ApiError (message : option string)
| Unparsable
| Parsed (array : list Z).

Record SortAnswer := {
  sorted : option (list Z);
  sort_error : option string
}.

Definition askLLMToSort (reply : ModelReply) : SortAnswer :=
  match reply with
  | Parsed array => {| sorted := Some array; sort_error := None |}
  | Unparsable => {| sorted := None; sort_error := Some "Parse error"%string |}
  | ApiError message => {| sorted := None; sort_error := message |}
  end.

(** A string is truthy when it is present and not empty. *)
Definition truthy (s : option string) : bool :=
  match s with
  | Some s => negb (String.eqb s "")
  | None => false
  end.

Definition expectedSorted (numbers : list Z) : list Z :=
  Array_sort (fun a b => a - b) numbers.

(** The [passed] field of [runSingleTest], for the array [numbers] that
    was generated and the reply of the model. *)
Definition runSingleTest (numbers : list Z) (reply : ModelReply) : bool :=
  let answer := askLLMToSort reply in
  if truthy (sort_error answer)
     || match sorted answer with Some _ => false | None => true end
  then false
  else
    match sorted answer with
    | Some array => arraysEqual (expectedSorted numbers) array
    | None => false
    end.

End SortTest.

(** ** Definitions used to state the properties *)

(** The record with the average re-rounded to two decimals. *)
Definition rounded (r : UserAverage) : UserAverage :=
  {| id := id r; avg := round2 (avg r) |}.

(** Ascending order of ids under a comparator. *)
Definition sorted_by_id (cmp : string -> string -> Z) (l : list UserAverage) : Prop :=
  Sorted (fun a b => (cmp (id a) (id b) <=? 0) = true) l.

(** The Number written with two decimals whose hundredths are [k]. *)
Definition cents (k : Z) : float := (Z2float k / 100)%float.

(** A Number that the normalize step has already rounded: the Number
    nearest to [k / 100] for an integer [k] of magnitude at most
    [100 * 2^45] (values up to 2^45 = 35184372088832), or one of the
    Numbers that rounding leaves as they are: -0, NaN and the infinities. *)
Definition two_decimal (x : float) : Prop :=
  (exists k, - (100 * 2 ^ 45) <= k <= 100 * 2 ^ 45 /\ x = cents k)
  \/ x = PrimFloat.neg_zero \/ x = PrimFloat.nan
  \/ x = PrimFloat.infinity \/ x = PrimFloat.neg_infinity.

(** An average the normalize step can take: a hundredfold, as computed,
    of magnitude at most [100 * 2^45], or NaN or infinite. *)
Definition roundable (x : float) : Prop :=
  (PrimFloat.abs (x * 100) <=? 3518437208883200)%float = true
  \/ (x * 100)%float = PrimFloat.nan
  \/ (x * 100)%float = PrimFloat.infinity
  \/ (x * 100)%float = PrimFloat.neg_infinity.

(** The position of the rational [N / D] with respect to the integer
    [shr_m mrs], as the round and sticky bits of [mrs] record it: equal,
    less than half a unit above, half a unit above, or more. *)
Definition located (N D : Z) (mrs : shr_record) : Prop :=
  match shr_r mrs, shr_s mrs with
  | false, false => N = D * shr_m mrs
  | false, true => D * shr_m mrs < N /\ 2 * (N - D * shr_m mrs) < D
  | true, false => 2 * (N - D * shr_m mrs) = D
  | true, true => D < 2 * (N - D * shr_m mrs) /\ N < D * (shr_m mrs + 1)
  end.

(** What [Array.prototype.sort] requires of its comparator, as far as the
    order of the result goes. *)
Record consistent (cmp : string -> string -> Z) : Prop := {
  cmp_total : forall a b, 0 < cmp a b -> cmp b a <= 0;
  cmp_trans : forall a b c, cmp a b <= 0 -> cmp b c <= 0 -> cmp a c <= 0
}.

(** The reference computation in the words of the specification: drop
    every event with [duration < 50], take the users of the remaining events
    in some order [ids] without repetition, give each the two-decimal
    rounding of the mean of its durations, and sort by id. *)
Definition drop_short (events : list Event) : list Event :=
  filter (fun e => negb (duration e <? 50)) events.

Definition durations_of (u : string) (events : list Event) : list Z :=
  map duration (filter (fun e => String.eqb (userId e) u) events).

Definition mean (ds : list Z) : float :=
  (fold_left (fun a d => a + Z2float d) ds 0 / nat2float (List.length ds))%float.

Definition user_average (events : list Event) (u : string) : UserAverage :=
  {| id := u; avg := round2 (mean (durations_of u events)) |}.

Definition grouping_order (events : list Event) (ids : list string) : Prop :=
  NoDup ids /\ forall u, In u ids <-> In u (map userId events).

(** The keys of a list in order of first occurrence, the group of a key,
    and the order in which an object enumerates its keys. *)
Definition add_key (ks : list string) (k : string) : list string :=
  if existsb (String.eqb k) ks then ks else ks ++ [k].

Definition first_keys {A} (key : A -> string) (l : list A) : list string :=
  fold_left (fun ks x => add_key ks (key x)) l [].

Definition group_of {A} (key : A -> string) (l : list A) (k : string) : string * list A :=
  (k, filter (fun x => String.eqb (key x) k) l).

Definition is_index_key (k : string) : bool :=
  match array_index k with Some _ => true | None => false end.

Definition index_of_key (k : string) : N :=
  match array_index k with Some n => n | None => 0%N end.

Definition own_keys (ks : list string) : list string :=
  stable_sort (fun p q => (index_of_key p <=? index_of_key q)%N) (filter is_index_key ks)
  ++ filter (fun k => negb (is_index_key k)) ks.

(** The first entry of [actual] whose id is [u], which is what
    [actual.find] returns. *)
Definition first_with_id (actual : list UserAverage) (u : string) (act : UserAverage) : Prop :=
  exists before after,
    actual = before ++ act :: after
    /\ id act = u
    /\ Forall (fun a => id a <> u) before.



Definition accuracy_of (c t : nat) : float :=
  Math_round (nat2float c / nat2float t * 100)%float.




(** The users of the pool and the events both generators should produce. *)
Definition in_pool (u : string) : Prop :=
  exists k, 1 <= k <= NUM_USERS /\ u = ("user" ++ string_of_Z k)%string.

Definition valid_event (e : Event) : Prop :=
  in_pool (userId e) /\ MIN_DURATION <= duration e <= MAX_DURATION.

(** A random Number is in [0, 1) and gives a user number and a duration in
    range. *)
Definition draw_ok (r : float) : bool :=
  (0 <=? r)%float && (r <? 1)%float
  && (1 <=? user_number r) && (user_number r <=? NUM_USERS)
  && (MIN_DURATION <=? duration_number r) && (duration_number r <=? MAX_DURATION).

(** The ambient state in which [Math.random] keeps its contract. *)
Definition random_in_unit (w : World) : Prop :=
  forall i, (0 <=? draws w i)%float = true /\ (draws w i <? 1)%float = true.

(** The state of the seeded generator after a call, and a walk along
    [fuel] calls that stops at the first Number outside [0, 1). *)
Definition next_state (current : Z) : Z := snd (CodegenTest.random current).

Definition in_unit (r : float) : bool := (0 <=? r)%float && (r <? 1)%float.

Fixpoint walk (fuel : nat) (current : Z) : option Z :=
  match fuel with
  | O => Some current
  | S f =>
      let (r, c) := CodegenTest.random current in
      if in_unit r then walk f c else None
  end.

(** The generator enters a cycle of 10466 states after 5938 calls. *)
Definition tail_length : nat := Z.to_nat 5938.
Definition cycle_length : nat := Z.to_nat 10466.
Definition cycle_entry : Z := 1372572160.

(** The fields computed from the integer part [y] of the scaled random
    Number, and their check over the first [n] integers. *)
Definition user_of_floor (y : float) : Z := truncate (y + 1)%float.

Definition duration_of_floor (y : float) : Z := truncate (y + Z2float MIN_DURATION)%float.

Definition users_in_range (n : nat) : bool :=
  forallb (fun q => let k := user_of_floor (Z2float (Z.of_nat q)) in
                    (1 <=? k) && (k <=? NUM_USERS))
          (seq 0 n).

Definition durations_in_range (n : nat) : bool :=
  forallb (fun q => let d := duration_of_floor (Z2float (Z.of_nat q)) in
                    (MIN_DURATION <=? d) && (d <=? MAX_DURATION))
          (seq 0 n).

(** A world whose every draw is one half. *)
Definition steady_world : World := {| draws := fun _ => 0.5%float; drawn := 0 |}.

(** ** Sorting test: generated arrays and summary (llm-sort.ts) *)

Module SortSummary.

Definition ARRAY_SIZES : list Z :=
  [10; 20; 30; 40; 50; 60; 70; 80; 90; 100; 110; 120; 130; 140; 150].
Definition SAMPLES_PER_SIZE : nat := 10.
Definition MIN_VALUE : Z := 1.
Definition MAX_VALUE : Z := 10000.

(** [Math.floor(Math.random() * (MAX_VALUE - MIN_VALUE + 1)) + MIN_VALUE]. *)
Definition random_value (r : float) : Z :=
  truncate (Math_floor (r * Z2float (MAX_VALUE - MIN_VALUE + 1))
            + Z2float MIN_VALUE)%float.

Fixpoint generateRandomArray (size : nat) : JS (list Z) :=
  match size with
  | O => ret []
  | S n =>
      r <- Math_random ;;
      rest <- generateRandomArray n ;;
      ret (random_value r :: rest)
  end.

(** [Math.round((samples.filter(s => s).length / SAMPLES_PER_SIZE) * 100)]. *)
Definition passRate (samples : list bool) : float :=
  Math_round (nat2float (List.length (filter (fun s => s) samples))
              / nat2float SAMPLES_PER_SIZE * 100)%float.

(** The loop that looks for the cliff: the first size whose pass rate is
    below 100 replaces the initial value and ends the loop. *)
Fixpoint cliff_loop (rate : Z -> float) (sizes : list Z) (cliffSize : Z) : Z :=
  match sizes with
  | [] => cliffSize
  | size :: rest =>
      if (rate size <? 100)%float then size else cliff_loop rate rest cliffSize
  end.

Definition cliffSize (rate : Z -> float) : Z :=
  cliff_loop rate ARRAY_SIZES (last ARRAY_SIZES 0).

End SortSummary.

(** The events of the seeded generator repeat with a period of 5233 events
    from event 2969 on. *)
Definition event_tail : nat := Z.to_nat 2969.
Definition event_period : nat := Z.to_nat 5233.

(** The world after [n] more draws. *)
Definition advance (n : nat) (w : World) : World :=
  {| draws := draws w; drawn := (n + drawn w)%nat |}.

(** A Number that is neither NaN nor an infinity. *)
Definition finite_avg (r : UserAverage) : Prop := PrimFloat.is_finite (avg r) = true.

(** The scorer's accuracy is 100 for [t] correct out of [t] and 0 for none
    correct out of [t], for every [t] from 1 to [n]. *)
Definition accuracy_ends_below (n : nat) : bool :=
  forallb (fun t => PrimFloat.Leibniz.eqb (accuracy_of t t) 100
                    && PrimFloat.Leibniz.eqb (accuracy_of 0 t) 0)
          (seq 1 n).

Definition values_in_range (n : nat) : bool :=
  forallb (fun q => let v := truncate (Z2float (Z.of_nat q)
                                       + Z2float SortSummary.MIN_VALUE)%float in
                    (SortSummary.MIN_VALUE <=? v) && (v <=? SortSummary.MAX_VALUE))
          (seq 0 n).

(** ** The generated program kept in the repository (.temp/executor.ts)

    The fragment between the two markers: a [reduce] into an object literal
    [{}], which, unlike the object of [Object.groupBy], inherits from
    [Object.prototype]. *)

Module Executor.

(** The properties every object inherits from [Object.prototype]; each
    holds a truthy value. *)
Definition Object_prototype_keys : list string :=
  [ "constructor"; "__defineGetter__"; "__defineSetter__"; "hasOwnProperty";
    "__lookupGetter__"; "__lookupSetter__"; "isPrototypeOf";
    "propertyIsEnumerable"; "toString"; "valueOf"; "__proto__";
    "toLocaleString" ]%string.

Definition inherited (k : string) : bool :=
  existsb (String.eqb k) Object_prototype_keys.

Record Totals := { sum : float; count : nat }.

Definition has_own (acc : JSObject.t Totals) (k : string) : bool :=
  existsb (fun p => String.eqb (fst p) k) acc.

(** [acc[k].sum += d; acc[k].count += 1] on an own property; when [acc[k]]
    is an inherited value the two assignments do not touch [acc]. *)
Fixpoint add_to_totals (acc : JSObject.t Totals) (k : string) (d : Z) : JSObject.t Totals :=
  match acc with
  | [] => []
  | (k', t) :: acc' =>
      if String.eqb k' k then
        (k', {| sum := (sum t + Z2float d)%float; count := S (count t) |}) :: acc'
      else (k', t) :: add_to_totals acc' k d
  end.

(** The callback of [reduce]. *)
Definition reducer (acc : JSObject.t Totals) (e : Event) : JSObject.t Totals :=
  let acc1 :=
    if negb (has_own acc (userId e) || inherited (userId e)) then
      acc ++ [(userId e, {| sum := 0; count := 0 |})]
    else acc in
  add_to_totals acc1 (userId e) (duration e).

Definition result (localeCompare : string -> string -> Z) (events : list Event)
  : list UserAverage :=
  Array_sort (by_id localeCompare)
    (map (fun '(id, t) =>
            {| id := id;
               avg := (Math_round (sum t / nat2float (count t) * 100) / 100)%float |})
         (Object_entries
            (fold_left reducer (filter (fun e => 50 <=? duration e) events) []))).

End Executor.

(** The totals of a group, and the events whose user is not a property of
    [Object.prototype]. *)
Definition totals_of (p : string * list Event) : string * Executor.Totals :=
  (fst p,
   {| Executor.sum := fold_left (fun a b => a + Z2float (duration b))%float (snd p) 0%float;
      Executor.count := List.length (snd p) |}).

Definition plain_user (e : Event) : bool := negb (Executor.inherited (userId e)).

(** ** Regular expressions and Markdown fences

    The three regular expressions of the drivers are built from literals,
    optional parts and concatenation.  [matches r s n k] matches [r] at the
    start of [s], having consumed [n] code units so far, and hands the
    number consumed and the rest to [k]; an optional part is tried first
    and given up when the continuation fails (backtracking). *)

Module Regex.

Inductive t :=
| Lit (l : string)
| Opt (r : t)
| Cat (r1 r2 : t).

Fixpoint strip_prefix (l s : string) : option string :=
  match l, s with
  | EmptyString, _ => Some s
  | String a l', String b s' => if Ascii.eqb a b then strip_prefix l' s' else None
  | String _ _, EmptyString => None
  end.

Fixpoint matches {A} (r : t) (s : string) (n : nat) (k : nat -> string -> option A)
  : option A :=
  match r with
  | Lit l =>
      match strip_prefix l s with
      | Some rest => k (n + String.length l)%nat rest
      | None => None
      end
  | Opt r' =>
      match matches r' s n k with
      | Some x => Some x
      | None => k n s
      end
  | Cat r1 r2 => matches r1 s n (fun n' rest => matches r2 rest n' k)
  end.

(** The length of the match of [r] at the start of [s], if there is one. *)
Definition match_length (r : t) (s : string) : option nat :=
  matches r s 0%nat (fun n _ => Some n).

(** [s.replace(/r/g, repl)]: the matches are taken from left to right and
    do not overlap; [skip] counts the code units of the current match that
    are still to be dropped.  After an empty match the next code unit is
    copied. *)
Fixpoint replace_from (r : t) (repl s : string) (skip : nat) : string :=
  match s with
  | EmptyString =>
      match skip, match_length r EmptyString with
      | O, Some _ => repl
      | _, _ => EmptyString
      end
  | String c rest =>
      match skip with
      | S n => replace_from r repl rest n
      | O =>
          match match_length r s with
          | Some O => (repl ++ String c (replace_from r repl rest 0))%string
          | Some (S n) => (repl ++ replace_from r repl rest n)%string
          | None => String c (replace_from r repl rest 0)
          end
      end
  end.

Definition replace_all (r : t) (repl s : string) : string := replace_from r repl s 0.

End Regex.

Definition newline : string := String "010"%char EmptyString.

(** The regular expressions /```typescript?\n?/, /```json?\n?/ and /```/. *)
Definition typescript_fence : Regex.t :=
  Regex.Cat (Regex.Lit "```typescrip")
            (Regex.Cat (Regex.Opt (Regex.Lit "t")) (Regex.Opt (Regex.Lit newline))).

Definition json_fence : Regex.t :=
  Regex.Cat (Regex.Lit "```jso")
            (Regex.Cat (Regex.Opt (Regex.Lit "n")) (Regex.Opt (Regex.Lit newline))).

Definition any_fence : Regex.t := Regex.Lit "```".

(** The clean-up of a model answer, as generateCode (with the TypeScript
    fence), askLLMToCompute and askLLMToSort (with the JSON fence) do it:
    trim; when the text starts with a fence, remove the opening fences with
    their language tag, then every fence, and trim again. *)
Definition stripFence (opening : Regex.t) (content : string) : string :=
  let code := trim content in
  if String.prefix "```" code then
    trim (Regex.replace_all any_fence "" (Regex.replace_all opening "" code))
  else code.

(** Texts without a backquote, texts that [trim] leaves alone, and texts
    that hold three backquotes in a row. *)
Definition backquote : ascii := "`"%char.

Fixpoint no_backquote (s : string) : bool :=
  match s with
  | EmptyString => true
  | String c t => negb (Ascii.eqb c backquote) && no_backquote t
  end.

Fixpoint has_fence (s : string) : bool :=
  match s with
  | EmptyString => false
  | String c t => String.prefix "```" s || has_fence t
  end.

(** A non-empty text with no white space at either end. *)
Definition trimmed (s : string) : Prop :=
  s <> EmptyString /\ trimStart s = s /\ trimEnd s = s.

(** ** One scale of the two benchmark drivers

    The body of the loop over the test sizes in [main].  What the outside
    world did is the input: the outcome of the child process for the
    code-generation test, the reply of the model for the context test. *)

Module CodegenRun.

Record Row := {
  row_size : Z;
  row_execTime : Z;
  row_accuracy : float;
  row_success : bool;
  row_error : option string
}.

Section Scale.
Variable localeCompare : string -> string -> Z.
Variable JSON_parse : string -> option (list UserAverage).

(** [events] are the records read from the data file of [size] events. *)
Definition main_scale (size : Z) (events : list Event) (latency : Z)
    (child : ChildOutcome) : Row :=
  let correctAnswer := computeCorrectAnswer localeCompare events in
  let execResult := executeGeneratedCode localeCompare JSON_parse latency child in
  if SortTest.truthy (error execResult) then
    {| row_size := size;
       row_execTime := latencyMs execResult;
       row_accuracy := 0;
       row_success := false;
       row_error := error execResult |}
  else
    let comparison := compareResults correctAnswer (result execResult) in
    {| row_size := size;
       row_execTime := latencyMs execResult;
       row_accuracy := accuracy comparison;
       row_success := matched comparison;
       row_error := None |}.
End Scale.

End CodegenRun.

Module ContextRun.

(** The request either threw (with the message of the error, if it has
    one) or returned the content of the first choice ([""] when absent) and
    the total token count (0 when absent). *)
Inductive ApiReply :=
| Threw (message : option string)
| Replied (content : string) (tokens : Z).

Record Answer := {
  success : bool;
  answer : option (list UserAverage);
  tokensUsed : Z;
  answer_latencyMs : Z;
  answer_error : option string
}.

Record Row := {
  row_size : Z;
  row_tokensUsed : Z;
  row_latencyMs : Z;
  row_accuracy : float;
  row_success : bool;
  row_error : option string
}.

Section Scale.
Variable localeCompare : string -> string -> Z.
Variable JSON_parse : string -> option (list UserAverage).

Definition askLLMToCompute (latency : Z) (reply : ApiReply) : Answer :=
  match reply with
  | Replied content tokens =>
      match JSON_parse (stripFence json_fence content) with
      | Some parsed =>
          {| success := true;
             answer := Some (normalize localeCompare parsed);
             tokensUsed := tokens;
             answer_latencyMs := latency;
             answer_error := None |}
      | None =>
          {| success := false;
             answer := None;
             tokensUsed := tokens;
             answer_latencyMs := latency;
             answer_error := Some ("Failed to parse response: "
                                   ++ substring 0 200 content ++ "...")%string |}
      end
  | Threw message =>
      {| success := false;
         answer := None;
         tokensUsed := 0;
         answer_latencyMs := latency;
         answer_error := message |}
  end.

(** [events] are the events generated for [size]. *)
Definition main_scale (size : Z) (events : list Event) (latency : Z)
    (reply : ApiReply) : Row :=
  let correctAnswer := computeCorrectAnswer localeCompare events in
  let llmResult := askLLMToCompute latency reply in
  if SortTest.truthy (answer_error llmResult) then
    {| row_size := size;
       row_tokensUsed := tokensUsed llmResult;
       row_latencyMs := answer_latencyMs llmResult;
       row_accuracy := 0;
       row_success := false;
       row_error := answer_error llmResult |}
  else
    let comparison := compareResults correctAnswer (answer llmResult) in
    {| row_size := size;
       row_tokensUsed := tokensUsed llmResult;
       row_latencyMs := answer_latencyMs llmResult;
       row_accuracy := accuracy comparison;
       row_success := matched comparison;
       row_error := None |}.
End Scale.

End ContextRun.

Module SortRun.

(** The reply of the sorting request, from the content the model
    returned: the text is cleaned like the others and parsed as an array
    of Numbers. *)
Definition reply_of (JSON_parse : string -> option (list Z)) (content : string)
  : SortTest.ModelReply :=
  match JSON_parse (stripFence json_fence content) with
  | Some array => SortTest.Parsed array
  | None => SortTest.Unparsable
  end.

End SortRun.

(** * Properties *)

(** ** The stable sort *)

Section SortFacts.
Context {A : Type} (le : A -> A -> bool).

Let leP (a b : A) : Prop := le a b = true.

Lemma insert_perm (x : A) (l : list A) : Permutation (insert le x l) (x :: l).
Proof.
  induction l as [|y t IH]; simpl; [reflexivity|].
  destruct (le x y); [reflexivity|].
  rewrite IH. apply perm_swap.
Qed.

Lemma stable_sort_perm (l : list A) : Permutation (stable_sort le l) l.
Proof.
  induction l as [|x t IH]; simpl; [constructor|].
  rewrite insert_perm. now constructor.
Qed.

Lemma stable_sort_length (l : list A) :
  List.length (stable_sort le l) = List.length l.
Proof. apply Permutation_length, stable_sort_perm. Qed.

(** A list that is already in order is left as it is. *)
Lemma stable_sort_fixed (l : list A) : Sorted leP l -> stable_sort le l = l.
Proof.
  induction 1 as [|x l Hs IH Hhd]; simpl; [reflexivity|].
  rewrite IH. destruct Hhd as [|y t Hxy]; simpl; [reflexivity|].
  unfold leP in Hxy. now rewrite Hxy.
Qed.

Hypothesis le_total : forall x y, le x y = false -> le y x = true.

Lemma insert_sorted (x : A) (l : list A) : Sorted leP l -> Sorted leP (insert le x l).
Proof.
  induction 1 as [|y t Hs IH Hhd]; simpl.
  - repeat constructor.
  - destruct (le x y) eqn:E.
    + repeat constructor; assumption.
    + constructor; [assumption|].
      destruct t as [|z t']; simpl.
      * constructor. now apply le_total.
      * destruct (le x z); constructor.
        -- now apply le_total.
        -- now inversion Hhd.
Qed.

Lemma stable_sort_sorted (l : list A) : Sorted leP (stable_sort le l).
Proof.
  induction l as [|x t IH]; simpl; [constructor|].
  now apply insert_sorted.
Qed.
End SortFacts.

(** Two ascending lists of integers with the same elements are equal. *)
Lemma sorted_perm_unique (l1 l2 : list Z) :
  Sorted Z.le l1 -> Sorted Z.le l2 -> Permutation l1 l2 -> l1 = l2.
Proof.
  intros H1 H2.
  apply Sorted_StronglySorted in H1; [|intros a b c; lia].
  apply Sorted_StronglySorted in H2; [|intros a b c; lia].
  revert l2 H2. induction H1 as [|x l1 Hs1 IH Hx]; intros l2 H2 HP.
  - apply Permutation_nil in HP. now subst.
  - destruct H2 as [|y l2 Hs2 Hy].
    + apply Permutation_sym, Permutation_nil in HP. discriminate.
    + assert (x = y).
      { assert (Hin1 : In x (y :: l2)) by (eapply Permutation_in; [exact HP|now left]).
        assert (Hin2 : In y (x :: l1))
          by (eapply Permutation_in; [apply Permutation_sym; exact HP|now left]).
        rewrite Forall_forall in Hx, Hy.
        destruct Hin1 as [->|Hin1]; [reflexivity|].
        destruct Hin2 as [->|Hin2]; [reflexivity|].
        specialize (Hx _ Hin2). specialize (Hy _ Hin1). lia. }
      subst y. f_equal. apply IH; [assumption|].
      now apply Permutation_cons_inv in HP.
Qed.

(** ** Normalization *)

Lemma normalize_perm (cmp : string -> string -> Z) (l : list UserAverage) :
  Permutation (normalize cmp l) (map rounded l).
Proof. unfold normalize, Array_sort. apply stable_sort_perm. Qed.

(** C10: normalization keeps the length and the ids of the parsed sequence;
    its output is a rearrangement of the input records with each average
    replaced by its two-decimal rounding, so that no record is added,
    dropped or re-keyed. *)
Theorem normalize_changes_only_avg (cmp : string -> string -> Z) (l : list UserAverage) :
  List.length (normalize cmp l) = List.length l
  /\ Permutation (map id (normalize cmp l)) (map id l)
  /\ Permutation (normalize cmp l) (map rounded l)
  /\ (forall r, In r (normalize cmp l) <->
                exists r0, In r0 l /\ id r = id r0 /\ avg r = round2 (avg r0)).
Proof.
  pose proof (normalize_perm cmp l) as HP.
  split; [|split; [|split]].
  - rewrite (Permutation_length HP). apply length_map.
  - rewrite (Permutation_map id HP), map_map. reflexivity.
  - exact HP.
  - intros r. split.
    + intros Hin. apply (Permutation_in _ HP) in Hin.
      apply in_map_iff in Hin as (r0 & <- & Hin). now exists r0.
    + intros (r0 & Hin & Hid & Havg).
      apply (Permutation_in _ (Permutation_sym HP)).
      apply in_map_iff. exists r0. split; [|assumption].
      destruct r as [i a]. simpl in *. now subst.
Qed.

(** C8, as stated, fails: the sequence below is an output of the
    normalize-and-sort step, yet the step changes it again (the average
    41105700348768.34 becomes 41105700348768.35). *)
Lemma normalize_not_idempotent :
  let l := normalize codeUnitCompare [ {| id := "a"; avg := 41105700348768.336 |} ] in
  normalize codeUnitCompare l <> l.
Proof.
  intros l H.
  apply (f_equal (fun l => match l with
                           | r :: _ => (avg r =? 0x1.2b1555571b02cp+45)%float
                           | [] => false
                           end)) in H.
  vm_compute in H. discriminate H.
Qed.

(** ** Grouping *)

Lemma stable_sort_map {A B} (f : A -> B) (leA : A -> A -> bool) (leB : B -> B -> bool) (l : list A) :
  (forall a b, leB (f a) (f b) = leA a b) ->
  stable_sort leB (map f l) = map f (stable_sort leA l).
Proof.
  intros Hle. induction l as [|x t IH]; simpl; [reflexivity|].
  rewrite IH. generalize (stable_sort leA t) as s. clear IH.
  induction s as [|y s IH]; simpl; [reflexivity|].
  rewrite Hle. destruct (leA x y); simpl; [reflexivity|]. now rewrite IH.
Qed.

Lemma own_keys_perm (ks : list string) : Permutation (own_keys ks) ks.
Proof.
  unfold own_keys. rewrite stable_sort_perm.
  induction ks as [|k ks IH]; simpl; [constructor|].
  destruct (is_index_key k); simpl.
  - now constructor.
  - rewrite <- Permutation_middle. now constructor.
Qed.

Section Groups.
Context {A : Type} (key : A -> string).

Lemma Object_entries_groups (l : list A) (ks : list string) :
  Object_entries (map (group_of key l) ks) = map (group_of key l) (own_keys ks).
Proof.
  unfold Object_entries, own_keys. rewrite map_app. f_equal.
  - rewrite <- (stable_sort_map (group_of key l)
                  (fun p q => (index_of_key p <=? index_of_key q)%N)
                  (fun p q => (index_of p <=? index_of q)%N)) by reflexivity.
    f_equal. induction ks as [|k ks IH]; simpl; [reflexivity|].
    unfold is_index at 1. simpl. fold (is_index_key k).
    destruct (is_index_key k); simpl; now rewrite IH.
  - induction ks as [|k ks IH]; simpl; [reflexivity|].
    unfold is_index at 1. simpl. fold (is_index_key k).
    destruct (is_index_key k); simpl; now rewrite IH.
Qed.

Lemma existsb_eqb_In (k : string) (ks : list string) :
  existsb (String.eqb k) ks = true <-> In k ks.
Proof.
  rewrite existsb_exists. split.
  - intros (k' & Hin & Heq). apply String.eqb_eq in Heq. now subst.
  - intros Hin. exists k. split; [assumption|apply String.eqb_refl].
Qed.

Lemma first_keys_snoc (l : list A) (x : A) :
  first_keys key (l ++ [x]) = add_key (first_keys key l) (key x).
Proof. unfold first_keys. now rewrite fold_left_app. Qed.

Lemma first_keys_In (l : list A) (k : string) :
  In k (first_keys key l) <-> In k (map key l).
Proof.
  induction l as [|x l IH] using rev_ind; [reflexivity|].
  rewrite first_keys_snoc, map_app, in_app_iff. simpl. unfold add_key.
  destruct (existsb (String.eqb (key x)) (first_keys key l)) eqn:E.
  - apply existsb_eqb_In in E. rewrite <- IH. intuition (subst; auto).
  - rewrite in_app_iff. simpl. rewrite IH. tauto.
Qed.

Lemma first_keys_NoDup (l : list A) : NoDup (first_keys key l).
Proof.
  induction l as [|x l IH] using rev_ind; [constructor|].
  rewrite first_keys_snoc. unfold add_key.
  destruct (existsb (String.eqb (key x)) (first_keys key l)) eqn:E; [assumption|].
  apply NoDup_app; [assumption|repeat constructor; intros []|].
  intros k Hin [<-|[]].
  apply existsb_eqb_In in Hin. congruence.
Qed.

Lemma group_of_snoc_other (l : list A) (x : A) (k : string) :
  k <> key x -> group_of key (l ++ [x]) k = group_of key l k.
Proof.
  intros Hne. unfold group_of. rewrite filter_app. simpl.
  destruct (String.eqb_spec (key x) k); [congruence|]. now rewrite app_nil_r.
Qed.

Lemma add_to_group_groups (l : list A) (x : A) (ks : list string) :
  NoDup ks ->
  add_to_group (map (group_of key l) ks) (key x) x =
  map (group_of key (l ++ [x])) ks
  ++ (if existsb (String.eqb (key x)) ks then [] else [(key x, [x])]).
Proof.
  induction 1 as [|k ks Hnin Hnd IH]; simpl; [reflexivity|].
  rewrite (String.eqb_sym (key x) k).
  destruct (String.eqb_spec k (key x)) as [->|Hne]; simpl.
  - replace (existsb (String.eqb (key x)) ks) with false.
    + rewrite app_nil_r. f_equal.
      * unfold group_of. rewrite filter_app. simpl. now rewrite String.eqb_refl.
      * apply map_ext_in. intros k Hin. symmetry. apply group_of_snoc_other.
        intros ->. contradiction.
    + symmetry. apply not_true_is_false. rewrite existsb_eqb_In. exact Hnin.
  - rewrite IH. now rewrite group_of_snoc_other by assumption.
Qed.

(** [Object.groupBy] holds, for each key in order of first occurrence,
    the elements with this key in their order. *)
Lemma Object_groupBy_groups (l : list A) :
  Object_groupBy l key = map (group_of key l) (first_keys key l).
Proof.
  induction l as [|x l IH] using rev_ind; [reflexivity|].
  unfold Object_groupBy in *. rewrite fold_left_app. simpl. rewrite IH.
  rewrite add_to_group_groups by apply first_keys_NoDup.
  rewrite first_keys_snoc. unfold add_key.
  destruct (existsb (String.eqb (key x)) (first_keys key l)) eqn:E.
  - now rewrite app_nil_r.
  - rewrite map_app. f_equal. simpl. f_equal. unfold group_of. f_equal.
    rewrite filter_app. simpl. rewrite String.eqb_refl.
    replace (filter (fun y => String.eqb (key y) (key x)) l) with (@nil A); [reflexivity|].
    assert (Hn : ~ In (key x) (map key l))
      by (rewrite <- first_keys_In, <- existsb_eqb_In; congruence).
    clear IH E. symmetry.
    induction l as [|y l IHl]; simpl; [reflexivity|].
    destruct (String.eqb_spec (key y) (key x)) as [Heq|Hne].
    + exfalso. apply Hn. left. exact Heq.
    + apply IHl. intros Hin. apply Hn. now right.
Qed.
End Groups.

(** ** Reference computation *)

Lemma group_mean_mean (g : list Event) : group_mean g = mean (map duration g).
Proof.
  unfold group_mean, mean. rewrite length_map. f_equal.
  generalize 0%float as a. induction g as [|e g IH]; intros a; simpl; [reflexivity|].
  apply IH.
Qed.

Lemma filter_long_drop_short (events : list Event) :
  filter (fun e => 50 <=? duration e) events = drop_short events.
Proof.
  apply filter_ext. intros e.
  destruct (Z.leb_spec 50 (duration e)), (Z.ltb_spec (duration e) 50); simpl; lia || reflexivity.
Qed.

(** The users in the order in which the grouped object enumerates them. *)
Lemma own_first_keys_order (events : list Event) :
  grouping_order events (own_keys (first_keys userId events)).
Proof.
  split.
  - eapply Permutation_NoDup; [symmetry; apply own_keys_perm|apply first_keys_NoDup].
  - intros u. rewrite <- first_keys_In. split; apply Permutation_in.
    + apply own_keys_perm.
    + symmetry. apply own_keys_perm.
Qed.

Lemma computeCorrectAnswer_groups (cmp : string -> string -> Z) (events : list Event) :
  computeCorrectAnswer cmp events =
  Array_sort (by_id cmp)
    (map (user_average (drop_short events))
         (own_keys (first_keys userId (drop_short events)))).
Proof.
  unfold computeCorrectAnswer. rewrite filter_long_drop_short.
  rewrite Object_groupBy_groups, Object_entries_groups, map_map.
  f_equal. apply map_ext. intros u. simpl.
  unfold user_average, round2, durations_of. now rewrite group_mean_mean.
Qed.

Lemma processEvents_groups (events : list Event) :
  processEvents events =
  map (fun u => {| id := u; avg := mean (durations_of u (drop_short events)) |})
      (own_keys (first_keys userId (drop_short events))).
Proof.
  unfold processEvents. rewrite filter_long_drop_short.
  rewrite Object_groupBy_groups, Object_entries_groups, map_map.
  apply map_ext. intros u. simpl. now rewrite group_mean_mean.
Qed.

Lemma grouping_order_perm (events : list Event) (ids ids' : list string) :
  grouping_order events ids -> grouping_order events ids' -> Permutation ids ids'.
Proof.
  intros [Hn Hi] [Hn' Hi']. apply NoDup_Permutation; [assumption..|].
  intros u. now rewrite Hi, Hi'.
Qed.

Lemma codeUnitCompare_consistent : consistent codeUnitCompare.
Proof.
  assert (Hle : forall a b, codeUnitCompare a b <= 0 <-> a = b \/ String_as_OT.lt a b).
  { intros a b. unfold codeUnitCompare.
    destruct (String_as_OT.compare_spec a b) as [H|H|H]; split; intros H'; try lia; auto.
    destruct H' as [->|H'].
    - now apply (StrictOrder_Irreflexive b) in H.
    - exfalso. apply (StrictOrder_Irreflexive a).
      now apply (StrictOrder_Transitive a b a). }
  split.
  - intros a b Hab. apply Hle. unfold codeUnitCompare in Hab.
    destruct (String_as_OT.compare_spec a b); try lia. now right.
  - intros a b c Hab Hbc. apply Hle. apply Hle in Hab, Hbc.
    destruct Hab as [->|Hab]; [assumption|].
    destruct Hbc as [<-|Hbc]; [now right|].
    right. now apply (StrictOrder_Transitive a b c).
Qed.

(** C1: the reference computation returns the list obtained by dropping
    the events with [duration < 50], grouping the others by user (in
    whatever order [ids] the groups come), giving each user the two-decimal
    rounding of the mean of its durations, and sorting by id under the
    locale comparison; it is sorted by id, the empty list gives the empty
    list, and the three events of the specification give
    [{id:"user1", avg:70}]. *)
Theorem computeCorrectAnswer_spec (localeCompare : string -> string -> Z) :
  consistent localeCompare ->
  forall events : list Event,
    (exists ids, grouping_order (drop_short events) ids
                 /\ computeCorrectAnswer localeCompare events =
                    Array_sort (by_id localeCompare)
                      (map (user_average (drop_short events)) ids))
    /\ (forall ids, grouping_order (drop_short events) ids ->
                    Permutation (computeCorrectAnswer localeCompare events)
                                (map (user_average (drop_short events)) ids))
    /\ sorted_by_id localeCompare (computeCorrectAnswer localeCompare events)
    /\ StronglySorted (fun a b => localeCompare (id a) (id b) <= 0)
                      (computeCorrectAnswer localeCompare events)
    /\ computeCorrectAnswer localeCompare [] = []
    /\ computeCorrectAnswer localeCompare
         [ {| userId := "user1"; duration := 60 |};
           {| userId := "user1"; duration := 80 |};
           {| userId := "user2"; duration := 40 |} ]
       = [ {| id := "user1"; avg := 70 |} ].
Proof.
  intros Hcmp events.
  assert (Hsorted : sorted_by_id localeCompare (computeCorrectAnswer localeCompare events)).
  { unfold sorted_by_id, computeCorrectAnswer, Array_sort.
    apply (stable_sort_sorted (fun x y => by_id localeCompare x y <=? 0)).
    intros x y Hxy. unfold by_id in *.
    apply Z.leb_gt in Hxy. apply Z.leb_le. now apply (cmp_total _ Hcmp). }
  split; [|split; [|split; [exact Hsorted|split; [|split; reflexivity]]]].
  3: { apply Sorted_StronglySorted.
       - intros a b c Hab Hbc. exact (cmp_trans _ Hcmp _ _ _ Hab Hbc).
       - eapply Sorted_ind with (P := Sorted _); [constructor| |exact Hsorted].
         intros a l _ Hl Hhd. constructor; [exact Hl|].
         destruct Hhd as [|b l' Hab]; constructor. now apply Z.leb_le. }
  - exists (own_keys (first_keys userId (drop_short events))). split.
    + apply own_first_keys_order.
    + apply computeCorrectAnswer_groups.
  - intros ids Hids. rewrite computeCorrectAnswer_groups.
    unfold Array_sort. rewrite stable_sort_perm. apply Permutation_map.
    eapply grouping_order_perm; [apply own_first_keys_order|exact Hids].
Qed.

Lemma computeCorrectAnswer_spec_witness :
  sorted_by_id codeUnitCompare
    (computeCorrectAnswer codeUnitCompare
       [ {| userId := "user2"; duration := 60 |};
         {| userId := "user1"; duration := 80 |};
         {| userId := "user2"; duration := 49 |} ]).
Proof.
  exact (proj1 (proj2 (proj2
    (computeCorrectAnswer_spec codeUnitCompare codeUnitCompare_consistent
       [ {| userId := "user2"; duration := 60 |};
         {| userId := "user1"; duration := 80 |};
         {| userId := "user2"; duration := 49 |} ])))).
Defined.

(** ** Local benchmark *)

(** C2, as stated, fails: [processEvents] neither rounds (first pair) nor
    sorts (second pair). *)
Lemma processEvents_differs :
  processEvents
    [ {| userId := "a"; duration := 50 |}; {| userId := "a"; duration := 51 |};
      {| userId := "a"; duration := 51 |} ]
  <> computeCorrectAnswer codeUnitCompare
       [ {| userId := "a"; duration := 50 |}; {| userId := "a"; duration := 51 |};
         {| userId := "a"; duration := 51 |} ]
  /\ processEvents
       [ {| userId := "b"; duration := 60 |}; {| userId := "a"; duration := 70 |} ]
     <> computeCorrectAnswer codeUnitCompare
          [ {| userId := "b"; duration := 60 |}; {| userId := "a"; duration := 70 |} ].
Proof.
  split; intros H.
  - apply (f_equal (fun l => match l with
                             | r :: _ => (avg r =? 50.67)%float
                             | [] => false
                             end)) in H.
    vm_compute in H. discriminate H.
  - apply (f_equal (map id)) in H. vm_compute in H. discriminate H.
Qed.

(** C2, amended: [processEvents] forms the same groups as the reference
    computation and gives each user the mean of its durations, unrounded, in
    the order in which the grouped object enumerates its keys; the
    reference computation is the normalize-and-sort step applied to it. *)
Theorem processEvents_normalized (localeCompare : string -> string -> Z) (events : list Event) :
  computeCorrectAnswer localeCompare events
  = normalize localeCompare (processEvents events)
  /\ exists ids,
       grouping_order (drop_short events) ids
       /\ processEvents events =
          map (fun u => {| id := u; avg := mean (durations_of u (drop_short events)) |}) ids.
Proof.
  split.
  - unfold computeCorrectAnswer, normalize, processEvents. rewrite map_map.
    f_equal. apply map_ext. intros [u g]. reflexivity.
  - exists (own_keys (first_keys userId (drop_short events))). split.
    + apply own_first_keys_order.
    + apply processEvents_groups.
Qed.

(** ** Scorer *)

Lemma count_fold (actual expected : list UserAverage) (n : nat) :
  fold_left (fun n exp => if entry_correct actual exp then S n else n) expected n
  = (n + List.length (filter (entry_correct actual) expected))%nat.
Proof.
  revert n. induction expected as [|e l IH]; intros n; simpl; [lia|].
  rewrite IH. destruct (entry_correct actual e); simpl; lia.
Qed.

Lemma find_first_with_id (actual : list UserAverage) (u : string) (act : UserAverage) :
  find (fun a => String.eqb (id a) u) actual = Some act <-> first_with_id actual u act.
Proof.
  unfold first_with_id. induction actual as [|a l IH]; simpl.
  - split; [discriminate|]. intros (b & t & H & _). now destruct b.
  - destruct (String.eqb_spec (id a) u) as [Heq|Hne].
    + split.
      * intros [= <-]. exists [], l. repeat split; [assumption|constructor].
      * intros ([|b0 b] & t & H & Hid & Hb); simpl in H; injection H as -> ->.
        -- reflexivity.
        -- inversion Hb; subst. contradiction.
    + rewrite IH. split.
      * intros (b & t & -> & Hid & Hb). exists (a :: b), t. repeat split; auto.
      * intros ([|b0 b] & t & H & Hid & Hb); simpl in H; injection H as -> ->.
        -- contradiction.
        -- exists b, t. repeat split; auto. now inversion Hb.
Qed.


Lemma first_with_id_unique (actual : list UserAverage) (u : string) (act : UserAverage) :
  NoDup (map id actual) -> In act actual -> id act = u -> first_with_id actual u act.
Proof.
  intros Hnd Hin Hid. apply in_split in Hin as (b & t & ->).
  exists b, t. repeat split; [assumption|].
  rewrite map_app in Hnd. simpl in Hnd. apply NoDup_remove_2 in Hnd.
  apply Forall_forall. intros a Ha Heq. apply Hnd, in_or_app. left.
  rewrite Hid, <- Heq. now apply in_map.
Qed.







(** C5: with an absent actual the scorer returns no match, zero correct,
    the length of [expected] as total and accuracy 0; with an empty
    [expected] and a present actual the accuracy is the unguarded quotient
    0/0, which is NaN. *)
Theorem compareResults_absent_or_empty :
  (forall expected,
      compareResults expected None
      = {| matched := false; correctCount := 0;
           totalCount := List.length expected; accuracy := 0 |})
  /\ (forall actual,
         let r := compareResults [] (Some actual) in
         correctCount r = 0%nat /\ totalCount r = 0%nat
         /\ (nat2float (correctCount r) / nat2float (totalCount r))%float = nan
         /\ accuracy r = nan
         /\ PrimFloat.is_nan (accuracy r) = true).
Proof.
  split; [reflexivity|]. intros actual. repeat split.
Qed.

(** ** Sandbox *)

(** C4: when the child closes with a nonzero exit code the sandbox returns
    no result and, as error, the captured stderr, or "Process exited with
    code N" when stderr is empty, whatever stdout holds; when it closes with
    code 0 the trimmed stdout is parsed, a parse failure gives no result and
    the error "Failed to parse output: " followed by the first 200
    characters of stdout, which is never an exit-code message, and a parsed
    value is returned normalized with no error.  Exit code 1 with "boom" on
    stderr gives [{result: null, error: "boom"}]. *)
Theorem executeGeneratedCode_spec
    (localeCompare : string -> string -> Z)
    (JSON_parse : string -> option (list UserAverage))
    (latency : Z) (stdout stderr : string) :
  let run code := executeGeneratedCode localeCompare JSON_parse latency
                    (Closed code stdout stderr) in
  (forall n, n <> 0 ->
     result (run (Some n)) = None
     /\ error (run (Some n)) =
        Some (if String.eqb stderr "" then
                "Process exited with code " ++ string_of_Z n
              else stderr)%string)
  /\ (JSON_parse (trim stdout) = None ->
      result (run (Some 0)) = None
      /\ error (run (Some 0)) =
         Some ("Failed to parse output: " ++ substring 0 200 stdout)%string
      /\ forall n, error (run (Some 0))
                   <> Some ("Process exited with code " ++ string_of_Z n)%string)
  /\ (forall parsed, JSON_parse (trim stdout) = Some parsed ->
      result (run (Some 0)) = Some (normalize localeCompare parsed)
      /\ error (run (Some 0)) = None)
  /\ (forall out,
        let r := executeGeneratedCode localeCompare JSON_parse latency
                   (Closed (Some 1) out "boom") in
        result r = None /\ error r = Some "boom"%string).
Proof.
  intros run. subst run. repeat split.
  - destruct n; [contradiction|reflexivity..].
  - destruct n; [contradiction|reflexivity..].
  - simpl. now rewrite H.
  - simpl. now rewrite H.
  - simpl. rewrite H. simpl. intros n [=].
  - simpl. now rewrite H.
  - simpl. now rewrite H.
Qed.

Lemma executeGeneratedCode_spec_witness :
  let r := executeGeneratedCode codeUnitCompare (fun _ => None) 12
             (Closed (Some 2) "[]" "") in
  result r = None /\ error r = Some "Process exited with code 2"%string.
Proof.
  refine (proj1 (executeGeneratedCode_spec codeUnitCompare (fun _ => None) 12 "[]" "") 2 _).
  lia.
Defined.

(** ** Seeded generator: determinism *)

(** C6: the seeded generator does not depend on the ambient state nor
    change it, so that two calls with the same count, wherever they are
    made, produce the same sequence of events. *)
Theorem generateEvents_deterministic (count : nat) :
  (forall w1 w2 : World,
      fst (CodegenTest.generateEvents count w1) = fst (CodegenTest.generateEvents count w2))
  /\ (forall w : World, snd (CodegenTest.generateEvents count w) = w)
  /\ (forall w : World,
         (first <- CodegenTest.generateEvents count ;;
          _ <- Math_random ;;
          second <- CodegenTest.generateEvents count ;;
          ret (first, second)) w
         = let l := CodegenTest.generate_loop count CodegenTest.seed in
           ((l, l), snd (Math_random w))).
Proof. repeat split. Qed.

(** ** Sorting test *)

Lemma arraysEqual_eq (a b : list Z) : SortTest.arraysEqual a b = true <-> a = b.
Proof.
  unfold SortTest.arraysEqual. split.
  - destruct (Nat.eqb_spec (List.length a) (List.length b)) as [Hlen|]; [|discriminate].
    simpl. rewrite forallb_forall. intros H.
    apply nth_error_ext. intros i.
    destruct (Nat.lt_ge_cases i (List.length a)) as [Hi|Hi].
    + specialize (H i). rewrite in_seq in H. specialize (H ltac:(lia)).
      destruct (nth_error a i), (nth_error b i); simpl in H; try discriminate.
      * apply Z.eqb_eq in H. now subst.
      * reflexivity.
    + rewrite (proj2 (nth_error_None a i)) by assumption.
      rewrite (proj2 (nth_error_None b i)) by lia. reflexivity.
  - intros <-. rewrite Nat.eqb_refl. simpl. apply forallb_forall.
    intros i _. destruct (nth_error a i); simpl; [apply Z.eqb_refl|reflexivity].
Qed.

Lemma expectedSorted_sorted (numbers : list Z) :
  Sorted Z.le (SortTest.expectedSorted numbers)
  /\ Permutation (SortTest.expectedSorted numbers) numbers.
Proof.
  unfold SortTest.expectedSorted, Array_sort. split; [|apply stable_sort_perm].
  eapply Sorted_ind with (P := Sorted Z.le);
    [constructor| |apply (stable_sort_sorted (fun x y => x - y <=? 0))].
  - intros a l _ Hl Hhd. constructor; [assumption|].
    destruct Hhd as [|b l' Hab]; constructor. apply Z.leb_le in Hab. lia.
  - intros x y H. apply Z.leb_gt in H. apply Z.leb_le. lia.
Qed.

(** C9: a sample passes if and only if the model returned an array and
    this array is, as a whole sequence, the input sorted in ascending
    numeric order: the same length and the same element at every position.
    An API error, a parse error or an absent result does not pass, and
    neither does an answer with some, but not all, elements in place. *)
Theorem runSingleTest_exact (numbers : list Z) (reply : SortTest.ModelReply) :
  (SortTest.runSingleTest numbers reply = true <->
   exists array, reply = SortTest.Parsed array
                 /\ array = SortTest.expectedSorted numbers)
  /\ (SortTest.runSingleTest numbers reply = true <->
      exists array, reply = SortTest.Parsed array
                    /\ Sorted Z.le array /\ Permutation array numbers)
  /\ (forall a b, SortTest.arraysEqual a b = true <->
                  List.length a = List.length b
                  /\ forall i, (i < List.length a)%nat -> nth_error a i = nth_error b i)
  /\ (forall message, SortTest.runSingleTest numbers (SortTest.ApiError message) = false)
  /\ SortTest.runSingleTest numbers SortTest.Unparsable = false
  /\ SortTest.runSingleTest [3; 1; 2; 4] (SortTest.Parsed [1; 3; 2; 4]) = false.
Proof.
  assert (H1 : SortTest.runSingleTest numbers reply = true <->
               exists array, reply = SortTest.Parsed array
                             /\ array = SortTest.expectedSorted numbers).
  { destruct reply as [m| |array]; unfold SortTest.runSingleTest;
      cbn [SortTest.askLLMToSort SortTest.sort_error SortTest.sorted]; [| |simpl].
    - rewrite orb_true_r. split; [discriminate|]. intros (a & [=] & _).
    - split; [discriminate|]. intros (a & [=] & _).
    - rewrite arraysEqual_eq. split.
      + intros <-. now exists (SortTest.expectedSorted numbers).
      + intros (a & [= ->] & ->). reflexivity. }
  split; [exact H1|]. split; [|split; [|repeat split]].
  3: { intros message. unfold SortTest.runSingleTest. cbn [SortTest.askLLMToSort SortTest.sort_error SortTest.sorted].
       now rewrite orb_true_r. }
  - rewrite H1. pose proof (expectedSorted_sorted numbers) as [Hs Hp].
    split; intros (array & -> & H); exists array; (split; [reflexivity|]).
    + subst. now split.
    + destruct H as [Hs' Hp']. apply sorted_perm_unique; [assumption..|].
      now rewrite Hp, Hp'.
  - intros a b. rewrite arraysEqual_eq. split.
    + intros <-. now split.
    + intros [Hlen H]. apply nth_error_ext. intros i.
      destruct (Nat.lt_ge_cases i (List.length a)) as [Hi|Hi]; [now apply H|].
      rewrite (proj2 (nth_error_None a i)) by assumption.
      rewrite (proj2 (nth_error_None b i)) by lia. reflexivity.
Qed.

(** ** Generators: any random Number of the unit interval

    [r * c] is rounded to nearest; for [r < 1] and a constant [c] that is
    not a power of two the rounded product stays below [c], so that its
    integer part is at most [c - 1]. *)

Lemma digits2_size (p : positive) : digits2_pos p = Pos.size p.
Proof. induction p; simpl; congruence. Qed.

Lemma digits2_bounds (p : positive) :
  2 ^ (Zpos (digits2_pos p) - 1) <= Zpos p < 2 ^ Zpos (digits2_pos p).
Proof.
  rewrite digits2_size. split.
  - pose proof (Pos.size_le p) as H.
    apply Pos2Z.pos_le_pos in H. rewrite Pos2Z.inj_pow in H.
    replace (Zpos (Pos.size p)) with (Zpos (Pos.size p) - 1 + 1) in H by lia.
    rewrite Z.pow_add_r in H by lia. change (Zpos p~0) with (2 * Zpos p) in H. lia.
  - pose proof (Pos.size_gt p) as H.
    apply Pos2Z.pos_lt_pos in H. now rewrite Pos2Z.inj_pow in H.
Qed.

Lemma digits2_le (p : positive) (k : Z) :
  Zpos p < 2 ^ k -> Zpos (digits2_pos p) <= k.
Proof.
  intros H. destruct (Z_lt_le_dec k 0) as [Hk|Hk].
  - rewrite Z.pow_neg_r in H by assumption. lia.
  - pose proof (digits2_bounds p) as [Hlo _].
    assert (Zpos (digits2_pos p) - 1 < k) by (apply (Z.pow_lt_mono_r_iff 2); lia).
    lia.
Qed.

Lemma digits2_gt (p : positive) (k : Z) :
  2 ^ k <= Zpos p -> k < Zpos (digits2_pos p).
Proof.
  intros H. pose proof (digits2_bounds p) as [_ Hhi].
  apply (Z.pow_lt_mono_r_iff 2); lia.
Qed.

Lemma shr_1_m (mrs : shr_record) :
  0 <= shr_m mrs -> shr_m (shr_1 mrs) = shr_m mrs / 2.
Proof.
  destruct mrs as [m r s]. simpl. intros Hm.
  destruct m as [|[p|p|]|p]; simpl shr_m; try lia; try reflexivity.
  - apply (Z.div_unique _ 2 _ 1); lia.
  - apply (Z.div_unique _ 2 _ 0); lia.
Qed.

Lemma pow2_xO (p : positive) : 2 ^ Zpos p~0 = 2 ^ Zpos p * 2 ^ Zpos p.
Proof. rewrite Pos2Z.inj_xO, <- Z.pow_add_r by lia. f_equal. lia. Qed.

Lemma pow2_xI (p : positive) : 2 ^ Zpos p~1 = 2 * (2 ^ Zpos p * 2 ^ Zpos p).
Proof.
  rewrite Pos2Z.inj_xI, <- Z.pow_add_r by lia.
  replace (2 * Zpos p + 1) with (Z.succ (Zpos p + Zpos p)) by lia.
  now rewrite Z.pow_succ_r by lia.
Qed.

Lemma iter_shr_1_m (p : positive) (mrs : shr_record) :
  0 <= shr_m mrs ->
  shr_m (iter_pos shr_1 p mrs) = shr_m mrs / 2 ^ Zpos p.
Proof.
  revert mrs. induction p as [p IH|p IH|]; intros mrs Hm; simpl iter_pos.
  - assert (H1 : 0 <= shr_m (shr_1 mrs))
      by (rewrite shr_1_m by assumption; apply Z.div_pos; lia).
    assert (H2 : 0 <= shr_m (iter_pos shr_1 p (shr_1 mrs)))
      by (rewrite IH by assumption; apply Z.div_pos; lia).
    rewrite IH, IH, shr_1_m by assumption.
    rewrite !Z.div_div by lia. now rewrite pow2_xI, Z.mul_assoc.
  - assert (H2 : 0 <= shr_m (iter_pos shr_1 p mrs))
      by (rewrite IH by assumption; apply Z.div_pos; lia).
    rewrite IH, IH by assumption.
    rewrite !Z.div_div by lia. now rewrite pow2_xO.
  - now rewrite shr_1_m.
Qed.

Lemma shr_fexp_exact (M E : Z) :
  0 <= M ->
  let n := Z.max (fexp prec emax (Zdigits2 M + E) - E) 0 in
  snd (shr_fexp prec emax M E loc_Exact) = E + n
  /\ shr_m (fst (shr_fexp prec emax M E loc_Exact)) = M / 2 ^ n.
Proof.
  intros HM n. subst n. unfold shr_fexp, shr. simpl shr_record_of_loc.
  destruct (fexp prec emax (Zdigits2 M + E) - E) as [|p|p]; simpl fst; simpl snd.
  - simpl. rewrite Z.div_1_r. lia.
  - rewrite iter_shr_1_m by assumption. simpl shr_m.
    rewrite Z.max_l by lia. split; reflexivity.
  - rewrite Z.max_r by lia. simpl. rewrite Z.div_1_r. lia.
Qed.

Lemma round_nearest_even_bounds (mrs : shr_record) :
  shr_m mrs <= round_nearest_even (shr_m mrs) (loc_of_shr_record mrs) <= shr_m mrs + 1.
Proof.
  destruct mrs as [m [|] [|]]; simpl; try lia.
  destruct (Z.even m); lia.
Qed.

Lemma Zdigits2_le (x k : Z) : 0 <= x < 2 ^ k -> 0 <= k -> Zdigits2 x <= k.
Proof.
  intros [H0 H] Hk. destruct x as [|p|p]; simpl; [assumption| |lia].
  now apply digits2_le.
Qed.

Lemma round_mul_below (m mN : positive) (e eN N : Z) :
  bounded prec emax m e = true ->
  e <= -53 ->
  (e <= -54 \/ Zpos m <= 2 ^ 53 - 2) ->
  2 ^ 52 < Zpos mN < 2 ^ 53 ->
  -52 <= eN <= -2 ->
  Zpos mN = N * 2 ^ (- eN) ->
  2 ^ (52 + eN) <= N - 1 ->
  match binary_round_aux prec emax false (Zpos (m * mN)) (e + eN) loc_Exact with
  | S754_zero false => True
  | S754_finite false m2 e2 => e2 < 0 /\ Z.shiftr (Zpos m2) (- e2) <= N - 1
  | _ => False
  end.
Proof.
  intros Hb He Hm HmN HeN HN Hpow.
  unfold bounded, canonical_mantissa in Hb.
  apply andb_prop in Hb as [Hcan _]. apply Z.eqb_eq in Hcan.
  change (fexp prec emax) with (fun z => Z.max (z - 53) (-1074)) in Hcan.
  cbv beta in Hcan.
  pose proof (digits2_bounds m) as Hdm.
  set (dm := Zpos (digits2_pos m)) in *.
  assert (Hdm53 : dm <= 53) by lia.
  assert (HM : Zpos (m * mN) = Zpos m * Zpos mN) by apply Pos2Z.inj_mul.
  assert (HdMhi : Zpos (digits2_pos (m * mN)) <= dm + 53).
  { apply digits2_le. rewrite HM, Z.pow_add_r by lia.
    apply Z.mul_lt_mono_nonneg; lia. }
  assert (HdMlo : 52 < Zpos (digits2_pos (m * mN))).
  { apply digits2_gt. rewrite HM. nia. }
  unfold binary_round_aux.
  pose proof (shr_fexp_exact (Zpos (m * mN)) (e + eN) ltac:(lia)) as [He1 Hm1].
  destruct (shr_fexp prec emax (Zpos (m * mN)) (e + eN) loc_Exact) as [mrs1 e1].
  simpl fst in *. simpl snd in *. simpl Zdigits2 in *.
  change (fexp prec emax) with (fun z => Z.max (z - 53) (-1074)) in He1, Hm1.
  cbv beta in He1, Hm1.
  set (dM := Zpos (digits2_pos (m * mN))) in *.
  set (n1 := Z.max (Z.max (dM + (e + eN) - 53) (-1074) - (e + eN)) 0) in *.
  assert (Hn1 : dM - 53 <= n1) by lia.
  assert (He1N : -1074 <= e1 <= eN) by lia.
  assert (Hm1lt : 0 <= shr_m mrs1 < 2 ^ 53).
  { rewrite Hm1. split; [apply Z.div_pos; lia|].
    apply Z.div_lt_upper_bound; [lia|].
    rewrite <- Z.pow_add_r by lia.
    pose proof (digits2_bounds (m * mN)) as [_ Hhi]. fold dM in Hhi.
    eapply Z.lt_le_trans; [exact Hhi|]. apply Z.pow_le_mono_r; lia. }
  pose proof (round_nearest_even_bounds mrs1) as Hr.
  set (mr := round_nearest_even (shr_m mrs1) (loc_of_shr_record mrs1)) in *.
  pose proof (shr_fexp_exact mr e1 ltac:(lia)) as [He2 Hm2].
  destruct (shr_fexp prec emax mr e1 loc_Exact) as [mrs2 e2].
  simpl fst in *. simpl snd in *.
  change (fexp prec emax) with (fun z => Z.max (z - 53) (-1074)) in He2, Hm2.
  cbv beta in He2, Hm2.
  assert (Hdr : Zdigits2 mr <= 54).
  { apply Zdigits2_le; [|lia]. change (2 ^ 54) with (2 * 2 ^ 53). lia. }
  set (n2 := Z.max (Z.max (Zdigits2 mr + e1 - 53) (-1074) - e1) 0) in *.
  assert (Hn2 : 0 <= n2 <= 1) by lia.
  assert (He2N : e2 <= eN + 1) by lia.
  assert (Hm2pos : 0 <= shr_m mrs2) by (rewrite Hm2; apply Z.div_pos; lia).
  assert (Hq : shr_m mrs2 / 2 ^ (- e2) = mr / 2 ^ (- e1)).
  { rewrite Hm2, Z.div_div, <- Z.pow_add_r by lia. f_equal. f_equal. lia. }
  assert (Hbound : mr / 2 ^ (- e1) <= N - 1).
  { destruct (Z_le_gt_dec e1 (eN - 1)) as [Hlow|Hhigh].
    - eapply Z.le_trans; [apply Z.div_le_mono; [lia|]|].
      + instantiate (1 := 2 ^ 53). lia.
      + eapply Z.le_trans; [apply (Z.div_le_compat_l _ (2 ^ (1 - eN))); [lia|]|].
        * split; [lia|]. apply Z.pow_le_mono_r; lia.
        * rewrite <- Z.pow_sub_r by lia.
          replace (53 - (1 - eN)) with (52 + eN) by lia. exact Hpow.
    - assert (He1eq : e1 = eN) by lia.
      assert (Hee : e = -53) by lia.
      assert (Hn1eq : n1 = 53) by lia.
      rewrite He1eq.
      destruct Hm as [Hm|Hm]; [lia|].
      rewrite Hn1eq in Hm1.
      change (2 ^ 53) with 9007199254740992 in *.
      change (2 ^ 52) with 4503599627370496 in *.
      assert (Hm1' : shr_m mrs1 < Zpos mN - 1).
      { rewrite Hm1. apply Z.div_lt_upper_bound; [lia|]. rewrite HM. nia. }
      assert (Hlt : mr / 2 ^ (- eN) < N).
      { apply Z.div_lt_upper_bound; [lia|]. rewrite Z.mul_comm, <- HN. lia. }
      clear - Hlt. lia. }
  destruct (shr_m mrs2) as [|m2|m2] eqn:Em2; [exact I| |lia].
  replace (e2 <=? emax - prec) with true
    by (symmetry; apply Z.leb_le; change (emax - prec) with 971; lia).
  split; [lia|].
  rewrite Z.shiftr_div_pow2 by lia. rewrite Hq. exact Hbound.
Qed.


Lemma unit_interval_cases (r : float) :
  (0 <=? r)%float = true -> (r <? 1)%float = true ->
  (exists s, Prim2SF r = S754_zero s)
  \/ (exists m e, Prim2SF r = S754_finite false m e
                  /\ bounded prec emax m e = true /\ e <= -53).
Proof.
  rewrite leb_spec, ltb_spec.
  change (Prim2SF 0) with (S754_zero false).
  change (Prim2SF 1) with (S754_finite false 4503599627370496 (-52)).
  pose proof (Prim2SF_valid r) as Hv.
  destruct (Prim2SF r) as [s|s| |s m e]; simpl in Hv.
  - intros _ _. left. now exists s.
  - destruct s; discriminate.
  - discriminate.
  - destruct s; [discriminate|]. intros _ Hlt. right. exists m, e.
    split; [reflexivity|]. split; [assumption|].
    unfold SFltb, SFcompare in Hlt.
    destruct (Z.compare_spec e (-52)) as [->|Hlt'|Hgt]; [|lia|discriminate].
    exfalso. unfold bounded, canonical_mantissa in Hv.
    apply andb_prop in Hv as [Hcan _]. apply Z.eqb_eq in Hcan.
    change (fexp prec emax) with (fun z => Z.max (z - 53) (-1074)) in Hcan.
    cbv beta in Hcan.
    pose proof (digits2_bounds m) as [Hlo _].
    replace (Zpos (digits2_pos m)) with 53 in Hlo by lia.
    rewrite Pos.compare_cont_spec in Hlt. simpl in Hlt.
    destruct (Pos.compare_spec m 4503599627370496) as [->|Hm|Hm]; try discriminate.
    change (2 ^ (53 - 1)) with 4503599627370496 in Hlo.
    apply Pos2Z.pos_lt_pos in Hm.
    clear - Hm Hlo. exact (Z.lt_irrefl _ (Z.lt_le_trans _ _ _ Hm Hlo)).
Qed.

(** A zero, of either sign. *)
Lemma zero_cases (x : float) (s : bool) :
  Prim2SF x = S754_zero s -> x = PrimFloat.zero \/ x = PrimFloat.neg_zero.
Proof.
  intros H. rewrite <- (SF2Prim_Prim2SF x), H. destruct s; [now right|now left].
Qed.

Lemma Math_floor_mul_below (r c : float) (mN : positive) (eN N : Z) :
  Prim2SF c = S754_finite false mN eN ->
  2 ^ 52 < Zpos mN < 2 ^ 53 ->
  -52 <= eN <= -2 ->
  Zpos mN = N * 2 ^ (- eN) ->
  2 ^ (52 + eN) <= N - 1 ->
  (0 <=? r)%float = true -> (r <? 1)%float = true ->
  r <> 0x1.fffffffffffffp-1%float ->
  Math_floor (r * c) = PrimFloat.neg_zero
  \/ exists q, 0 <= q <= N - 1 /\ Math_floor (r * c) = Z2float q.
Proof.
  intros Hc HmN HeN HN Hpow H0 H1 Hne.
  assert (Hzero : forall s, Prim2SF (r * c) = S754_zero s ->
            Math_floor (r * c) = PrimFloat.neg_zero
            \/ exists q, 0 <= q <= N - 1 /\ Math_floor (r * c) = Z2float q).
  { intros s Hs. unfold Math_floor. rewrite Hs.
    destruct (zero_cases _ _ Hs) as [->| ->]; [right|now left].
    exists 0. split; [|reflexivity].
    assert (0 < 2 ^ (52 + eN)) by (apply Z.pow_pos_nonneg; lia). lia. }
  pose proof (mul_spec r c) as Hmul. unfold SF64mul, SFmul in Hmul. rewrite Hc in Hmul.
  destruct (unit_interval_cases r H0 H1) as [(s & Hr)|(m & e & Hr & Hb & He)];
    rewrite Hr in Hmul.
  - now apply (Hzero (xorb s false)).
  - simpl xorb in Hmul.
    assert (Hm : e <= -54 \/ Zpos m <= 2 ^ 53 - 2).
    { destruct (Z_le_gt_dec e (-54)) as [|He']; [now left|right].
      assert (e = -53) by lia. subst e.
      destruct (Z_le_gt_dec (Zpos m) (2 ^ 53 - 2)) as [|Hm]; [assumption|exfalso].
      unfold bounded, canonical_mantissa in Hb.
      apply andb_prop in Hb as [Hcan _]. apply Z.eqb_eq in Hcan.
      change (fexp prec emax) with (fun z => Z.max (z - 53) (-1074)) in Hcan.
      cbv beta in Hcan.
      pose proof (digits2_bounds m) as [_ Hhi].
      replace (Zpos (digits2_pos m)) with 53 in Hhi by lia.
      change (2 ^ 53) with 9007199254740992 in *.
      assert (Hmz : Zpos m = 9007199254740991) by lia. injection Hmz as ->.
      apply Hne. rewrite <- (SF2Prim_Prim2SF r), Hr. reflexivity. }
    pose proof (round_mul_below m mN e eN N Hb He Hm HmN HeN HN Hpow) as Hround.
    rewrite <- Hmul in Hround.
    destruct (Prim2SF (r * c)) as [s|s| |s m2 e2] eqn:Hp.
    + now apply (Hzero s).
    + contradiction.
    + contradiction.
    + destruct s; [contradiction|]. destruct Hround as [He2 Hq].
      right. unfold Math_floor. rewrite Hp.
      replace (0 <=? e2) with false by (symmetry; apply Z.leb_gt; lia).
      simpl signed.
      assert (0 <= Z.shiftr (Zpos m2) (- e2)) by (apply Z.shiftr_nonneg; lia).
      destruct (Z.eqb_spec (Z.shiftr (Zpos m2) (- e2)) 0) as [Hq0|Hq0].
      * exists 0. split; [lia|reflexivity].
      * exists (Z.shiftr (Zpos m2) (- e2)). split; [lia|reflexivity].
Qed.

Lemma users_in_range_sound (n : nat) (q : Z) :
  users_in_range n = true -> 0 <= q < Z.of_nat n ->
  1 <= user_of_floor (Z2float q) <= NUM_USERS.
Proof.
  unfold users_in_range. rewrite forallb_forall. intros H Hq.
  specialize (H (Z.to_nat q)). rewrite Z2Nat.id in H by lia.
  rewrite <- Z.leb_le, <- Z.leb_le, <- andb_true_iff. apply H, in_seq. lia.
Qed.

Lemma durations_in_range_sound (n : nat) (q : Z) :
  durations_in_range n = true -> 0 <= q < Z.of_nat n ->
  MIN_DURATION <= duration_of_floor (Z2float q) <= MAX_DURATION.
Proof.
  unfold durations_in_range. rewrite forallb_forall. intros H Hq.
  specialize (H (Z.to_nat q)). rewrite Z2Nat.id in H by lia.
  rewrite <- Z.leb_le, <- Z.leb_le, <- andb_true_iff. apply H, in_seq. lia.
Qed.

Lemma users_in_range_check : users_in_range 50 = true.
Proof. vm_compute. reflexivity. Qed.

Lemma durations_in_range_check : durations_in_range 191 = true.
Proof. vm_compute. reflexivity. Qed.

(** Every Number of [0, 1) gives a user number and a duration in range. *)
Lemma unit_draw_ok (r : float) :
  (0 <=? r)%float = true -> (r <? 1)%float = true -> draw_ok r = true.
Proof.
  intros H0 H1.
  destruct (PrimFloat.Leibniz.eqb r 0x1.fffffffffffffp-1%float) eqn:Hlast.
  { apply FloatAxioms.Leibniz.eqb_spec in Hlast. subst r. vm_compute. reflexivity. }
  assert (Hne : r <> 0x1.fffffffffffffp-1%float).
  { intros ->. vm_compute in Hlast. discriminate. }
  assert (Hu : 1 <= user_number r <= NUM_USERS).
  { change (user_number r) with (user_of_floor (Math_floor (r * 50))).
    destruct (Math_floor_mul_below r 50 7036874417766400 (-47) 50)
      as [->|(q & Hq & ->)];
      [reflexivity|split; reflexivity|lia|reflexivity|discriminate
      |assumption|assumption|assumption| |].
    - vm_compute. split; discriminate.
    - apply (users_in_range_sound 50 q users_in_range_check).
      change (Z.of_nat 50) with 50. lia. }
  assert (Hd : MIN_DURATION <= duration_number r <= MAX_DURATION).
  { change (duration_number r) with (duration_of_floor (Math_floor (r * 191))).
    destruct (Math_floor_mul_below r 191 6720215068966912 (-45) 191)
      as [->|(q & Hq & ->)];
      [reflexivity|split; reflexivity|lia|reflexivity|discriminate
      |assumption|assumption|assumption| |].
    - vm_compute. split; discriminate.
    - apply (durations_in_range_sound 191 q durations_in_range_check).
      change (Z.of_nat 191) with 191. lia. }
  unfold draw_ok. rewrite H0, H1. simpl.
  rewrite !andb_true_iff, !Z.leb_le. tauto.
Qed.

(** ** Generators: the seeded one *)

Lemma random_state (c : Z) :
  CodegenTest.random c = ((Z2float (next_state c) / 2147483647)%float, next_state c).
Proof. reflexivity. Qed.

Lemma walk_sound (fuel : nat) (c c' : Z) :
  walk fuel c = Some c' ->
  c' = Nat.iter fuel next_state c
  /\ forall k, (k < fuel)%nat ->
               in_unit (fst (CodegenTest.random (Nat.iter k next_state c))) = true.
Proof.
  revert c. induction fuel as [|f IH]; intros c H.
  - injection H as <-. split; [reflexivity|lia].
  - cbn [walk] in H. rewrite random_state in H.
    destruct (in_unit _) eqn:Hok; [|discriminate].
    apply IH in H as [-> Hall]. split.
    + now rewrite Nat.iter_succ_r.
    + intros [|k] Hk; [exact Hok|].
      rewrite Nat.iter_succ_r. apply Hall. lia.
Qed.

Lemma walk_tail : walk tail_length CodegenTest.seed = Some cycle_entry.
Proof. vm_compute. reflexivity. Qed.

Lemma walk_cycle : walk cycle_length cycle_entry = Some cycle_entry.
Proof. vm_compute. reflexivity. Qed.

Lemma iter_add {A} (f : A -> A) (n m : nat) (x : A) :
  Nat.iter (n + m) f x = Nat.iter n f (Nat.iter m f x).
Proof. induction n as [|n IH]; simpl; [reflexivity|now rewrite IH]. Qed.

Lemma cycle_draws_in_unit (k : nat) :
  in_unit (fst (CodegenTest.random (Nat.iter k next_state cycle_entry))) = true.
Proof.
  destruct (walk_sound _ _ _ walk_cycle) as [Hback Hall].
  induction k as [k IH] using lt_wf_ind.
  destruct (Nat.lt_ge_cases k cycle_length) as [Hk|Hk]; [now apply Hall|].
  replace k with ((k - cycle_length) + cycle_length)%nat by lia.
  rewrite iter_add, <- Hback. apply IH.
  assert (0 < cycle_length)%nat by (unfold cycle_length; lia). lia.
Qed.

(** Every Number the seeded generator draws, at any call, is in [0, 1). *)
Lemma seeded_draws_in_unit (k : nat) :
  in_unit (fst (CodegenTest.random (Nat.iter k next_state CodegenTest.seed))) = true.
Proof.
  destruct (walk_sound _ _ _ walk_tail) as [Hentry Hall].
  destruct (Nat.lt_ge_cases k tail_length) as [Hk|Hk]; [now apply Hall|].
  replace k with ((k - tail_length) + tail_length)%nat by lia.
  rewrite iter_add, <- Hentry. apply cycle_draws_in_unit.
Qed.

Lemma seeded_draws_ok (k : nat) :
  draw_ok (fst (CodegenTest.random (Nat.iter k next_state CodegenTest.seed))) = true.
Proof.
  pose proof (seeded_draws_in_unit k) as H. unfold in_unit in H.
  apply andb_prop in H as [H0 H1]. now apply unit_draw_ok.
Qed.

Lemma draw_ok_fields (r : float) :
  draw_ok r = true ->
  (0 <=? r)%float = true /\ (r <? 1)%float = true
  /\ 1 <= user_number r <= NUM_USERS
  /\ MIN_DURATION <= duration_number r <= MAX_DURATION.
Proof.
  unfold draw_ok. rewrite !andb_true_iff, !Z.leb_le. tauto.
Qed.

Lemma make_event_valid (r1 r2 : float) :
  draw_ok r1 = true -> draw_ok r2 = true -> valid_event (make_event r1 r2).
Proof.
  intros H1 H2. apply draw_ok_fields in H1, H2. split; simpl.
  - exists (user_number r1). split; [tauto|reflexivity].
  - tauto.
Qed.

Lemma generate_loop_valid (count k : nat) :
  Forall valid_event
    (CodegenTest.generate_loop count (Nat.iter k next_state CodegenTest.seed)).
Proof.
  revert k. induction count as [|n IH]; intros k; cbn [CodegenTest.generate_loop].
  - constructor.
  - rewrite !random_state. constructor.
    + apply make_event_valid.
      * apply (seeded_draws_ok k).
      * apply (seeded_draws_ok (S k)).
    + apply (IH (S (S k))).
Qed.

Lemma generateEvent_valid (w : World) :
  random_in_unit w -> valid_event (fst (GenerateData.generateEvent w)).
Proof.
  intros Hw. unfold GenerateData.generateEvent, bind, ret, Math_random. simpl.
  apply make_event_valid; apply unit_draw_ok; apply Hw.
Qed.

Lemma context_generateEvents_valid (count : nat) (w : World) :
  random_in_unit w -> Forall valid_event (fst (ContextTest.generateEvents count w)).
Proof.
  revert w. induction count as [|n IH]; intros w Hw; [constructor|].
  cbn [ContextTest.generateEvents]. unfold bind at 1 2 3, Math_random, ret.
  set (w2 := {| draws := draws _; drawn := S (drawn {| draws := draws w; drawn := S (drawn w) |}) |}).
  specialize (IH w2 (fun i => Hw i)).
  destruct (ContextTest.generateEvents n w2) as [rest w3]. simpl in *.
  constructor; [|exact IH].
  apply make_event_valid; apply unit_draw_ok; apply Hw.
Qed.

(** C7: every event of the seeded generator, for every count, and every
    event of the unseeded generators, as long as [Math.random] returns
    Numbers of [0, 1), has its user in [user1 .. user50] and its duration
    in [10, 200].  Every Number the seeded generator draws from the seed
    12345 is below 1; the bound is needed, since the Number 1 would give
    user 51 and duration 201. *)
Theorem generators_in_range :
  (forall count w, Forall valid_event (fst (CodegenTest.generateEvents count w)))
  /\ (forall k,
        let r := fst (CodegenTest.random (Nat.iter k next_state CodegenTest.seed)) in
        (0 <=? r)%float = true /\ (r <? 1)%float = true)
  /\ (forall w, random_in_unit w -> valid_event (fst (GenerateData.generateEvent w)))
  /\ (forall count w, random_in_unit w ->
                      Forall valid_event (fst (ContextTest.generateEvents count w)))
  /\ (forall r, (0 <=? r)%float = true -> (r <? 1)%float = true ->
                1 <= user_number r <= NUM_USERS
                /\ MIN_DURATION <= duration_number r <= MAX_DURATION)
  /\ user_number 1 = 51 /\ duration_number 1 = 201.
Proof.
  split; [|split; [|split; [|split; [|split]]]].
  - intros count w. apply (generate_loop_valid count 0).
  - intros k. cbv zeta. pose proof (draw_ok_fields _ (seeded_draws_ok k)). tauto.
  - exact generateEvent_valid.
  - exact context_generateEvents_valid.
  - intros r H0 H1. pose proof (draw_ok_fields _ (unit_draw_ok r H0 H1)). tauto.
  - split; reflexivity.
Qed.

Lemma generators_in_range_witness :
  valid_event (fst (GenerateData.generateEvent steady_world)).
Proof.
  refine (proj1 (proj2 (proj2 generators_in_range)) steady_world _).
  intros i. split; reflexivity.
Defined.

(** ** Idempotence of the normalize step

    [round2] undoes the division by 100 as long as the error of the
    division and of the multiplication, half a unit in the last place each,
    stays below half a hundredth. *)

(** ** Rounding to nearest in the normal range *)

Lemma shr_1_located (N D : Z) (mrs : shr_record) :
  0 < D -> 0 <= shr_m mrs -> located N D mrs -> located N (2 * D) (shr_1 mrs).
Proof.
  destruct mrs as [m r s]. unfold located. cbn [shr_m shr_r shr_s].
  intros HD Hm.
  destruct m as [|[p|p|]|p].
  - destruct r, s; cbn [shr_1 orb shr_m shr_r shr_s];
      rewrite ?Z.mul_0_r, ?Z.add_0_l, ?Z.mul_1_r, ?Z.sub_0_r; lia.
  - assert (E1 : D * Zpos p~1 = 2 * (D * Zpos p) + D) by (rewrite Pos2Z.inj_xI; ring).
    assert (E2 : D * (Zpos p~1 + 1) = 2 * (D * Zpos p) + 2 * D)
      by (rewrite Pos2Z.inj_xI; ring).
    assert (E3 : 2 * D * Zpos p = 2 * (D * Zpos p)) by ring.
    assert (E4 : 2 * D * (Zpos p + 1) = 2 * (D * Zpos p) + 2 * D) by ring.
    destruct r, s; cbn [shr_1 orb shr_m shr_r shr_s];
      rewrite ?E1, ?E2, ?E3, ?E4; generalize (D * Zpos p); intros a; lia.
  - assert (E1 : D * Zpos p~0 = 2 * (D * Zpos p)) by (rewrite Pos2Z.inj_xO; ring).
    assert (E2 : D * (Zpos p~0 + 1) = 2 * (D * Zpos p) + D)
      by (rewrite Pos2Z.inj_xO; ring).
    assert (E3 : 2 * D * Zpos p = 2 * (D * Zpos p)) by ring.
    assert (E4 : 2 * D * (Zpos p + 1) = 2 * (D * Zpos p) + 2 * D) by ring.
    destruct r, s; cbn [shr_1 orb shr_m shr_r shr_s];
      rewrite ?E1, ?E2, ?E3, ?E4; generalize (D * Zpos p); intros a; lia.
  - destruct r, s; cbn [shr_1 orb shr_m shr_r shr_s];
      rewrite ?Z.mul_0_r, ?Z.add_0_l, ?Z.mul_1_r, ?Z.sub_0_r; lia.
  - lia.
Qed.

Lemma shr_1_nonneg (mrs : shr_record) : 0 <= shr_m mrs -> 0 <= shr_m (shr_1 mrs).
Proof. intros H. rewrite shr_1_m by assumption. apply Z.div_pos; lia. Qed.

Lemma iter_shr_1_nonneg (p : positive) (mrs : shr_record) :
  0 <= shr_m mrs -> 0 <= shr_m (iter_pos shr_1 p mrs).
Proof. intros H. rewrite iter_shr_1_m by assumption. apply Z.div_pos; lia. Qed.

Lemma iter_shr_1_located (p : positive) (N D : Z) (mrs : shr_record) :
  0 < D -> 0 <= shr_m mrs -> located N D mrs ->
  located N (D * 2 ^ Zpos p) (iter_pos shr_1 p mrs).
Proof.
  revert D mrs. induction p as [p IH|p IH|]; intros D mrs HD Hm Hl; simpl iter_pos.
  - rewrite pow2_xI.
    replace (D * (2 * (2 ^ Zpos p * 2 ^ Zpos p)))
      with (2 * D * 2 ^ Zpos p * 2 ^ Zpos p) by ring.
    assert (Hp : 0 < 2 ^ Zpos p) by (apply Z.pow_pos_nonneg; lia).
    apply IH; [nia| |].
    + apply iter_shr_1_nonneg. now apply shr_1_nonneg.
    + apply IH; [lia|now apply shr_1_nonneg|now apply shr_1_located].
  - rewrite pow2_xO. rewrite Z.mul_assoc.
    assert (Hp : 0 < 2 ^ Zpos p) by (apply Z.pow_pos_nonneg; lia).
    apply IH; [nia|now apply iter_shr_1_nonneg|]. now apply IH.
  - change (2 ^ 1) with 2. rewrite Z.mul_comm. now apply shr_1_located.
Qed.

Lemma shr_record_of_loc_m (m : Z) (l : location) : shr_m (shr_record_of_loc m l) = m.
Proof. destruct l as [|[| |]]; reflexivity. Qed.

Lemma round_nearest_even_located (N D : Z) (mrs : shr_record) :
  0 < D -> located N D mrs ->
  let mr := round_nearest_even (shr_m mrs) (loc_of_shr_record mrs) in
  2 * D * mr - D <= 2 * N <= 2 * D * mr + D.
Proof.
  destruct mrs as [m r s]. unfold located. cbn [shr_m shr_r shr_s].
  intros HD H.
  assert (E1 : 2 * D * (m + 1) = 2 * (D * m) + 2 * D) by ring.
  assert (E2 : D * (m + 1) = D * m + D) by ring.
  assert (E3 : 2 * D * m = 2 * (D * m)) by ring.
  destruct r, s; cbn [loc_of_shr_record round_nearest_even];
    try destruct (Z.even m); rewrite ?E1, ?E2, ?E3 in *;
    revert H; generalize (D * m); intros a H; lia.
Qed.

Lemma Zdigits2_bounds (x : Z) :
  0 < x -> 2 ^ (Zdigits2 x - 1) <= x < 2 ^ Zdigits2 x.
Proof. destruct x as [|p|p]; try lia. intros _. apply digits2_bounds. Qed.

Lemma Zdigits2_eq (x d : Z) : 2 ^ (d - 1) <= x < 2 ^ d -> 0 < d -> Zdigits2 x = d.
Proof.
  intros [Hlo Hhi] Hd.
  assert (Hx : 0 < x) by (pose proof (Z.pow_pos_nonneg 2 (d - 1)); lia).
  destruct x as [|p|p]; try lia. simpl.
  pose proof (digits2_le p d Hhi). pose proof (digits2_gt p (d - 1) Hlo). lia.
Qed.

(** The first shift of [binary_round_aux] for a mantissa of at least 53
    digits: it leaves 53 digits and keeps track of [N / D]. *)
Lemma shr_fexp_located (mz ez : Z) (lz : location) (N D : Z) :
  0 < D -> 2 ^ 52 <= mz -> -1074 <= ez ->
  located N D (shr_record_of_loc mz lz) ->
  let n := Zdigits2 mz - 53 in
  let r := shr_fexp prec emax mz ez lz in
  snd r = ez + n /\ 0 <= n
  /\ 2 ^ 52 <= shr_m (fst r) < 2 ^ 53
  /\ located N (D * 2 ^ n) (fst r).
Proof.
  intros HD Hmz Hez Hl n r. subst n r.
  assert (Hpos : 0 < mz) by (change (2 ^ 52) with 4503599627370496 in Hmz; lia).
  pose proof (Zdigits2_bounds mz Hpos) as [Hlo Hhi].
  assert (Hd : 53 <= Zdigits2 mz).
  { destruct (Z_lt_le_dec (Zdigits2 mz) 53) as [Hlt|]; [exfalso|assumption].
    assert (2 ^ Zdigits2 mz <= 2 ^ 52) by (apply Z.pow_le_mono_r; lia). lia. }
  unfold shr_fexp.
  change (fexp prec emax) with (fun z => Z.max (z - 53) (-1074)). cbv beta.
  replace (Z.max (Zdigits2 mz + ez - 53) (-1074) - ez) with (Zdigits2 mz - 53) by lia.
  unfold shr.
  destruct (Zdigits2 mz - 53) as [|p|p] eqn:En; [| |lia].
  - simpl fst. simpl snd. rewrite shr_record_of_loc_m.
    replace (Zdigits2 mz) with 53 in * by lia.
    change (2 ^ 0) with 1. rewrite Z.mul_1_r.
    repeat split; try lia; assumption.
  - simpl fst. simpl snd.
    assert (Hm0 : 0 <= shr_m (shr_record_of_loc mz lz))
      by (rewrite shr_record_of_loc_m; lia).
    rewrite iter_shr_1_m, shr_record_of_loc_m by assumption.
    assert (Hp : 0 < 2 ^ Zpos p) by (apply Z.pow_pos_nonneg; lia).
    replace (Zdigits2 mz) with (53 + Zpos p) in Hlo, Hhi by lia.
    replace (53 + Zpos p - 1) with (52 + Zpos p) in Hlo by lia.
    rewrite Z.pow_add_r in Hlo, Hhi by lia.
    repeat split; try lia.
    + apply Z.div_le_lower_bound; lia.
    + apply Z.div_lt_upper_bound; lia.
    + now apply iter_shr_1_located.
Qed.

(** [binary_round_aux] on a mantissa of at least 53 digits, away from the
    subnormal numbers and from overflow: the result is a normal number
    within half a unit in the last place of [N / D]. *)
Lemma binary_round_aux_normal (s : bool) (mz ez : Z) (lz : location) (N D : Z) :
  0 < D -> 2 ^ 52 <= mz -> -1074 <= ez -> ez + Zdigits2 mz <= 1023 ->
  located N D (shr_record_of_loc mz lz) ->
  exists m n,
    binary_round_aux prec emax s mz ez lz = S754_finite s m (ez + n)
    /\ 2 ^ 52 <= Zpos m < 2 ^ 53
    /\ Zdigits2 mz - 53 <= n <= Zdigits2 mz - 52
    /\ 2 * D * 2 ^ n * Zpos m - D * 2 ^ n <= 2 * N <= 2 * D * 2 ^ n * Zpos m + D * 2 ^ n.
Proof.
  intros HD Hmz Hez Hov Hl.
  destruct (shr_fexp_located mz ez lz N D HD Hmz Hez Hl) as (He1 & Hn & Hm1 & Hl1).
  unfold binary_round_aux.
  destruct (shr_fexp prec emax mz ez lz) as [mrs1 e1]. simpl fst in *. simpl snd in *.
  set (n1 := Zdigits2 mz - 53) in *.
  assert (Hp1 : 0 < 2 ^ n1) by (apply Z.pow_pos_nonneg; lia).
  assert (HD1 : 0 < D * 2 ^ n1) by nia.
  pose proof (round_nearest_even_located N (D * 2 ^ n1) mrs1 HD1 Hl1) as Hr.
  pose proof (round_nearest_even_bounds mrs1) as Hb.
  cbv zeta in Hr.
  set (mr := round_nearest_even (shr_m mrs1) (loc_of_shr_record mrs1)) in *.
  change (2 ^ 52) with 4503599627370496 in *.
  change (2 ^ 53) with 9007199254740992 in *.
  pose proof (shr_fexp_exact mr e1 ltac:(lia)) as [He2 Hm2].
  destruct (shr_fexp prec emax mr e1 loc_Exact) as [mrs2 e2].
  simpl fst in *. simpl snd in *.
  change (fexp prec emax) with (fun z => Z.max (z - 53) (-1074)) in He2, Hm2.
  cbv beta in He2, Hm2.
  destruct (Z_lt_le_dec mr 9007199254740992) as [Hlt|Hge].
  - assert (Hd : Zdigits2 mr = 53) by (apply Zdigits2_eq; [simpl; lia|lia]).
    rewrite Hd in He2, Hm2.
    replace (Z.max (Z.max (53 + e1 - 53) (-1074) - e1) 0) with 0 in He2, Hm2 by lia.
    change (2 ^ 0) with 1 in Hm2. rewrite Z.div_1_r in Hm2. rewrite Hm2.
    destruct mr as [|m|m] eqn:Emr; try lia.
    replace (e2 <=? emax - prec) with true
      by (symmetry; apply Z.leb_le; change (emax - prec) with 971; lia).
    exists m, n1. repeat split; try lia. f_equal. lia.
  - assert (Hmr : mr = 9007199254740992) by lia.
    rewrite Hmr in He2, Hm2. simpl Zdigits2 in He2, Hm2.
    replace (Z.max (Z.max (54 + e1 - 53) (-1074) - e1) 0) with 1 in He2, Hm2 by lia.
    rewrite Hm2. change (9007199254740992 / 2 ^ 1) with 4503599627370496.
    replace (e2 <=? emax - prec) with true
      by (symmetry; apply Z.leb_le; change (emax - prec) with 971; lia).
    exists 4503599627370496%positive, (n1 + 1).
    rewrite Z.pow_add_r by lia. change (2 ^ 1) with 2.
    rewrite Hmr in Hr.
    repeat split; try lia; try nia. f_equal. lia.
Qed.

Lemma binary_round_aux_exact (s : bool) (m : positive) (e : Z) :
  2 ^ 52 <= Zpos m < 2 ^ 53 -> -1074 <= e <= 971 ->
  binary_round_aux prec emax s (Zpos m) e loc_Exact = S754_finite s m e.
Proof.
  intros Hm He.
  assert (Hd : Zdigits2 (Zpos m) = 53) by (apply Zdigits2_eq; [exact Hm|lia]).
  unfold binary_round_aux.
  pose proof (shr_fexp_exact (Zpos m) e ltac:(lia)) as [He1 Hm1].
  destruct (shr_fexp prec emax (Zpos m) e loc_Exact) as [mrs1 e1] eqn:E1.
  simpl fst in *. simpl snd in *.
  change (fexp prec emax) with (fun z => Z.max (z - 53) (-1074)) in He1, Hm1.
  cbv beta in He1, Hm1. rewrite Hd in He1, Hm1.
  replace (Z.max (Z.max (53 + e - 53) (-1074) - e) 0) with 0 in He1, Hm1 by lia.
  change (2 ^ 0) with 1 in Hm1. rewrite Z.div_1_r in Hm1.
  assert (Hloc : loc_of_shr_record mrs1 = loc_Exact).
  { unfold shr_fexp in E1.
    change (fexp prec emax) with (fun z => Z.max (z - 53) (-1074)) in E1.
    cbv beta in E1. rewrite Hd in E1.
    replace (Z.max (53 + e - 53) (-1074) - e) with 0 in E1 by lia.
    simpl in E1. now injection E1 as <- _. }
  rewrite Hloc, Hm1. simpl round_nearest_even.
  pose proof (shr_fexp_exact (Zpos m) e1 ltac:(lia)) as [He2 Hm2].
  destruct (shr_fexp prec emax (Zpos m) e1 loc_Exact) as [mrs2 e2].
  simpl fst in *. simpl snd in *.
  change (fexp prec emax) with (fun z => Z.max (z - 53) (-1074)) in He2, Hm2.
  cbv beta in He2, Hm2. rewrite Hd in He2, Hm2.
  replace (Z.max (Z.max (53 + e1 - 53) (-1074) - e1) 0) with 0 in He2, Hm2 by lia.
  change (2 ^ 0) with 1 in Hm2. rewrite Z.div_1_r in Hm2. rewrite Hm2.
  replace (e2 <=? emax - prec) with true
    by (symmetry; apply Z.leb_le; change (emax - prec) with 971; lia).
  f_equal. lia.
Qed.

Lemma iter_xO_value (n p : positive) :
  Zpos (Pos.iter xO p n) = Zpos p * 2 ^ Zpos n.
Proof.
  induction n as [|n IH] using Pos.peano_ind.
  - simpl. lia.
  - rewrite Pos.iter_succ, Pos2Z.inj_xO, IH, Pos2Z.inj_succ, Z.pow_succ_r by lia. ring.
Qed.

(** The Number of an integer below 2^53 in magnitude: a normal number with
    the same value. *)
Lemma binary_round_integer (s : bool) (p : positive) :
  Zpos p < 2 ^ 53 ->
  exists m e,
    binary_round prec emax s p 0 = S754_finite s m e
    /\ 2 ^ 52 <= Zpos m < 2 ^ 53
    /\ -52 <= e <= 0
    /\ Zpos m = Zpos p * 2 ^ (- e).
Proof.
  intros Hp. unfold binary_round, shl_align.
  pose proof (digits2_bounds p) as [Hlo Hhi].
  pose proof (digits2_le p 53 Hp) as Hd.
  set (d := Zpos (digits2_pos p)) in *.
  change (fexp prec emax (d + 0)) with (Z.max (d + 0 - 53) (-1074)).
  replace (Z.max (d + 0 - 53) (-1074) - 0) with (d - 53) by lia.
  replace (Z.max (d + 0 - 53) (-1074)) with (d - 53) by lia.
  destruct (d - 53) as [|q|q] eqn:Eq; [| lia |].
  - assert (Hd53 : d = 53) by lia. rewrite Hd53 in Hlo.
    change (2 ^ (53 - 1)) with (2 ^ 52) in Hlo.
    exists p, 0.
    rewrite (binary_round_aux_exact s p 0 (conj Hlo Hp)) by (clear; lia).
    split; [reflexivity|]. split; [exact (conj Hlo Hp)|]. split; [clear; lia|].
    change (2 ^ (- 0)) with 1. clear; lia.
  - assert (Hq : Zpos q = 53 - d) by lia.
    assert (Hv : Zpos (Pos.iter xO p q) = Zpos p * 2 ^ (53 - d))
      by (rewrite iter_xO_value, Hq; reflexivity).
    assert (Hb : 2 ^ 52 <= Zpos (Pos.iter xO p q) < 2 ^ 53).
    { rewrite Hv. split.
      - replace 52 with ((d - 1) + (53 - d)) by lia. rewrite Z.pow_add_r by lia.
        apply Z.mul_le_mono_nonneg_r; [apply Z.pow_nonneg; lia|exact Hlo].
      - replace 53 with (d + (53 - d)) at 2 by lia. rewrite Z.pow_add_r by lia.
        apply Z.mul_lt_mono_pos_r; [apply Z.pow_pos_nonneg; lia|exact Hhi]. }
    exists (Pos.iter xO p q), (Zneg q).
    rewrite (binary_round_aux_exact s _ (Zneg q) Hb) by (clear - Hq Hlo Hd; lia).
    split; [reflexivity|]. split; [exact Hb|]. split; [clear - Hq Hlo Hd; lia|].
    rewrite Hv. f_equal. f_equal. lia.
Qed.

Lemma Prim2SF_Z2float (s : bool) (p : positive) :
  Zpos p < 2 ^ 53 ->
  exists m e,
    Prim2SF (Z2float (cond_Zopp s (Zpos p))) = S754_finite s m e
    /\ 2 ^ 52 <= Zpos m < 2 ^ 53
    /\ -52 <= e <= 0
    /\ Zpos m = Zpos p * 2 ^ (- e).
Proof.
  intros Hp. destruct (binary_round_integer s p Hp) as (m & e & Hr & Hm & He & Hv).
  exists m, e. split; [|exact (conj Hm (conj He Hv))].
  unfold Z2float.
  assert (Hn : binary_normalize prec emax (cond_Zopp s (Zpos p)) 0 false
               = S754_finite s m e) by (destruct s; exact Hr).
  rewrite Hn. apply Prim2SF_SF2Prim.
  unfold valid_binary, bounded, canonical_mantissa.
  assert (Hd : Zpos (digits2_pos m) = 53).
  { pose proof (digits2_le m 53 (proj2 Hm)) as H1.
    pose proof (digits2_gt m 52 (proj1 Hm)) as H2. clear - H1 H2. lia. }
  rewrite Hd. change (fexp prec emax (53 + e)) with (Z.max (53 + e - 53) (-1074)).
  apply andb_true_intro. split; [apply Z.eqb_eq; clear - He; lia|].
  apply Z.leb_le. change (emax - prec) with 971. clear - He. lia.
Qed.

(** ** Dividing by 100 and multiplying by 100

    100 is the Number with mantissa 100 * 2^46 and exponent -46. *)

Lemma Prim2SF_100 : Prim2SF 100 = S754_finite false 7036874417766400 (-46).
Proof. reflexivity. Qed.

(** The Number nearest to a normal number divided by 100: within half a
    unit in the last place, stated in integers. *)
Lemma div_100_normal (s : bool) (mk : positive) (ek : Z) :
  2 ^ 52 <= Zpos mk < 2 ^ 53 -> -52 <= ek <= 0 ->
  exists mx ex,
    SFdiv prec emax (S754_finite s mk ek) (S754_finite false 7036874417766400 (-46))
    = S754_finite s mx ex
    /\ 2 ^ 52 <= Zpos mx < 2 ^ 53
    /\ 6 <= ek - ex <= 7
    /\ 100 * Zpos mx - 50 <= Zpos mk * 2 ^ (ek - ex) <= 100 * Zpos mx + 50.
Proof.
  intros Hm He.
  assert (Hd : Zdigits2 (Zpos mk) = 53) by (apply Zdigits2_eq; [exact Hm|clear; lia]).
  change (2 ^ 52) with 4503599627370496 in Hm.
  change (2 ^ 53) with 9007199254740992 in Hm.
  unfold SFdiv, SFdiv_core_binary. rewrite Hd.
  change (Zdigits2 7036874417766400) with 53.
  change (fexp prec emax (53 + ek - (53 + -46)))
    with (Z.max (53 + ek - (53 + -46) - 53) (-1074)).
  replace (Z.min (Z.max (53 + ek - (53 + -46) - 53) (-1074)) (ek - -46))
    with (ek - 7) by (clear - He; lia).
  replace (ek - -46 - (ek - 7)) with 53 by (clear; lia).
  rewrite Z.shiftl_mul_pow2 by (clear; lia).
  change (2 ^ 53) with 9007199254740992.
  pose proof (Z_div_mod (Zpos mk * 9007199254740992) 7036874417766400 eq_refl) as Hdm.
  destruct (Z.div_eucl (Zpos mk * 9007199254740992) 7036874417766400) as [q r].
  destruct Hdm as [Hq Hr].
  assert (Hqlo : 4503599627370496 <= q) by (clear - Hq Hr Hm; lia).
  assert (Hqhi : q < 18014398509481984) by (clear - Hq Hr Hm; lia).
  assert (Hloc : located (Zpos mk * 9007199254740992) 7036874417766400
                   (shr_record_of_loc q (new_location 7036874417766400 r))).
  { unfold new_location. change (Z.even 7036874417766400) with true. cbv iota.
    unfold new_location_even, located.
    destruct (Z.eqb_spec r 0) as [->|Hr0].
    - cbn [shr_record_of_loc shr_r shr_s shr_m]. clear - Hq. lia.
    - destruct (Z.compare_spec (2 * r) 7036874417766400) as [Hc|Hc|Hc];
        cbn [shr_record_of_loc shr_r shr_s shr_m]; clear - Hq Hr Hr0 Hc; lia. }
  assert (Hdq : 53 <= Zdigits2 q <= 54).
  { destruct q as [|pq|pq]; try (clear - Hqlo; lia). simpl Zdigits2.
    pose proof (digits2_gt pq 52 Hqlo) as H1.
    pose proof (digits2_le pq 54 Hqhi) as H2. clear - H1 H2. lia. }
  destruct (binary_round_aux_normal (xorb s false) q (ek - 7)
              (new_location 7036874417766400 r)
              (Zpos mk * 9007199254740992) 7036874417766400)
    as (mx & n & Hres & Hmx & Hn & Herr);
    [clear; lia|exact Hqlo|clear - He; lia|clear - He Hdq; lia|exact Hloc|].
  rewrite xorb_false_r in Hres.
  change (2 ^ 52) with 4503599627370496 in Hmx.
  change (2 ^ 53) with 9007199254740992 in Hmx.
  exists mx, (ek - 7 + n). split; [rewrite xorb_false_r; exact Hres|].
  assert (Hn3 : n = 0 \/ n = 1 \/ n = 2) by (clear - Hn Hdq; lia).
  replace (ek - (ek - 7 + n)) with (7 - n) by (clear; lia).
  destruct Hn3 as [->|[->| ->]].
  - change (2 ^ 0) with 1 in Herr. change (2 ^ (7 - 0)) with 128.
    repeat split; clear - Herr Hmx Hm; lia.
  - change (2 ^ 1) with 2 in Herr. change (2 ^ (7 - 1)) with 64.
    repeat split; clear - Herr Hmx Hm; lia.
  - exfalso. change (2 ^ 2) with 4 in Herr. clear - Herr Hmx Hm. lia.
Qed.

(** The Number nearest to 100 times a normal number. *)
Lemma mul_100_normal (s : bool) (mx : positive) (ex : Z) :
  2 ^ 52 <= Zpos mx < 2 ^ 53 -> -1000 <= ex <= 900 ->
  exists my ey,
    SFmul prec emax (S754_finite s mx ex) (S754_finite false 7036874417766400 (-46))
    = S754_finite s my ey
    /\ 2 ^ 52 <= Zpos my < 2 ^ 53
    /\ 6 <= ey - ex <= 8
    /\ (2 * Zpos my - 1) * 2 ^ (ey - ex) <= 200 * Zpos mx
       <= (2 * Zpos my + 1) * 2 ^ (ey - ex).
Proof.
  intros Hm He.
  change (2 ^ 52) with 4503599627370496 in Hm.
  change (2 ^ 53) with 9007199254740992 in Hm.
  unfold SFmul.
  set (mz := Zpos (mx * 7036874417766400)).
  assert (Hmz : mz = Zpos mx * 7036874417766400) by apply Pos2Z.inj_mul.
  assert (Hlo : 2 ^ 104 <= mz)
    by (rewrite Hmz; change (2 ^ 104) with (4503599627370496 * 4503599627370496);
        clear - Hm; lia).
  assert (Hhi : mz < 2 ^ 106)
    by (rewrite Hmz; change (2 ^ 106) with (9007199254740992 * 9007199254740992);
        clear - Hm; lia).
  assert (Hdz : 105 <= Zdigits2 mz <= 106).
  { unfold mz in *. simpl Zdigits2.
    pose proof (digits2_gt _ 104 Hlo) as H1.
    pose proof (digits2_le _ 106 Hhi) as H2. clear - H1 H2. lia. }
  destruct (binary_round_aux_normal (xorb s false) mz (ex + -46) loc_Exact mz 1)
    as (my & n & Hres & Hmy & Hn & Herr).
  - clear; lia.
  - eapply Z.le_trans; [|exact Hlo]. clear. apply Z.pow_le_mono_r; lia.
  - clear - He. lia.
  - clear - He Hdz. lia.
  - unfold located. cbn [shr_record_of_loc shr_r shr_s shr_m]. clear. lia.
  - rewrite xorb_false_r in Hres.
    change (2 ^ 52) with 4503599627370496 in Hmy.
    change (2 ^ 53) with 9007199254740992 in Hmy.
    exists my, (ex + -46 + n). split; [rewrite xorb_false_r; exact Hres|].
    assert (Hn3 : n = 52 \/ n = 53 \/ n = 54) by (clear - Hn Hdz; lia).
    replace (ex + -46 + n - ex) with (n - 46) by (clear; lia).
    rewrite Hmz in Herr.
    destruct Hn3 as [->|[->| ->]].
    + change (2 ^ 52) with 4503599627370496 in Herr. change (2 ^ (52 - 46)) with 64.
      repeat split; clear - Herr Hmy Hm; lia.
    + change (2 ^ 53) with 9007199254740992 in Herr. change (2 ^ (53 - 46)) with 128.
      repeat split; clear - Herr Hmy Hm; lia.
    + change (2 ^ 54) with 18014398509481984 in Herr. change (2 ^ (54 - 46)) with 256.
      repeat split; clear - Herr Hmy Hm; lia.
Qed.

(** ** Two-decimal rounding of a two-decimal Number *)

Lemma pow2_split (a b : Z) : 0 <= a -> 0 <= b -> 2 ^ (a + b) = 2 ^ a * 2 ^ b.
Proof. intros. now apply Z.pow_add_r. Qed.

(** Multiplying the Number nearest to [k / 100] by 100 and rounding to the
    nearest integer gives [k] back, for [0 < k < 100 * 2^45] and either
    sign. *)
Lemma Math_round_cents (s : bool) (p : positive) :
  Zpos p < 100 * 2 ^ 45 ->
  Math_round (cents (cond_Zopp s (Zpos p)) * 100) = Z2float (cond_Zopp s (Zpos p)).
Proof.
  intros Hp.
  change (100 * 2 ^ 45) with 3518437208883200 in Hp.
  assert (Hp53 : Zpos p < 2 ^ 53)
    by (change (2 ^ 53) with 9007199254740992; clear - Hp; lia).
  destruct (Prim2SF_Z2float s p Hp53) as (mk & ek & Hk & Hmk & Hek & Hv).
  destruct (div_100_normal s mk ek Hmk Hek) as (mx & ex & Hdiv & Hmx & Ha & E1).
  assert (Hx : Prim2SF (cents (cond_Zopp s (Zpos p))) = S754_finite s mx ex).
  { unfold cents. rewrite div_spec, Hk, Prim2SF_100. exact Hdiv. }
  destruct (mul_100_normal s mx ex Hmx ltac:(clear - Ha Hek; lia))
    as (my & ey & Hmul & Hmy & Ht & E2).
  assert (Hy : Prim2SF (cents (cond_Zopp s (Zpos p)) * 100) = S754_finite s my ey).
  { rewrite mul_spec, Hx, Prim2SF_100. exact Hmul. }
  change (2 ^ 52) with 4503599627370496 in *.
  change (2 ^ 53) with 9007199254740992 in *.
  (* the value of [k] in units of the last place of the quotient *)
  assert (HkX : Zpos mk * 2 ^ (ek - ex) = Zpos p * 2 ^ (- ex)).
  { rewrite Hv, <- Z.mul_assoc, <- pow2_split by (clear - Ha Hek; lia).
    f_equal. f_equal. clear. lia. }
  rewrite HkX in E1. clear Hv HkX Hk Hdiv Hmul Hx Hmk.
  assert (Hex : ex <= -8).
  { destruct (Z_le_gt_dec ex (-8)) as [|Hgt]; [assumption|exfalso].
    assert (Hc : ex = -6 \/ ex = -7) by (clear - Hgt Ha Hek; lia).
    destruct Hc as [-> | ->];
      [change (2 ^ (- -6)) with 64 in E1|change (2 ^ (- -7)) with 128 in E1];
      clear - E1 Hp Hmx; lia. }
  assert (Hey : ey <= -1).
  { destruct (Z_le_gt_dec ey (-1)) as [|Hgt]; [assumption|exfalso].
    assert (Hc : ex = -8 /\ ey = 0) by (clear - Hgt Ht Hex; lia).
    destruct Hc as [-> ->].
    change (2 ^ (- -8)) with 256 in E1. change (2 ^ (0 - -8)) with 256 in E2.
    clear - E1 E2 Hp Hmx Hmy. lia. }
  set (k := Zpos p) in *.
  set (U := 2 ^ (- ey)).
  assert (HX : 2 ^ (- ex) = 2 ^ (ey - ex) * U).
  { unfold U. rewrite <- pow2_split by (clear - Ht Hey; lia). f_equal. clear. lia. }
  rewrite HX in E1.
  assert (HU : 2 <= U).
  { unfold U. change 2 with (2 ^ 1) at 1. apply Z.pow_le_mono_r; clear - Hey; lia. }
  assert (HU4 : ey <= -2 -> 4 <= U).
  { intros H. unfold U. change 4 with (2 ^ 2). apply Z.pow_le_mono_r; clear - H; lia. }
  assert (HU2 : ey = -1 -> U = 2) by (intros H; unfold U; rewrite H; reflexivity).
  assert (Hclose : k * U - 1 <= Zpos my <= k * U + 1
                   /\ (7 <= ey - ex -> Zpos my = k * U)).
  { assert (Hc : ey - ex = 6 \/ ey - ex = 7 \/ ey - ex = 8) by (clear - Ht; lia).
    replace (k * (2 ^ (ey - ex) * U)) with (2 ^ (ey - ex) * (k * U)) in E1 by ring.
    revert E1 E2. generalize (k * U). intros W E1 E2.
    destruct Hc as [Hc|[Hc|Hc]]; rewrite Hc in E1, E2;
      [change (2 ^ 6) with 64 in E1, E2|change (2 ^ 7) with 128 in E1, E2
       |change (2 ^ 8) with 256 in E1, E2];
      split; try intros H7; clear - E1 E2 Hc H7 || clear - E1 E2; lia. }
  destruct Hclose as [Hnear Hexact].
  assert (Hstrict : - U < 2 * (Zpos my - k * U) < U).
  { destruct (Z_le_gt_dec ey (-2)) as [H2|H1].
    - specialize (HU4 H2). clear - Hnear HU4. lia.
    - assert (H7 : 7 <= ey - ex) by (clear - H1 Hey Hex; lia).
      specialize (Hexact H7). clear - Hexact HU. lia. }
  clear Hnear Hexact.
  unfold Math_round. rewrite Hy.
  replace (0 <=? ey) with false by (symmetry; apply Z.leb_gt; clear - Hey; lia).
  rewrite Z.shiftr_div_pow2 by (clear - Hey; lia).
  replace (2 ^ (1 - ey)) with (2 * U)
    by (unfold U; rewrite <- Z.pow_succ_r by (clear - Hey; lia); f_equal; clear; lia).
  assert (Hq : (2 * signed s my + 2 ^ (- ey)) / (2 * U) = cond_Zopp s k).
  { fold U. symmetry. destruct s; cbn [signed cond_Zopp].
    - apply Z.div_unique with (r := U - 2 * (Zpos my - k * U));
        [left; clear - Hstrict; lia|ring].
    - apply Z.div_unique with (r := U + 2 * (Zpos my - k * U));
        [left; clear - Hstrict; lia|ring]. }
  rewrite Hq.
  replace (cond_Zopp s k =? 0) with false; [reflexivity|].
  symmetry. apply Z.eqb_neq. unfold k. destruct s; simpl; discriminate.
Qed.

Lemma round2_cents (k : Z) :
  - (100 * 2 ^ 45) <= k <= 100 * 2 ^ 45 -> round2 (cents k) = cents k.
Proof.
  change (100 * 2 ^ 45) with 3518437208883200. intros Hk.
  destruct (Z.eq_dec k 3518437208883200) as [->|Hhi]; [vm_compute; reflexivity|].
  destruct (Z.eq_dec k (-3518437208883200)) as [->|Hlo]; [vm_compute; reflexivity|].
  destruct k as [|p|p].
  - vm_compute. reflexivity.
  - unfold round2. change (Zpos p) with (cond_Zopp false (Zpos p)).
    rewrite Math_round_cents; [reflexivity|].
    change (100 * 2 ^ 45) with 3518437208883200. clear - Hk Hhi. lia.
  - unfold round2. change (Zneg p) with (cond_Zopp true (Zpos p)).
    rewrite Math_round_cents; [reflexivity|].
    change (100 * 2 ^ 45) with 3518437208883200. clear - Hk Hlo. lia.
Qed.

Lemma Prim2SF_bound :
  Prim2SF 3518437208883200 = S754_finite false 7036874417766400 (-1).
Proof. reflexivity. Qed.

(** The normalize step returns two-decimal Numbers. *)
Lemma round2_roundable (x : float) : roundable x -> two_decimal (round2 x).
Proof.
  unfold roundable, round2. set (y := (x * 100)%float). clearbody y.
  intros [Hle|[->|[->| ->]]];
    [|right; right; left; reflexivity
     |right; right; right; left; reflexivity
     |right; right; right; right; reflexivity].
  rewrite leb_spec, abs_spec, Prim2SF_bound in Hle.
  pose proof (Prim2SF_valid y) as Hv.
  unfold Math_round.
  destruct (Prim2SF y) as [s|s| |s m e] eqn:Hy.
  - destruct (zero_cases y s Hy) as [-> | ->].
    + left. exists 0. split; [clear; lia|reflexivity].
    + right. left. reflexivity.
  - discriminate Hle.
  - discriminate Hle.
  - cbn [SFabs] in Hle. unfold SFleb, SFcompare in Hle.
    cbn [valid_binary] in Hv. unfold bounded, canonical_mantissa in Hv.
    apply andb_prop in Hv as [Hcan _]. apply Z.eqb_eq in Hcan.
    change (fexp prec emax) with (fun z => Z.max (z - 53) (-1074)) in Hcan.
    cbv beta in Hcan.
    pose proof (digits2_bounds m) as [_ Hm53].
    assert (Hm : Zpos m < 2 ^ 53).
    { eapply Z.lt_le_trans; [exact Hm53|]. apply Z.pow_le_mono_r; clear - Hcan; lia. }
    clear Hm53 Hcan. change (2 ^ 53) with 9007199254740992 in Hm.
    assert (He : e <= -2 \/ e = -1 /\ Zpos m <= 7036874417766400).
    { destruct (Z.compare_spec e (-1)) as [He|He|He]; [|left; clear - He; lia|discriminate].
      right. split; [exact He|].
      rewrite Pos.compare_cont_spec in Hle. simpl in Hle.
      destruct (Pos.compare_spec m 7036874417766400) as [->|Hlt|Hgt];
        [clear; lia| |discriminate].
      apply Pos2Z.pos_lt_pos in Hlt. clear - Hlt. lia. }
    clear Hle.
    replace (0 <=? e) with false by (symmetry; apply Z.leb_gt; clear - He; lia).
    set (q := Z.shiftr (2 * signed s m + 2 ^ (- e)) (1 - e)).
    destruct (Z.eqb_spec q 0) as [Hq0|Hq0].
    + destruct s; [right; left; reflexivity|].
      left. exists 0. split; [clear; lia|reflexivity].
    + left. exists q. split; [|reflexivity].
      change (100 * 2 ^ 45) with 3518437208883200.
      unfold q. rewrite Z.shiftr_div_pow2 by (clear - He; lia).
      set (P := 2 ^ (- e)).
      assert (HP : 2 ^ (1 - e) = 2 * P)
        by (unfold P; rewrite <- Z.pow_succ_r by (clear - He; lia);
            f_equal; clear; lia).
      rewrite HP.
      assert (HP2 : 2 <= P /\ (e <= -2 -> 4 <= P) /\ (e = -1 -> P = 2)).
      { unfold P. split; [|split].
        - change 2 with (2 ^ 1) at 1. apply Z.pow_le_mono_r; clear - He; lia.
        - intros H. change 4 with (2 ^ 2). apply Z.pow_le_mono_r; clear - H; lia.
        - intros ->. reflexivity. }
      clearbody P. destruct HP2 as (HP2 & HP4 & HPe).
      pose proof (Z.div_mod (2 * signed s m + P) (2 * P) ltac:(clear - HP2; lia)) as Hdiv.
      pose proof (Z.mod_pos_bound (2 * signed s m + P) (2 * P) ltac:(clear - HP2; lia))
        as Hmod.
      revert Hdiv Hmod.
      generalize ((2 * signed s m + P) / (2 * P)) ((2 * signed s m + P) mod (2 * P)).
      intros d r Hdiv Hmod.
      assert (Hs : signed s m = Zpos m \/ signed s m = - Zpos m)
        by (destruct s; [right|left]; reflexivity).
      revert Hdiv Hs. generalize (signed s m). intros v Hdiv Hs.
      destruct He as [He|[He Hm1]].
      * specialize (HP4 He). clear - Hdiv Hmod Hs Hm HP4. nia.
      * specialize (HPe He). subst P. clear - Hdiv Hmod Hs Hm1. lia.
Qed.

Lemma round2_two_decimal (x : float) : two_decimal x -> round2 x = x.
Proof.
  intros [(k & Hk & ->)|[->|[->|[->| ->]]]];
    [exact (round2_cents k Hk)|vm_compute; reflexivity..].
Qed.

Lemma normalize_fixed (cmp : string -> string -> Z) (l : list UserAverage) :
  sorted_by_id cmp l ->
  Forall (fun r => two_decimal (avg r)) l ->
  normalize cmp l = l.
Proof.
  intros Hs Hd. unfold normalize, Array_sort.
  assert (Hmap : map (fun r => {| id := id r;
                                  avg := (Math_round (avg r * 100) / 100)%float |}) l = l).
  { clear Hs. induction Hd as [|r l Hr _ IH]; simpl; [reflexivity|].
    rewrite IH. f_equal. destruct r as [i a]. simpl in *.
    f_equal. exact (round2_two_decimal a Hr). }
  rewrite Hmap. apply stable_sort_fixed. exact Hs.
Qed.

Lemma normalize_sorted (cmp : string -> string -> Z) (l : list UserAverage) :
  consistent cmp -> sorted_by_id cmp (normalize cmp l).
Proof.
  intros Hcmp. unfold sorted_by_id, normalize, Array_sort.
  apply (stable_sort_sorted (fun x y => by_id cmp x y <=? 0)).
  intros x y Hxy. unfold by_id in *.
  apply Z.leb_gt in Hxy. apply Z.leb_le. now apply (cmp_total _ Hcmp).
Qed.

Lemma normalize_two_decimal (cmp : string -> string -> Z) (l : list UserAverage) :
  Forall (fun r => roundable (avg r)) l ->
  Forall (fun r => two_decimal (avg r)) (normalize cmp l).
Proof.
  intros Hr. rewrite Forall_forall in *. intros r Hin.
  apply (Permutation_in _ (normalize_perm cmp l)) in Hin.
  apply in_map_iff in Hin as (r0 & <- & Hin0).
  apply round2_roundable. now apply Hr.
Qed.

(** C8, amended: the normalize-and-sort step leaves unchanged every
    sequence that is sorted by id and whose averages are two-decimal
    Numbers of magnitude at most 2^45 = 35184372088832 (the Number nearest
    to k/100 for an integer k with |k| <= 100 * 2^45), or -0, NaN or an
    infinity.  Hence it is idempotent on every sequence whose averages
    have a hundredfold, as computed, of magnitude at most 100 * 2^45 (or
    NaN or infinite), for a consistent comparator: applying it to its own
    output returns this output.  The bound cannot be raised: the
    two-decimal Number 35184372088832.02 is changed by the step. *)
Theorem normalize_idempotent (cmp : string -> string -> Z) (l : list UserAverage) :
  (sorted_by_id cmp l ->
   Forall (fun r => two_decimal (avg r)) l ->
   normalize cmp l = l)
  /\ (consistent cmp ->
      Forall (fun r => roundable (avg r)) l ->
      normalize cmp (normalize cmp l) = normalize cmp l)
  /\ normalize cmp [ {| id := "a"; avg := cents (100 * 2 ^ 45 + 2) |} ]
     <> [ {| id := "a"; avg := cents (100 * 2 ^ 45 + 2) |} ].
Proof.
  split; [|split].
  - apply normalize_fixed.
  - intros Hcmp Hr. apply normalize_fixed.
    + now apply normalize_sorted.
    + now apply normalize_two_decimal.
  - intros H.
    apply (f_equal (fun l => match l with
                             | r :: _ => (avg r =? cents (100 * 2 ^ 45 + 2))%float
                             | [] => true
                             end)) in H.
    vm_compute in H. discriminate H.
Qed.

Lemma normalize_idempotent_witness :
  normalize codeUnitCompare
    [ {| id := "user1"; avg := 70 |}; {| id := "user2"; avg := 50.67 |} ]
  = [ {| id := "user1"; avg := 70 |}; {| id := "user2"; avg := 50.67 |} ].
Proof.
  apply (proj1 (normalize_idempotent codeUnitCompare _)).
  - repeat constructor.
  - constructor; [|constructor; [|constructor]]; left.
    + exists 7000. split; [split; apply Z.leb_le; reflexivity|]. vm_compute. reflexivity.
    + exists 5067. split; [split; apply Z.leb_le; reflexivity|]. vm_compute. reflexivity.
Defined.

(** * Further properties *)
(** ** More on the seeded generator *)

Lemma generate_loop_S (n : nat) (c : Z) :
  CodegenTest.generate_loop (S n) c
  = make_event (fst (CodegenTest.random c))
               (fst (CodegenTest.random (next_state c)))
    :: CodegenTest.generate_loop n (next_state (next_state c)).
Proof. reflexivity. Qed.

Lemma iter_plus_two {A} (f : A -> A) (n : nat) (x : A) :
  Nat.iter (n + 2) f x = Nat.iter n f (f (f x)).
Proof. now rewrite iter_add. Qed.

Lemma generate_loop_length (count : nat) (c : Z) :
  List.length (CodegenTest.generate_loop count c) = count.
Proof.
  revert c. induction count as [|n IH]; intros c; [reflexivity|].
  rewrite generate_loop_S. simpl. now rewrite IH.
Qed.

Lemma generate_loop_app (n k : nat) (c : Z) :
  CodegenTest.generate_loop (n + k) c
  = CodegenTest.generate_loop n c
    ++ CodegenTest.generate_loop k (Nat.iter (2 * n) next_state c).
Proof.
  revert c. induction n as [|n IH]; intros c; [reflexivity|].
  change (S n + k)%nat with (S (n + k)).
  rewrite !generate_loop_S, IH, <- app_comm_cons. do 3 f_equal.
  replace (2 * S n)%nat with (2 * n + 2)%nat by lia.
  symmetry. apply iter_plus_two.
Qed.

Lemma generate_loop_nth (count i : nat) (c : Z) :
  (i < count)%nat ->
  nth_error (CodegenTest.generate_loop count c) i
  = Some (make_event (fst (CodegenTest.random (Nat.iter (2 * i) next_state c)))
                     (fst (CodegenTest.random (Nat.iter (2 * i + 1) next_state c)))).
Proof.
  revert i c. induction count as [|n IH]; intros i c Hi; [lia|].
  rewrite generate_loop_S.
  destruct i as [|i]; [reflexivity|].
  cbn [nth_error]. rewrite IH by lia.
  replace (2 * S i)%nat with (2 * i + 2)%nat by lia.
  replace (2 * i + 2 + 1)%nat with ((2 * i + 1) + 2)%nat by lia.
  now rewrite !iter_plus_two.
Qed.

Lemma seeded_state_periodic (k : nat) :
  (tail_length <= k)%nat ->
  Nat.iter (k + cycle_length) next_state CodegenTest.seed
  = Nat.iter k next_state CodegenTest.seed.
Proof.
  intros Hk.
  destruct (walk_sound _ _ _ walk_tail) as [Hentry _].
  destruct (walk_sound _ _ _ walk_cycle) as [Hback _].
  assert (Hj : exists j, k = (j + tail_length)%nat) by (exists (k - tail_length)%nat; lia).
  destruct Hj as [j ->].
  replace (j + tail_length + cycle_length)%nat
    with (j + (cycle_length + tail_length))%nat by lia.
  rewrite !iter_add, <- Hentry, <- Hback. reflexivity.
Qed.

(** X1: the seeded generator returns exactly [count] events, and the
    events of a shorter run are the first events of every longer run. *)
Theorem generateEvents_prefix (n k : nat) (w : World) :
  List.length (fst (CodegenTest.generateEvents n w)) = n
  /\ firstn n (fst (CodegenTest.generateEvents (n + k) w))
     = fst (CodegenTest.generateEvents n w).
Proof.
  simpl. split; [apply generate_loop_length|].
  rewrite generate_loop_app, firstn_app, generate_loop_length, Nat.sub_diag.
  simpl. rewrite app_nil_r. apply firstn_all2. now rewrite generate_loop_length.
Qed.

(** X2: from event 2969 on, the seeded generator repeats itself every 5233
    events: the linear-congruential state, computed in doubles, runs into a
    cycle of 10466 draws. *)
Theorem generateEvents_periodic (count i : nat) (w : World) :
  (event_tail <= i)%nat ->
  (i + event_period < count)%nat ->
  nth_error (fst (CodegenTest.generateEvents count w)) (i + event_period)
  = nth_error (fst (CodegenTest.generateEvents count w)) i.
Proof.
  intros Hi Hc. simpl. rewrite !generate_loop_nth by lia.
  assert (Ht : (2 * event_tail = tail_length)%nat) by reflexivity.
  assert (Hp : (2 * event_period = cycle_length)%nat) by reflexivity.
  replace (2 * (i + event_period))%nat with (2 * i + cycle_length)%nat by lia.
  replace (2 * i + cycle_length + 1)%nat with ((2 * i + 1) + cycle_length)%nat by lia.
  rewrite !seeded_state_periodic by lia. reflexivity.
Qed.

Lemma generateEvents_periodic_witness :
  nth_error (fst (CodegenTest.generateEvents (Z.to_nat 8300) steady_world))
            (Z.to_nat 3000 + event_period)
  = nth_error (fst (CodegenTest.generateEvents (Z.to_nat 8300) steady_world))
              (Z.to_nat 3000).
Proof.
  apply generateEvents_periodic; unfold event_tail, event_period; lia.
Defined.

(** ** Unseeded generators and the random stream *)

Lemma advance_unit (n : nat) (w : World) : random_in_unit w -> random_in_unit (advance n w).
Proof. intros H i. apply H. Qed.

Lemma Math_random_advance (w : World) :
  Math_random w = (draws w (drawn w), advance 1 w).
Proof. reflexivity. Qed.

Lemma advance_advance (n m : nat) (w : World) :
  advance n (advance m w) = advance (n + m) w.
Proof. unfold advance. simpl. f_equal. lia. Qed.

Lemma context_generateEvents_S (n : nat) (w : World) :
  ContextTest.generateEvents (S n) w
  = (make_event (draws w (drawn w)) (draws w (S (drawn w)))
     :: fst (ContextTest.generateEvents n (advance 2 w)),
     snd (ContextTest.generateEvents n (advance 2 w))).
Proof.
  cbn [ContextTest.generateEvents]. unfold bind at 1 2 3, Math_random, ret.
  change {| draws := draws {| draws := draws w; drawn := S (drawn w) |};
            drawn := S (drawn {| draws := draws w; drawn := S (drawn w) |}) |}
    with (advance 2 w).
  now destruct (ContextTest.generateEvents n (advance 2 w)).
Qed.

(** X3: the unseeded generator of the context test returns [count]
    events, builds event [i] from draws [2i] and [2i+1] of the random
    stream, user first, and leaves the stream advanced by [2 * count]
    draws. *)
Theorem context_generateEvents_draws (count : nat) (w : World) :
  List.length (fst (ContextTest.generateEvents count w)) = count
  /\ snd (ContextTest.generateEvents count w) = advance (2 * count) w
  /\ forall i, (i < count)%nat ->
       nth_error (fst (ContextTest.generateEvents count w)) i
       = Some (make_event (draws w (2 * i + drawn w)%nat)
                          (draws w (2 * i + 1 + drawn w)%nat)).
Proof.
  revert w. induction count as [|n IH]; intros w.
  - repeat split; [destruct w; reflexivity|intros i Hi; lia].
  - rewrite context_generateEvents_S. cbn [fst snd].
    destruct (IH (advance 2 w)) as (Hlen & Hw & Hnth).
    split; [simpl; now rewrite Hlen|]. split.
    + rewrite Hw, advance_advance. f_equal. lia.
    + intros [|i] Hi; [reflexivity|].
      cbn [nth_error]. rewrite Hnth by lia. cbn [advance draws drawn].
      do 3 f_equal; lia.
Qed.

Lemma context_generateEvents_draws_witness :
  nth_error (fst (ContextTest.generateEvents 3 steady_world)) 2
  = Some (make_event (draws steady_world 4) (draws steady_world 5)).
Proof.
  refine (proj2 (proj2 (context_generateEvents_draws 3 steady_world)) 2%nat _). lia.
Defined.

(** ** Arrays of the sorting test *)

Lemma values_in_range_sound (n : nat) (q : Z) :
  values_in_range n = true -> 0 <= q < Z.of_nat n ->
  SortSummary.MIN_VALUE
  <= truncate (Z2float q + Z2float SortSummary.MIN_VALUE)%float
  <= SortSummary.MAX_VALUE.
Proof.
  unfold values_in_range. rewrite forallb_forall. intros H Hq.
  specialize (H (Z.to_nat q)). rewrite Z2Nat.id in H by lia.
  rewrite <- Z.leb_le, <- Z.leb_le, <- andb_true_iff. apply H, in_seq. lia.
Qed.

Lemma values_in_range_check : values_in_range (Z.to_nat 10000) = true.
Proof. vm_compute. reflexivity. Qed.

Lemma random_value_range (r : float) :
  (0 <=? r)%float = true -> (r <? 1)%float = true ->
  SortSummary.MIN_VALUE <= SortSummary.random_value r <= SortSummary.MAX_VALUE.
Proof.
  intros H0 H1.
  destruct (PrimFloat.Leibniz.eqb r 0x1.fffffffffffffp-1%float) eqn:Hlast.
  { apply FloatAxioms.Leibniz.eqb_spec in Hlast. subst r. vm_compute.
    split; discriminate. }
  assert (Hne : r <> 0x1.fffffffffffffp-1%float).
  { intros ->. vm_compute in Hlast. discriminate. }
  unfold SortSummary.random_value.
  change (Z2float (SortSummary.MAX_VALUE - SortSummary.MIN_VALUE + 1)) with 10000%float.
  destruct (Math_floor_mul_below r 10000 5497558138880000 (-39) 10000)
    as [->|(q & Hq & ->)];
    [reflexivity|split; reflexivity|lia|reflexivity|discriminate
    |assumption|assumption|assumption| |].
  - vm_compute. split; discriminate.
  - apply (values_in_range_sound _ q values_in_range_check).
    rewrite Z2Nat.id; lia.
Qed.

Lemma generateRandomArray_S (n : nat) (w : World) :
  SortSummary.generateRandomArray (S n) w
  = (SortSummary.random_value (draws w (drawn w))
     :: fst (SortSummary.generateRandomArray n (advance 1 w)),
     snd (SortSummary.generateRandomArray n (advance 1 w))).
Proof.
  cbn [SortSummary.generateRandomArray]. unfold bind, Math_random, ret.
  change {| draws := draws w; drawn := S (drawn w) |} with (advance 1 w).
  now destruct (SortSummary.generateRandomArray n (advance 1 w)).
Qed.

(** X4: as long as [Math.random] returns Numbers of [0, 1),
    [generateRandomArray(size)] returns [size] integers, each between
    [MIN_VALUE = 1] and [MAX_VALUE = 10000], and draws [size] Numbers. *)
Theorem generateRandomArray_range (size : nat) (w : World) :
  random_in_unit w ->
  List.length (fst (SortSummary.generateRandomArray size w)) = size
  /\ Forall (fun v => SortSummary.MIN_VALUE <= v <= SortSummary.MAX_VALUE)
            (fst (SortSummary.generateRandomArray size w))
  /\ snd (SortSummary.generateRandomArray size w) = advance size w.
Proof.
  revert w. induction size as [|n IH]; intros w Hw.
  - repeat split; [constructor|destruct w; reflexivity].
  - rewrite generateRandomArray_S. cbn [fst snd].
    destruct (IH (advance 1 w) (advance_unit 1 w Hw)) as (Hlen & Hall & Hw').
    split; [simpl; now rewrite Hlen|]. split.
    + constructor; [|exact Hall]. apply random_value_range; apply Hw.
    + rewrite Hw', advance_advance. f_equal. lia.
Qed.

Lemma generateRandomArray_range_witness :
  Forall (fun v => SortSummary.MIN_VALUE <= v <= SortSummary.MAX_VALUE)
         (fst (SortSummary.generateRandomArray 4 steady_world)).
Proof.
  refine (proj1 (proj2 (generateRandomArray_range 4 steady_world _))).
  intros i. split; reflexivity.
Defined.

(** ** More on the reference computation *)

Lemma reference_ids_perm (cmp : string -> string -> Z) (events : list Event) :
  Permutation (map id (computeCorrectAnswer cmp events))
              (own_keys (first_keys userId (drop_short events))).
Proof.
  rewrite computeCorrectAnswer_groups. unfold Array_sort.
  rewrite (Permutation_map id (stable_sort_perm _ _)), map_map.
  simpl. now rewrite map_id.
Qed.

Lemma reference_ids_NoDup (cmp : string -> string -> Z) (events : list Event) :
  NoDup (map id (computeCorrectAnswer cmp events)).
Proof.
  eapply Permutation_NoDup; [symmetry; apply reference_ids_perm|].
  apply own_first_keys_order.
Qed.

(** X5: the reference answer has one entry per user with at least one
    event of duration 50 or more, no user twice, and never more entries
    than events. *)
Theorem computeCorrectAnswer_ids (cmp : string -> string -> Z) (events : list Event) :
  let answer := computeCorrectAnswer cmp events in
  NoDup (map id answer)
  /\ (forall u, In u (map id answer) <->
                exists e, In e events /\ userId e = u /\ 50 <= duration e)
  /\ (List.length answer <= List.length events)%nat.
Proof.
  intros answer. subst answer.
  pose proof (own_first_keys_order (drop_short events)) as [Hnd Hin].
  set (ks := own_keys (first_keys userId (drop_short events))) in *.
  pose proof (reference_ids_perm cmp events) as HP. fold ks in HP.
  split; [|split].
  - eapply Permutation_NoDup; [symmetry; exact HP|exact Hnd].
  - intros u. split.
    + intros Hu. apply (Permutation_in _ HP), Hin, in_map_iff in Hu.
      destruct Hu as (e & Hid & He). unfold drop_short in He.
      apply filter_In in He as [He Hd]. exists e. repeat split; try assumption.
      apply negb_true_iff, Z.ltb_ge in Hd. exact Hd.
    + intros (e & He & Hid & Hd).
      apply (Permutation_in _ (Permutation_sym HP)), Hin, in_map_iff.
      exists e. split; [assumption|]. unfold drop_short. apply filter_In.
      split; [assumption|]. now apply negb_true_iff, Z.ltb_ge.
  - rewrite <- (length_map id), (Permutation_length HP).
    transitivity (List.length (drop_short events)); [|apply filter_length_le].
    rewrite <- (length_map userId (drop_short events)).
    apply NoDup_incl_length; [exact Hnd|]. intros u Hu. now apply Hin.
Qed.

(** ** More on the scorer *)

Lemma finite_sub_self (x : float) :
  PrimFloat.is_finite x = true -> (x - x)%float = PrimFloat.zero.
Proof.
  unfold PrimFloat.is_finite, PrimFloat.is_nan, PrimFloat.is_infinity.
  rewrite !FloatAxioms.eqb_spec, abs_spec.
  change (Prim2SF infinity) with (S754_infinity false).
  intros Hfin. apply Prim2SF_inj. rewrite sub_spec. unfold SF64sub, SFsub.
  destruct (Prim2SF x) as [s|s| |s m e].
  - now destruct s.
  - destruct s; discriminate.
  - discriminate.
  - now rewrite Z.sub_diag.
Qed.

Lemma finite_within_tolerance (x : float) :
  PrimFloat.is_finite x = true -> (Math_abs (x - x) <? 0.1)%float = true.
Proof. intros H. now rewrite finite_sub_self. Qed.

Lemma find_id_unique (actual : list UserAverage) (u : string) (act : UserAverage) :
  NoDup (map id actual) ->
  (find (fun a => String.eqb (id a) u) actual = Some act <-> In act actual /\ id act = u).
Proof.
  intros Hnd. rewrite find_first_with_id. split.
  - intros (b & t & -> & Hid & _). split; [|assumption].
    apply in_or_app. right. now left.
  - intros [Hin Hid]. now apply first_with_id_unique.
Qed.

Lemma entry_correct_perm (actual actual' : list UserAverage) (exp : UserAverage) :
  Permutation actual actual' -> NoDup (map id actual) ->
  entry_correct actual' exp = entry_correct actual exp.
Proof.
  intros HP Hnd.
  assert (Hnd' : NoDup (map id actual'))
    by (eapply Permutation_NoDup; [apply Permutation_map; exact HP|exact Hnd]).
  unfold entry_correct.
  destruct (find _ actual) as [act|] eqn:E.
  - apply (find_id_unique _ _ _ Hnd) in E as [Hin Hid].
    apply (Permutation_in _ HP) in Hin.
    now rewrite (proj2 (find_id_unique _ _ _ Hnd') (conj Hin Hid)).
  - destruct (find _ actual') as [act|] eqn:E'; [|reflexivity].
    apply (find_id_unique _ _ _ Hnd') in E' as [Hin Hid].
    apply (Permutation_in _ (Permutation_sym HP)) in Hin.
    rewrite (proj2 (find_id_unique _ _ _ Hnd) (conj Hin Hid)) in E. discriminate.
Qed.

Lemma filter_perm_length {A} (p : A -> bool) (l l' : list A) :
  Permutation l l' -> List.length (filter p l) = List.length (filter p l').
Proof.
  induction 1 as [|x l l' _ IH|x y l|l l' l'' _ IH1 _ IH2]; simpl.
  - reflexivity.
  - destruct (p x); simpl; now rewrite IH.
  - destruct (p x), (p y); reflexivity.
  - now rewrite IH1.
Qed.

(** X6: the scorer does not look at the order of either sequence: when
    the ids of [actual] are distinct, rearranging [actual] or [expected]
    leaves the whole comparison unchanged. *)
Theorem compareResults_order_insensitive
    (expected expected' actual actual' : list UserAverage) :
  Permutation expected expected' ->
  Permutation actual actual' ->
  NoDup (map id actual) ->
  compareResults expected' (Some actual') = compareResults expected (Some actual).
Proof.
  intros He Ha Hnd. unfold compareResults. rewrite !count_fold. simpl.
  rewrite <- (Permutation_length He), <- (Permutation_length Ha).
  assert (Hc : List.length (filter (entry_correct actual') expected')
               = List.length (filter (entry_correct actual) expected)).
  { rewrite <- (filter_perm_length _ _ _ He). f_equal.
    apply filter_ext. intros exp. now apply entry_correct_perm. }
  now rewrite Hc.
Qed.

Lemma compareResults_order_insensitive_witness :
  compareResults [ {| id := "b"; avg := 2 |}; {| id := "a"; avg := 1 |} ]
                 (Some [ {| id := "a"; avg := 1 |}; {| id := "b"; avg := 2 |} ])
  = compareResults [ {| id := "a"; avg := 1 |}; {| id := "b"; avg := 2 |} ]
                   (Some [ {| id := "b"; avg := 2 |}; {| id := "a"; avg := 1 |} ]).
Proof.
  apply compareResults_order_insensitive.
  - apply perm_swap.
  - apply perm_swap.
  - repeat constructor; simpl; intuition discriminate.
Defined.

Lemma accuracy_ends_below_sound (n t : nat) :
  accuracy_ends_below n = true -> (0 < t <= n)%nat ->
  accuracy_of t t = 100%float /\ accuracy_of 0 t = 0%float.
Proof.
  unfold accuracy_ends_below. rewrite forallb_forall. intros H Ht.
  specialize (H t). rewrite andb_true_iff in H.
  rewrite <- !FloatAxioms.Leibniz.eqb_spec. apply H, in_seq. lia.
Qed.

Lemma accuracy_ends_check : accuracy_ends_below 1000 = true.
Proof. vm_compute. reflexivity. Qed.

Lemma self_all_correct (l : list UserAverage) :
  NoDup (map id l) ->
  Forall finite_avg l ->
  matched (compareResults l (Some l)) = true
  /\ correctCount (compareResults l (Some l)) = List.length l.
Proof.
  intros Hnd Hfin.
  assert (Hall : filter (entry_correct l) l = l).
  { apply forallb_filter_id, forallb_forall. intros e He.
    unfold entry_correct.
    rewrite (proj2 (find_id_unique l (id e) e Hnd) (conj He eq_refl)).
    apply finite_within_tolerance. rewrite Forall_forall in Hfin. now apply Hfin. }
  assert (Hc : correctCount (compareResults l (Some l)) = List.length l)
    by (simpl; now rewrite count_fold, Hall).
  split; [|exact Hc]. simpl in *. now rewrite Hc, !Nat.eqb_refl.
Qed.

(** X7: a sequence with distinct ids and finite averages scores as a
    full match against itself: every entry is correct, and the accuracy is
    100 for up to 1000 entries. *)
Theorem compareResults_self (l : list UserAverage) :
  NoDup (map id l) ->
  Forall finite_avg l ->
  let r := compareResults l (Some l) in
  matched r = true
  /\ correctCount r = List.length l
  /\ ((0 < List.length l <= 1000)%nat -> accuracy r = 100%float).
Proof.
  intros Hnd Hfin r. subst r.
  destruct (self_all_correct l Hnd Hfin) as [Hm Hc].
  split; [exact Hm|split; [exact Hc|]].
  intros Hlen. change (accuracy (compareResults l (Some l)))
    with (accuracy_of (correctCount (compareResults l (Some l))) (List.length l)).
  rewrite Hc. apply (accuracy_ends_below_sound 1000); [apply accuracy_ends_check|lia].
Qed.

Lemma compareResults_self_witness :
  matched (compareResults [ {| id := "a"; avg := 1.5 |}; {| id := "b"; avg := 2 |} ]
                          (Some [ {| id := "a"; avg := 1.5 |}; {| id := "b"; avg := 2 |} ]))
  = true.
Proof.
  refine (proj1 (compareResults_self
                   [ {| id := "a"; avg := 1.5 |}; {| id := "b"; avg := 2 |} ] _ _)).
  - repeat constructor; simpl; intuition discriminate.
  - repeat constructor.
Defined.

(** X8: the scorer never counts more correct entries than there are
    expected ones; a match means that all of them are correct and, for 1 to
    1000 expected entries, an accuracy of exactly 100, while no correct
    entry means an accuracy of exactly 0. *)
Theorem compareResults_bounds (expected actual : list UserAverage) :
  let r := compareResults expected (Some actual) in
  (correctCount r <= totalCount r)%nat
  /\ (matched r = true -> correctCount r = totalCount r)
  /\ ((0 < totalCount r <= 1000)%nat ->
      (matched r = true -> accuracy r = 100%float)
      /\ (correctCount r = 0%nat -> accuracy r = 0%float)).
Proof.
  intros r. subst r.
  assert (Hc : correctCount (compareResults expected (Some actual))
               = List.length (filter (entry_correct actual) expected))
    by (simpl; now rewrite count_fold).
  assert (Hm : matched (compareResults expected (Some actual)) = true ->
               correctCount (compareResults expected (Some actual))
               = List.length expected).
  { simpl. rewrite andb_true_iff, Nat.eqb_eq. tauto. }
  split; [rewrite Hc; apply filter_length_le|]. split; [exact Hm|].
  intros Ht.
  change (accuracy (compareResults expected (Some actual)))
    with (accuracy_of (correctCount (compareResults expected (Some actual)))
                      (List.length expected)).
  destruct (accuracy_ends_below_sound 1000 (List.length expected) accuracy_ends_check Ht)
    as [H100 H0].
  split; intros H.
  - now rewrite (Hm H).
  - now rewrite H.
Qed.

Lemma compareResults_bounds_witness :
  accuracy (compareResults [ {| id := "a"; avg := 1 |} ] (Some [ {| id := "b"; avg := 1 |} ]))
  = 0%float.
Proof.
  refine (proj2 (proj2 (proj2 (compareResults_bounds
            [ {| id := "a"; avg := 1 |} ] [ {| id := "b"; avg := 1 |} ])) _) _).
  - simpl. lia.
  - reflexivity.
Defined.

(** ** Summary of the sorting test *)

Lemma all_passed_length (samples : list bool) :
  List.length (filter (fun s : bool => s) samples) = List.length samples <->
  forall s, In s samples -> s = true.
Proof.
  induction samples as [|[|] l IH]; simpl.
  - split; [intros _ s []|reflexivity].
  - rewrite Nat.succ_inj_wd, IH. split; [intros H s [<-|Hs]; auto|auto].
  - pose proof (filter_length_le (fun s : bool => s) l) as Hle. split; [lia|].
    intros H. discriminate (H false (or_introl eq_refl)).
Qed.

(** X9: with [SAMPLES_PER_SIZE = 10] samples the pass rate is exactly ten
    times the number of passed samples, and it is below 100 unless every
    sample passed. *)
Theorem passRate_tens (samples : list bool) :
  List.length samples = SortSummary.SAMPLES_PER_SIZE ->
  SortSummary.passRate samples
  = Z2float (10 * Z.of_nat (List.length (filter (fun s => s) samples)))
  /\ ((SortSummary.passRate samples <? 100)%float = false <->
      forall s, In s samples -> s = true).
Proof.
  intros Hlen. unfold SortSummary.passRate.
  pose proof (filter_length_le (fun s : bool => s) samples) as Hle.
  rewrite <- all_passed_length, Hlen.
  rewrite Hlen in Hle. unfold SortSummary.SAMPLES_PER_SIZE in *.
  destruct (List.length (filter (fun s : bool => s) samples))
    as [|[|[|[|[|[|[|[|[|[|[|n]]]]]]]]]]]; try lia;
    (split; [reflexivity|split; intros H; first [discriminate H|reflexivity]]).
Qed.

Lemma passRate_tens_witness :
  SortSummary.passRate [true; true; false; true; true; true; true; false; true; true]
  = Z2float 80.
Proof.
  exact (proj1 (passRate_tens
                  [true; true; false; true; true; true; true; false; true; true]
                  eq_refl)).
Defined.

Lemma cliff_loop_spec (rate : Z -> float) (sizes : list Z) (d : Z) :
  (Forall (fun s => (rate s <? 100)%float = false) sizes
   /\ SortSummary.cliff_loop rate sizes d = d)
  \/ exists before after,
       sizes = before ++ SortSummary.cliff_loop rate sizes d :: after
       /\ Forall (fun s => (rate s <? 100)%float = false) before
       /\ (rate (SortSummary.cliff_loop rate sizes d) <? 100)%float = true.
Proof.
  induction sizes as [|s l IH]; simpl.
  - left. split; [constructor|reflexivity].
  - destruct (rate s <? 100)%float eqn:E.
    + right. exists [], l. repeat split; [constructor|assumption].
    + destruct IH as [[Hall Hd]|(b & a & Hl & Hb & Hr)].
      * left. split; [now constructor|assumption].
      * right. exists (s :: b), a. repeat split; [|now constructor|assumption].
        simpl. now rewrite <- Hl.
Qed.

(** X10: the reported cliff is always one of the tested sizes.  It is the
    first size, in ascending order, whose pass rate is below 100; when no
    size has a pass rate below 100 it is the largest size, 150. *)
Theorem cliffSize_spec (rate : Z -> float) :
  In (SortSummary.cliffSize rate) SortSummary.ARRAY_SIZES
  /\ ((forall s, In s SortSummary.ARRAY_SIZES -> (rate s <? 100)%float = false) ->
      SortSummary.cliffSize rate = 150)
  /\ (forall s, In s SortSummary.ARRAY_SIZES -> (rate s <? 100)%float = true ->
      (rate (SortSummary.cliffSize rate) <? 100)%float = true
      /\ SortSummary.cliffSize rate <= s
      /\ forall s', In s' SortSummary.ARRAY_SIZES -> s' < SortSummary.cliffSize rate ->
                    (rate s' <? 100)%float = false).
Proof.
  unfold SortSummary.cliffSize.
  change (last SortSummary.ARRAY_SIZES 0) with 150.
  assert (Hsorted : StronglySorted Z.lt SortSummary.ARRAY_SIZES)
    by (repeat constructor; lia).
  destruct (cliff_loop_spec rate SortSummary.ARRAY_SIZES 150)
    as [[Hall Hd]|(b & a & Hl & Hb & Hr)].
  - rewrite Hd. rewrite Forall_forall in Hall. split; [|split].
    + unfold SortSummary.ARRAY_SIZES. simpl. tauto.
    + reflexivity.
    + intros s Hs Hlow. rewrite (Hall s Hs) in Hlow. discriminate.
  - set (c := SortSummary.cliff_loop rate SortSummary.ARRAY_SIZES 150) in *.
    rewrite Hl in Hsorted. rewrite Forall_forall in Hb.
    assert (Hbefore : forall s', In s' (b ++ c :: a) -> s' < c -> In s' b).
    { intros s' Hin Hlt. apply in_app_or in Hin as [Hin|[->|Hin]]; [assumption|lia|].
      exfalso. clear - Hsorted Hin Hlt. induction b as [|x b IH]; simpl in Hsorted.
      - inversion Hsorted as [|? ? _ Hf]; subst. rewrite Forall_forall in Hf.
        specialize (Hf _ Hin). lia.
      - inversion Hsorted; subst. now apply IH. }
    assert (Hafter : forall s, In s (b ++ c :: a) -> In s b \/ c <= s).
    { intros s Hin. destruct (Z_lt_le_dec s c) as [Hlt|Hge]; [left|now right].
      now apply Hbefore. }
    split; [|split].
    + rewrite Hl. apply in_or_app. right. now left.
    + intros Hnone. rewrite Hnone in Hr; [discriminate|].
      rewrite Hl. apply in_or_app. right. now left.
    + intros s Hs Hlow. rewrite Hl in Hs. split; [exact Hr|]. split.
      * destruct (Hafter s Hs) as [Hin|Hge]; [|exact Hge].
        rewrite (Hb s Hin) in Hlow. discriminate.
      * intros s' Hs' Hlt. rewrite Hl in Hs'. apply Hb. now apply Hbefore.
Qed.

Lemma cliffSize_spec_witness :
  SortSummary.cliffSize (fun _ => 100%float) = 150.
Proof.
  refine (proj1 (proj2 (cliffSize_spec (fun _ => 100%float))) _).
  intros s _. reflexivity.
Defined.

(** ** The generated program *)

Lemma Object_entries_map_keys {V W} (f : string * V -> string * W) (o : JSObject.t V) :
  (forall p, fst (f p) = fst p) ->
  Object_entries (map f o) = map f (Object_entries o).
Proof.
  intros Hf.
  assert (Hi : forall p, is_index (f p) = is_index p)
    by (intros p; unfold is_index; now rewrite Hf).
  unfold Object_entries. rewrite map_app. f_equal.
  - rewrite <- (stable_sort_map f (fun p q => (index_of p <=? index_of q)%N)
                  (fun p q => (index_of p <=? index_of q)%N)).
    + f_equal. induction o as [|p o IH]; simpl; [reflexivity|].
      rewrite (Hi p). destruct (is_index p); simpl; now rewrite IH.
    + intros a b. unfold index_of. now rewrite !Hf.
  - induction o as [|p o IH]; simpl; [reflexivity|].
    rewrite (Hi p). destruct (is_index p); simpl; now rewrite IH.
Qed.

Lemma has_own_totals (o : JSObject.t (list Event)) (k : string) :
  Executor.has_own (map totals_of o) k = existsb (fun p => String.eqb (fst p) k) o.
Proof.
  unfold Executor.has_own. induction o as [|p o IH]; simpl; [reflexivity|].
  now rewrite IH.
Qed.

Lemma add_to_totals_present (o : JSObject.t (list Event)) (e : Event) :
  existsb (fun p => String.eqb (fst p) (userId e)) o = true ->
  Executor.add_to_totals (map totals_of o) (userId e) (duration e)
  = map totals_of (add_to_group o (userId e) e).
Proof.
  induction o as [|[k g] o IH]; simpl; [discriminate|].
  destruct (String.eqb k (userId e)); simpl.
  - intros _. unfold totals_of. simpl.
    now rewrite fold_left_app, length_app, Nat.add_comm.
  - intros H. now rewrite IH.
Qed.

Lemma add_to_totals_absent (o : JSObject.t (list Event)) (e : Event) :
  existsb (fun p => String.eqb (fst p) (userId e)) o = false ->
  Executor.add_to_totals
    (map totals_of o ++ [(userId e, {| Executor.sum := 0; Executor.count := 0 |})])
    (userId e) (duration e)
  = map totals_of (add_to_group o (userId e) e).
Proof.
  induction o as [|[k g] o IH]; simpl.
  - intros _. now rewrite String.eqb_refl.
  - destruct (String.eqb k (userId e)); simpl; [discriminate|].
    intros H. now rewrite IH.
Qed.

Lemma add_to_totals_missing (acc : JSObject.t Executor.Totals) (k : string) (d : Z) :
  Executor.has_own acc k = false -> Executor.add_to_totals acc k d = acc.
Proof.
  unfold Executor.has_own. induction acc as [|[k' t] acc IH]; simpl; [reflexivity|].
  destruct (String.eqb k' k); simpl; [discriminate|].
  intros H. now rewrite IH.
Qed.

Lemma groupBy_keys_plain (l : list Event) (k : string) :
  existsb (fun p => String.eqb (fst p) k) (Object_groupBy (filter plain_user l) userId) = true ->
  Executor.inherited k = false.
Proof.
  rewrite Object_groupBy_groups, existsb_exists.
  intros (p & Hin & Heq). apply String.eqb_eq in Heq. subst k.
  apply in_map_iff in Hin as (u & <- & Hu). simpl.
  apply first_keys_In, in_map_iff in Hu as (e & <- & He).
  apply filter_In in He as [_ Hp]. now apply negb_true_iff in Hp.
Qed.

Lemma reducer_groups (l : list Event) :
  fold_left Executor.reducer l []
  = map totals_of (Object_groupBy (filter plain_user l) userId).
Proof.
  induction l as [|e l IH] using rev_ind; [reflexivity|].
  rewrite fold_left_app, filter_app. simpl fold_left. rewrite IH.
  set (o := Object_groupBy (filter plain_user l) userId).
  unfold Executor.reducer. rewrite has_own_totals. simpl filter.
  unfold plain_user at 2.
  destruct (existsb (fun p => String.eqb (fst p) (userId e)) o) eqn:Hown.
  - pose proof (groupBy_keys_plain l _ Hown) as Hplain. rewrite Hplain. simpl.
    rewrite add_to_totals_present by assumption.
    unfold Object_groupBy. now rewrite fold_left_app.
  - simpl. destruct (Executor.inherited (userId e)) eqn:Hinh; simpl.
    + rewrite app_nil_r. apply add_to_totals_missing. now rewrite has_own_totals.
    + rewrite add_to_totals_absent by assumption.
      unfold Object_groupBy. now rewrite fold_left_app.
Qed.

(** X11: the generated program kept in the repository returns the
    reference answer of the events whose user id is not the name of a
    property of [Object.prototype] (such as "constructor"): on every other
    input it agrees with the reference computation, and a user with such a
    name is silently left out. *)
Theorem executor_result_reference (cmp : string -> string -> Z) (events : list Event) :
  Executor.result cmp events = computeCorrectAnswer cmp (filter plain_user events)
  /\ ((forall e, In e events -> Executor.inherited (userId e) = false) ->
      Executor.result cmp events = computeCorrectAnswer cmp events)
  /\ (forall u, Executor.inherited u = true ->
                ~ In u (map id (Executor.result cmp events))).
Proof.
  assert (H : Executor.result cmp events
              = computeCorrectAnswer cmp (filter plain_user events)).
  { unfold Executor.result, computeCorrectAnswer.
    rewrite reducer_groups.
    rewrite (Object_entries_map_keys totals_of) by reflexivity.
    rewrite map_map. f_equal.
    assert (Hf : filter plain_user (filter (fun e => 50 <=? duration e) events)
                 = filter (fun e => 50 <=? duration e) (filter plain_user events)).
    { clear. induction events as [|e l IH]; simpl; [reflexivity|].
      destruct (50 <=? duration e) eqn:Hd, (plain_user e) eqn:Hp; simpl;
        rewrite ?Hd, ?Hp, IH; reflexivity. }
    rewrite Hf. apply map_ext. intros [k g]. reflexivity. }
  split; [exact H|]. split.
  - intros Hplain. rewrite H. f_equal.
    apply forallb_filter_id, forallb_forall. intros e He.
    unfold plain_user. now rewrite (Hplain e He).
  - intros u Hu Hin. rewrite H in Hin.
    rewrite computeCorrectAnswer_groups in Hin.
    unfold Array_sort in Hin.
    apply (Permutation_in _ (Permutation_map id (stable_sort_perm _ _))) in Hin.
    rewrite map_map in Hin. simpl in Hin. rewrite map_id in Hin.
    apply (Permutation_in _ (own_keys_perm _)), first_keys_In, in_map_iff in Hin.
    destruct Hin as (e & <- & He). unfold drop_short in He.
    apply filter_In in He as [He _]. apply filter_In in He as [_ Hplain].
    unfold plain_user in Hplain. rewrite Hu in Hplain. discriminate.
Qed.

Lemma executor_result_reference_witness :
  Executor.result codeUnitCompare
    [ {| userId := "user2"; duration := 60 |}; {| userId := "user1"; duration := 75 |} ]
  = computeCorrectAnswer codeUnitCompare
      [ {| userId := "user2"; duration := 60 |}; {| userId := "user1"; duration := 75 |} ].
Proof.
  refine (proj1 (proj2 (executor_result_reference codeUnitCompare
    [ {| userId := "user2"; duration := 60 |}; {| userId := "user1"; duration := 75 |} ])) _).
  intros e [<-|[<-|[]]]; reflexivity.
Defined.

(** ** Markdown fences *)

Lemma string_app_assoc (a b c : string) :
  ((a ++ b) ++ c)%string = (a ++ b ++ c)%string.
Proof. induction a as [|x a IH]; simpl; [reflexivity|now rewrite IH]. Qed.

Lemma string_app_empty (a : string) : (a ++ "")%string = a.
Proof. induction a as [|x a IH]; simpl; [reflexivity|now rewrite IH]. Qed.

Lemma trimEnd_app_keep (a b : string) :
  trimEnd b <> EmptyString -> trimEnd (a ++ b) = (a ++ trimEnd b)%string.
Proof.
  intros Hb. induction a as [|c a IH]; simpl; [reflexivity|].
  rewrite IH. destruct (a ++ trimEnd b)%string eqn:E; [|reflexivity].
  destruct a; simpl in E; [contradiction|discriminate].
Qed.

Lemma trimEnd_app_drop (a b : string) :
  trimEnd b = EmptyString -> trimEnd (a ++ b) = trimEnd a.
Proof.
  intros Hb. induction a as [|c a IH]; simpl; [assumption|]. now rewrite IH.
Qed.

Lemma trimStart_length (s : string) :
  (String.length (trimStart s) <= String.length s)%nat.
Proof.
  induction s as [|c s IH]; simpl; [lia|]. destruct (is_white c); simpl; lia.
Qed.

Lemma trimStart_fixed_head (c : ascii) (s : string) :
  trimStart (String c s) = String c s -> is_white c = false.
Proof.
  simpl. destruct (is_white c); [|reflexivity].
  intros H. pose proof (trimStart_length s) as Hl. rewrite H in Hl. simpl in Hl. lia.
Qed.

Lemma trimStart_app (a b : string) :
  a <> EmptyString -> trimStart a = a -> trimStart (a ++ b) = (a ++ b)%string.
Proof.
  destruct a as [|c a]; [contradiction|]. intros _ H.
  apply trimStart_fixed_head in H. simpl. now rewrite H.
Qed.

Lemma trimStart_idempotent (s : string) : trimStart (trimStart s) = trimStart s.
Proof.
  induction s as [|c s IH]; [reflexivity|]. simpl.
  destruct (is_white c) eqn:E; [assumption|]. simpl. now rewrite E.
Qed.

Lemma trimEnd_idempotent (s : string) : trimEnd (trimEnd s) = trimEnd s.
Proof.
  induction s as [|c s IH]; [reflexivity|]. simpl.
  destruct (trimEnd s) as [|d t] eqn:E.
  - destruct (is_white c) eqn:W; [reflexivity|]. simpl. now rewrite W.
  - change (trimEnd (String c (String d t))) with
      (match trimEnd (String d t) with
       | EmptyString => if is_white c then EmptyString else String c EmptyString
       | String a t' => String c (String a t')
       end).
    now rewrite IH.
Qed.

Lemma trimStart_trimEnd (s : string) :
  trimStart s = s -> trimStart (trimEnd s) = trimEnd s.
Proof.
  destruct s as [|c s]; [reflexivity|]. intros H.
  apply trimStart_fixed_head in H.
  change (trimEnd (String c s)) with
    (match trimEnd s with
     | EmptyString => if is_white c then EmptyString else String c EmptyString
     | String a t' => String c (String a t')
     end).
  destruct (trimEnd s); rewrite ?H; simpl; now rewrite H.
Qed.

Lemma trim_idempotent (s : string) : trim (trim s) = trim s.
Proof.
  unfold trim.
  rewrite (trimStart_trimEnd (trimStart s) (trimStart_idempotent s)).
  apply trimEnd_idempotent.
Qed.

Lemma trimmed_trim (s : string) : trimmed s -> trim s = s.
Proof. intros (_ & H1 & H2). unfold trim. now rewrite H1. Qed.

Lemma strip_prefix_prefix (l s : string) :
  Regex.strip_prefix l s = None <-> String.prefix l s = false.
Proof.
  revert s. induction l as [|a l IH]; intros [|b s];
    cbn [String.prefix Regex.strip_prefix];
    try (split; (discriminate || reflexivity)).
  destruct (Ascii.eqb_spec a b) as [->|Hne].
  - destruct (ascii_dec b b) as [_|Hn]; [apply IH|contradiction].
  - destruct (ascii_dec a b) as [He|_]; [contradiction|]. split; reflexivity.
Qed.

Lemma strip_prefix_app (l s rest : string) :
  Regex.strip_prefix l s = Some rest -> s = (l ++ rest)%string.
Proof.
  revert s. induction l as [|a l IH]; intros s; simpl.
  - now intros [= ->].
  - destruct s as [|b s]; [discriminate|].
    destruct (Ascii.eqb_spec a b) as [->|_]; [|discriminate].
    intros H. now rewrite (IH _ H).
Qed.

Lemma match_length_Lit (l s : string) :
  Regex.match_length (Regex.Lit l) s =
  if String.prefix l s then Some (String.length l) else None.
Proof.
  unfold Regex.match_length. cbn [Regex.matches].
  destruct (Regex.strip_prefix l s) eqn:E.
  - destruct (String.prefix l s) eqn:P; [reflexivity|].
    apply strip_prefix_prefix in P. congruence.
  - apply strip_prefix_prefix in E. now rewrite E.
Qed.

Lemma match_length_Cat_Lit (l : string) (r : Regex.t) (s : string) :
  String.prefix l s = false ->
  Regex.match_length (Regex.Cat (Regex.Lit l) r) s = None.
Proof.
  intros H. apply strip_prefix_prefix in H.
  unfold Regex.match_length. cbn [Regex.matches]. now rewrite H.
Qed.

Lemma match_length_other (r : Regex.t) (c : ascii) (s : string) :
  r = typescript_fence \/ r = json_fence \/ r = any_fence ->
  Ascii.eqb c backquote = false ->
  Regex.match_length r (String c s) = None.
Proof.
  intros Hr Hc.
  assert (Hp : forall l, String.prefix (String backquote l) (String c s) = false).
  { intros l. cbn [String.prefix].
    destruct (ascii_dec backquote c) as [<-|_]; [|reflexivity].
    now rewrite Ascii.eqb_refl in Hc. }
  destruct Hr as [->|[->| ->]].
  - apply match_length_Cat_Lit, Hp.
  - apply match_length_Cat_Lit, Hp.
  - unfold any_fence. rewrite match_length_Lit.
    change "```"%string with (String backquote "``"). now rewrite Hp.
Qed.

Lemma replace_no_backquote (r : Regex.t) (a b : string) :
  r = typescript_fence \/ r = json_fence \/ r = any_fence ->
  no_backquote a = true ->
  Regex.replace_from r "" (a ++ b) 0 = (a ++ Regex.replace_from r "" b 0)%string.
Proof.
  intros Hr. induction a as [|c a IH]; simpl; [reflexivity|].
  intros H. apply andb_prop in H as [Hc Ha]. apply negb_true_iff in Hc.
  rewrite (match_length_other r c (a ++ b) Hr Hc). now rewrite IH.
Qed.

Lemma strip_prefix_tag (l tag rest : string) :
  (forall c, In c (list_ascii_of_string l) -> Ascii.eqb c ("010"%char) = false) ->
  String.prefix l tag = false ->
  String.prefix l (tag ++ newline ++ rest) = false.
Proof.
  revert tag. induction l as [|a l IH]; intros tag Hnl Hp.
  - destruct tag; discriminate.
  - destruct tag as [|b tag].
    + unfold newline. cbn [String.prefix append].
      destruct (ascii_dec a "010"%char) as [->|_]; [|reflexivity].
      specialize (Hnl "010"%char (or_introl eq_refl)). discriminate.
    + cbn [String.prefix append] in *. destruct (ascii_dec a b) as [_|_]; [|reflexivity].
      apply IH; [|assumption]. intros c Hc. apply Hnl. now right.
Qed.

Lemma replace_closing (r : Regex.t) :
  r = typescript_fence \/ r = json_fence ->
  Regex.replace_from r "" "```" 0 = "```"%string /\
  Regex.replace_from any_fence "" "```" 0 = EmptyString.
Proof. intros [->| ->]; split; reflexivity. Qed.

(** What is left of [x ++ newline ++ "```"], for a text [x] without
    backquotes, after both replacements. *)
Lemma replace_rest (r : Regex.t) (x : string) :
  r = typescript_fence \/ r = json_fence ->
  no_backquote x = true ->
  Regex.replace_all any_fence ""
    (Regex.replace_from r "" (x ++ newline ++ "```") 0) = (x ++ newline)%string.
Proof.
  intros Hr Hx.
  assert (Hxn : no_backquote (x ++ newline) = true).
  { clear Hr. induction x as [|c x IH]; [reflexivity|]. simpl in *.
    apply andb_prop in Hx as [-> Hx]. now apply IH. }
  rewrite <- string_app_assoc.
  rewrite replace_no_backquote by tauto || assumption.
  rewrite (proj1 (replace_closing r Hr)).
  unfold Regex.replace_all. rewrite replace_no_backquote by tauto || assumption.
  rewrite (proj2 (replace_closing r Hr)).
  apply string_app_empty.
Qed.

Lemma trim_fenced (p x : string) :
  trim (String backquote p ++ x ++ newline ++ "```") =
  (String backquote p ++ x ++ newline ++ "```")%string.
Proof.
  unfold trim. change (trimStart (String backquote p ++ x ++ newline ++ "```"))
    with (String backquote p ++ x ++ newline ++ "```")%string.
  rewrite <- (string_app_assoc x), <- string_app_assoc.
  apply trimEnd_app_keep. discriminate.
Qed.

Lemma trim_body_line (body : string) :
  trimmed body -> trim (body ++ newline) = body.
Proof.
  intros (Hne & Hs & He). unfold trim.
  rewrite trimStart_app by assumption.
  rewrite trimEnd_app_drop by reflexivity. assumption.
Qed.

Lemma trim_tag_body_line (tag body : string) :
  trimmed tag -> trimmed body ->
  trim ((tag ++ newline ++ body) ++ newline) = (tag ++ newline ++ body)%string.
Proof.
  intros (Hne & Hs & He) (Hne' & Hs' & He'). unfold trim.
  rewrite !string_app_assoc. rewrite trimStart_app by assumption.
  rewrite <- !string_app_assoc. rewrite trimEnd_app_drop by reflexivity.
  rewrite trimEnd_app_keep by now rewrite He'. now rewrite He'.
Qed.

Lemma no_backquote_app (a b : string) :
  no_backquote a = true -> no_backquote b = true -> no_backquote (a ++ b) = true.
Proof.
  intros Ha Hb. induction a as [|c a IH]; [assumption|]. simpl in *.
  apply andb_prop in Ha as [-> Ha]. now apply IH.
Qed.

Lemma trim_line_body_line (body : string) :
  trimmed body -> trim (newline ++ body ++ newline) = body.
Proof. intros H. now apply trim_body_line. Qed.

Lemma stripFence_fenced_all (body : string) :
  no_backquote body = true -> trimmed body ->
  stripFence typescript_fence
    ("```typescript" ++ newline ++ body ++ newline ++ "```") = body /\
  stripFence json_fence
    ("```json" ++ newline ++ body ++ newline ++ "```") = body /\
  stripFence typescript_fence ("```" ++ newline ++ body ++ newline ++ "```") = body /\
  stripFence json_fence ("```" ++ newline ++ body ++ newline ++ "```") = body.
Proof.
  intros Hb Ht.
  pose proof (replace_rest typescript_fence body (or_introl eq_refl) Hb) as Ets.
  pose proof (replace_rest json_fence body (or_intror eq_refl) Hb) as Ejs.
  pose proof (trim_body_line body Ht) as Et.
  pose proof (trim_line_body_line body Ht) as Et'.
  unfold stripFence. repeat split.
  - assert (E : trim ("```typescript" ++ newline ++ body ++ newline ++ "```")
                = ("```typescript" ++ newline ++ body ++ newline ++ "```")%string)
      by exact (trim_fenced "``typescript" (newline ++ body)).
    rewrite E.
    change (Regex.replace_all typescript_fence ""
              ("```typescript" ++ newline ++ body ++ newline ++ "```"))
      with (Regex.replace_from typescript_fence "" (body ++ newline ++ "```") 0).
    change (String.prefix "```" ("```typescript" ++ newline ++ body ++ newline ++ "```"))
      with true.
    cbv iota. now rewrite Ets.
  - assert (E : trim ("```json" ++ newline ++ body ++ newline ++ "```")
                = ("```json" ++ newline ++ body ++ newline ++ "```")%string)
      by exact (trim_fenced "``json" (newline ++ body)).
    rewrite E.
    change (Regex.replace_all json_fence ""
              ("```json" ++ newline ++ body ++ newline ++ "```"))
      with (Regex.replace_from json_fence "" (body ++ newline ++ "```") 0).
    change (String.prefix "```" ("```json" ++ newline ++ body ++ newline ++ "```"))
      with true.
    cbv iota. now rewrite Ejs.
  - assert (E : trim ("```" ++ newline ++ body ++ newline ++ "```")
                = ("```" ++ newline ++ body ++ newline ++ "```")%string)
      by exact (trim_fenced "``" (newline ++ body)).
    rewrite E.
    change (String.prefix "```" ("```" ++ newline ++ body ++ newline ++ "```"))
      with true.
    cbv iota.
    change (Regex.replace_all any_fence ""
              (Regex.replace_all typescript_fence ""
                 ("```" ++ newline ++ body ++ newline ++ "```")))
      with (newline ++ Regex.replace_all any_fence ""
              (Regex.replace_from typescript_fence "" (body ++ newline ++ "```") 0))%string.
    now rewrite Ets.
  - assert (E : trim ("```" ++ newline ++ body ++ newline ++ "```")
                = ("```" ++ newline ++ body ++ newline ++ "```")%string)
      by exact (trim_fenced "``" (newline ++ body)).
    rewrite E.
    change (String.prefix "```" ("```" ++ newline ++ body ++ newline ++ "```"))
      with true.
    cbv iota.
    change (Regex.replace_all any_fence ""
              (Regex.replace_all json_fence ""
                 ("```" ++ newline ++ body ++ newline ++ "```")))
      with (newline ++ Regex.replace_all any_fence ""
              (Regex.replace_from json_fence "" (body ++ newline ++ "```") 0))%string.
    now rewrite Ejs.
Qed.


(** X12: an answer wrapped in a fence with the expected language tag, or
    with no tag, is cleaned to its body: for a body without backquotes and
    without white space at its ends, the TypeScript clean-up of
    "```typescript\n" + body + "\n```" and the JSON clean-up of
    "```json\n" + body + "\n```" give body, and so do both for
    "```\n" + body + "\n```". *)
Theorem stripFence_fenced (body : string) :
  no_backquote body = true -> trimmed body ->
  stripFence typescript_fence
    ("```typescript" ++ newline ++ body ++ newline ++ "```") = body /\
  stripFence json_fence
    ("```json" ++ newline ++ body ++ newline ++ "```") = body /\
  stripFence typescript_fence ("```" ++ newline ++ body ++ newline ++ "```") = body /\
  stripFence json_fence ("```" ++ newline ++ body ++ newline ++ "```") = body.
Proof. apply stripFence_fenced_all. Qed.

Lemma stripFence_fenced_witness :
  stripFence typescript_fence
    ("```typescript" ++ newline ++ "const result = 1;" ++ newline ++ "```")
  = "const result = 1;"%string.
Proof.
  apply (stripFence_fenced "const result = 1;").
  - reflexivity.
  - split; [discriminate|split; reflexivity].
Defined.

Lemma replace_copy (r : Regex.t) (c : ascii) (s : string) :
  Regex.match_length r (String c s) = None ->
  Regex.replace_from r "" (String c s) 0 = String c (Regex.replace_from r "" s 0).
Proof. intros H. cbn [Regex.replace_from]. now rewrite H. Qed.

Lemma prefix_same (a : ascii) (l s : string) :
  String.prefix (String a l) (String a s) = String.prefix l s.
Proof.
  cbn [String.prefix]. destruct (ascii_dec a a) as [_|H]; [reflexivity|contradiction].
Qed.

Lemma prefix_differ (a c : ascii) (l s : string) :
  Ascii.eqb c a = false -> String.prefix (String a l) (String c s) = false.
Proof.
  intros Hc. cbn [String.prefix]. destruct (ascii_dec a c) as [<-|_]; [|reflexivity].
  now rewrite Ascii.eqb_refl in Hc.
Qed.

Lemma prefix_short_run (l : string) (c : ascii) (s : string) :
  Ascii.eqb c backquote = false ->
  String.prefix (String backquote (String backquote (String backquote l)))
                (String backquote (String backquote (String c s))) = false /\
  String.prefix (String backquote (String backquote (String backquote l)))
                (String backquote (String c s)) = false.
Proof.
  intros Hc. rewrite !prefix_same. split; now apply prefix_differ.
Qed.

(** The clean-up of "```" + x + "\n```" when the opening expression does
    not match at the start and [x] has no backquote. *)
Lemma stripFence_unmatched (r : Regex.t) (l : string) (x : string) :
  r = typescript_fence /\ l = "typescrip"%string \/
  r = json_fence /\ l = "jso"%string ->
  no_backquote x = true -> x <> EmptyString ->
  String.prefix l (x ++ newline ++ "```") = false ->
  stripFence r ("```" ++ x ++ newline ++ "```") = trim (x ++ newline).
Proof.
  intros Hr Hx Hne Hp. unfold stripFence.
  assert (E : trim ("```" ++ x ++ newline ++ "```")
              = ("```" ++ x ++ newline ++ "```")%string)
    by exact (trim_fenced "``" x).
  rewrite E. clear E.
  assert (T : String.prefix "```" ("```" ++ x ++ newline ++ "```") = true).
  { cbn [append]. rewrite !prefix_same. now destruct (x ++ newline ++ "```")%string. }
  rewrite T. clear T.
  cbv iota.
  assert (Hr' : r = typescript_fence \/ r = json_fence) by tauto.
  assert (H0 : Regex.match_length r ("```" ++ x ++ newline ++ "```") = None).
  { destruct x as [|c x]; [contradiction|].
    destruct Hr as [[-> ->]|[-> ->]]; apply match_length_Cat_Lit;
      cbn [append]; unfold backquote; rewrite !prefix_same; exact Hp. }
  destruct x as [|c x]; [contradiction|].
  cbn [no_backquote] in Hx. apply andb_prop in Hx as [Hc Hx].
  apply negb_true_iff in Hc.
  assert (H1 : Regex.match_length r
                 (String backquote (String backquote
                    (String c (x ++ newline ++ "```")))) = None).
  { destruct Hr as [[-> _]|[-> _]]; apply match_length_Cat_Lit;
      apply (prefix_short_run _ c _ Hc). }
  assert (H2 : Regex.match_length r
                 (String backquote (String c (x ++ newline ++ "```"))) = None).
  { destruct Hr as [[-> _]|[-> _]]; apply match_length_Cat_Lit;
      apply (prefix_short_run _ c _ Hc). }
  unfold Regex.replace_all at 2.
  change ("```" ++ String c x ++ newline ++ "```")%string
    with (String backquote (String backquote (String backquote
            (String c x ++ newline ++ "```")))) in *.
  rewrite (replace_copy r _ _ H0).
  change (String c x ++ newline ++ "```")%string
    with (String c (x ++ newline ++ "```")).
  rewrite (replace_copy r _ _ H1), (replace_copy r _ _ H2).
  change (Regex.replace_all any_fence ""
            (String backquote (String backquote (String backquote
               (Regex.replace_from r "" (String c (x ++ newline ++ "```")) 0)))))
    with (Regex.replace_all any_fence ""
            (Regex.replace_from r "" (String c x ++ newline ++ "```") 0)).
  rewrite replace_rest; [reflexivity|assumption|].
  cbn [no_backquote]. now rewrite Hc, Hx.
Qed.

(** X13: the opening expressions know one language tag each.  With another
    tag (one that does not begin with typescrip, respectively jso) only
    the backquotes are removed and the tag stays as the first line of the
    cleaned text. *)
Theorem stripFence_other_tag (tag body : string) :
  no_backquote tag = true -> trimmed tag ->
  no_backquote body = true -> trimmed body ->
  (String.prefix "typescrip" tag = false ->
   stripFence typescript_fence ("```" ++ tag ++ newline ++ body ++ newline ++ "```")
   = (tag ++ newline ++ body)%string) /\
  (String.prefix "jso" tag = false ->
   stripFence json_fence ("```" ++ tag ++ newline ++ body ++ newline ++ "```")
   = (tag ++ newline ++ body)%string).
Proof.
  intros Hq Ht Hb Hb'.
  assert (Hx : no_backquote (tag ++ newline ++ body) = true)
    by (apply no_backquote_app; [assumption|exact Hb]).
  assert (Hne : (tag ++ newline ++ body)%string <> EmptyString)
    by (destruct Ht as (Hne & _); destruct tag; [contradiction|discriminate]).
  assert (Hnl : forall l,
            (forall c, In c (list_ascii_of_string l) -> Ascii.eqb c "010"%char = false) ->
            String.prefix l tag = false ->
            String.prefix l ((tag ++ newline ++ body) ++ newline ++ "```") = false)
    by (intros l H1 H2; rewrite !string_app_assoc; now apply strip_prefix_tag).
  assert (Hs : forall r l,
            r = typescript_fence /\ l = "typescrip"%string \/
            r = json_fence /\ l = "jso"%string ->
            (forall c, In c (list_ascii_of_string l) -> Ascii.eqb c "010"%char = false) ->
            String.prefix l tag = false ->
            stripFence r ("```" ++ tag ++ newline ++ body ++ newline ++ "```")
            = (tag ++ newline ++ body)%string).
  { intros r l Hr Hl Hp.
    rewrite <- (trim_tag_body_line tag body Ht Hb').
    rewrite <- (stripFence_unmatched r l (tag ++ newline ++ body) Hr Hx Hne (Hnl l Hl Hp)).
    now rewrite !string_app_assoc. }
  split; intros Hp.
  - apply (Hs _ "typescrip"%string); [tauto| |assumption].
    intros c Hc. cbn in Hc. repeat (destruct Hc as [<-|Hc]; [reflexivity|]). contradiction.
  - apply (Hs _ "jso"%string); [tauto| |assumption].
    intros c Hc. cbn in Hc. repeat (destruct Hc as [<-|Hc]; [reflexivity|]). contradiction.
Qed.

Lemma stripFence_other_tag_witness :
  stripFence typescript_fence
    ("```" ++ "ts" ++ newline ++ "const result = 1;" ++ newline ++ "```")
  = ("ts" ++ newline ++ "const result = 1;")%string.
Proof.
  apply (stripFence_other_tag "ts" "const result = 1;").
  - reflexivity.
  - split; [discriminate|split; reflexivity].
  - reflexivity.
  - split; [discriminate|split; reflexivity].
  - reflexivity.
Defined.

Lemma prefix_empty (s : string) : String.prefix "" s = true.
Proof. now destruct s. Qed.

Lemma prefix_app (l a b : string) :
  String.prefix l a = true -> String.prefix l (a ++ b) = true.
Proof.
  revert a. induction l as [|x l IH]; intros a H; [apply prefix_empty|].
  destruct a as [|y a]; [discriminate|]. cbn [String.prefix append] in *.
  destruct (ascii_dec x y); [now apply IH|discriminate].
Qed.

Lemma has_fence_head (s : string) :
  has_fence s = false -> String.prefix "```" s = false.
Proof.
  destruct s as [|c s]; [reflexivity|]. cbn [has_fence].
  intros H. now apply orb_false_elim in H.
Qed.

Lemma has_fence_app (a b : string) :
  has_fence (a ++ b) = false -> has_fence a = false.
Proof.
  induction a as [|c a IH]; [reflexivity|]. cbn [has_fence append].
  intros H. apply orb_false_elim in H as [H1 H2]. rewrite (IH H2), orb_false_r.
  destruct (String.prefix "```" (String c a)) eqn:E; [|reflexivity].
  apply (prefix_app _ _ b) in E. cbn [append] in E. congruence.
Qed.

Lemma has_fence_trimStart (s : string) :
  has_fence s = false -> has_fence (trimStart s) = false.
Proof.
  induction s as [|c s IH]; [reflexivity|]. intros H. cbn [trimStart].
  destruct (is_white c); [|assumption].
  apply IH. cbn [has_fence] in H. now apply orb_false_elim in H.
Qed.

Lemma trimEnd_prefix (s : string) : exists q, s = (trimEnd s ++ q)%string.
Proof.
  induction s as [|c s [q IH]]; [now exists EmptyString|]. cbn [trimEnd].
  destruct (trimEnd s) as [|d t] eqn:E.
  - destruct (is_white c).
    + now exists (String c s).
    + exists s. reflexivity.
  - exists q. cbn [append] in *. now rewrite <- IH.
Qed.

Lemma has_fence_trim (s : string) :
  has_fence s = false -> has_fence (trim s) = false.
Proof.
  intros H. apply has_fence_trimStart in H. unfold trim.
  destruct (trimEnd_prefix (trimStart s)) as [q E]. rewrite E in H.
  now apply has_fence_app in H.
Qed.

Lemma replace_fence_eq (s : string) :
  Regex.replace_from any_fence "" s 0 =
  match s with
  | EmptyString => EmptyString
  | String c t =>
      if String.prefix "```" s
      then Regex.replace_from any_fence "" t 2
      else String c (Regex.replace_from any_fence "" t 0)
  end.
Proof.
  destruct s as [|c t]; [reflexivity|]. cbn [Regex.replace_from].
  unfold any_fence. rewrite match_length_Lit.
  now destruct (String.prefix "```" (String c t)).
Qed.

Lemma replace_fence_copy (c : ascii) (s : string) :
  String.prefix "```" (String c s) = false ->
  Regex.replace_from any_fence "" (String c s) 0 =
  String c (Regex.replace_from any_fence "" s 0).
Proof. intros H. rewrite replace_fence_eq. now rewrite H. Qed.

Lemma replace_fence_pair (s : string) :
  String.prefix "``" s = false ->
  String.prefix "``" (Regex.replace_from any_fence "" s 0) = false.
Proof.
  intros H. destruct s as [|a s]; [reflexivity|].
  destruct (Ascii.eqb_spec a "`"%char) as [->|Ha].
  - rewrite prefix_same in H. destruct s as [|b s]; [reflexivity|].
    destruct (Ascii.eqb_spec b "`"%char) as [->|Hb].
    + rewrite prefix_same, prefix_empty in H. discriminate.
    + apply Ascii.eqb_neq in Hb.
      rewrite replace_fence_copy
        by (rewrite prefix_same; now apply prefix_differ).
      rewrite replace_fence_copy by now apply prefix_differ.
      rewrite prefix_same. now apply prefix_differ.
  - apply Ascii.eqb_neq in Ha.
    rewrite replace_fence_copy by now apply prefix_differ.
    now apply prefix_differ.
Qed.

Lemma replace_fence_none (n : nat) :
  forall s, (String.length s <= n)%nat ->
            has_fence (Regex.replace_from any_fence "" s 0) = false.
Proof.
  induction n as [|n IH]; intros s Hn.
  - destruct s; [reflexivity|simpl in Hn; lia].
  - destruct s as [|a s]; [reflexivity|]. rewrite replace_fence_eq.
    destruct (String.prefix "```" (String a s)) eqn:E.
    + destruct s as [|b [|c s]]; try reflexivity.
      cbn [Regex.replace_from]. apply IH. simpl in Hn |- *. lia.
    + cbn [has_fence]. rewrite IH by (simpl in Hn; lia). rewrite orb_false_r.
      destruct (Ascii.eqb_spec a backquote) as [->|Hne].
      * unfold backquote in *.
        change "```"%string with (String "`" "``") in *.
        rewrite prefix_same in *. now apply replace_fence_pair.
      * apply prefix_differ. now apply Ascii.eqb_neq.
Qed.

Lemma stripFence_clean (opening : Regex.t) (content : string) :
  String.prefix "```" (trim content) = true ->
  has_fence (stripFence opening content) = false.
Proof.
  intros H. unfold stripFence. rewrite H.
  apply has_fence_trim. unfold Regex.replace_all.
  now apply (replace_fence_none _ _ (le_n _)).
Qed.

(** X14: when the trimmed answer starts with a fence, the cleaned text
    holds no fence at all, whatever the answer was: three backquotes in a
    row occur nowhere in it. *)
Theorem stripFence_no_fence (opening : Regex.t) (content : string) :
  String.prefix "```" (trim content) = true ->
  has_fence (stripFence opening content) = false.
Proof. apply stripFence_clean. Qed.

Lemma stripFence_no_fence_witness :
  has_fence (stripFence json_fence ("`````` x ```` y `````json")) = false.
Proof. apply stripFence_no_fence. reflexivity. Defined.

(** X15: cleaning is idempotent: cleaning a cleaned answer changes
    nothing, for either opening expression and every answer. *)
Theorem stripFence_idempotent (opening : Regex.t) (content : string) :
  stripFence opening (stripFence opening content) = stripFence opening content.
Proof.
  destruct (String.prefix "```" (trim content)) eqn:E.
  - pose proof (stripFence_clean opening content E) as Hc.
    assert (Ht : trim (stripFence opening content) = stripFence opening content).
    { unfold stripFence. rewrite E. apply trim_idempotent. }
    unfold stripFence at 1. rewrite Ht.
    now rewrite (has_fence_head _ Hc).
  - assert (Hs : stripFence opening content = trim content)
      by (unfold stripFence; now rewrite E).
    rewrite Hs. unfold stripFence. rewrite trim_idempotent. now rewrite E.
Qed.

(** ** The drivers, one scale at a time *)

Lemma reference_normalizes (cmp : string -> string -> Z) (events : list Event) :
  normalize cmp (processEvents events) = computeCorrectAnswer cmp events.
Proof.
  unfold computeCorrectAnswer, normalize, processEvents. rewrite map_map.
  f_equal. apply map_ext. intros [u g]. reflexivity.
Qed.

Lemma truthy_append (a b : string) :
  a <> EmptyString -> SortTest.truthy (Some (a ++ b)%string) = true.
Proof. destruct a; [contradiction|reflexivity]. Qed.

Lemma stripFence_bare (opening : Regex.t) (body : string) :
  no_backquote body = true -> trimmed body -> stripFence opening body = body.
Proof.
  intros Hb Ht. unfold stripFence. rewrite (trimmed_trim body Ht).
  destruct body as [|c body]; [reflexivity|].
  cbn [no_backquote] in Hb. apply andb_prop in Hb as [Hc _].
  apply negb_true_iff in Hc.
  change "```"%string with (String backquote "``").
  now rewrite (prefix_differ _ _ _ _ Hc).
Qed.

Lemma matched_accuracy (expected actual : list UserAverage) :
  matched (compareResults expected (Some actual)) = true ->
  (0 < List.length expected <= 1000)%nat ->
  accuracy (compareResults expected (Some actual)) = 100%float.
Proof.
  intros Hm Hlen.
  assert (Hc : correctCount (compareResults expected (Some actual))
               = List.length expected).
  { simpl in *. apply andb_prop in Hm as [Hm _]. now apply Nat.eqb_eq in Hm. }
  change (accuracy (compareResults expected (Some actual)))
    with (accuracy_of (correctCount (compareResults expected (Some actual)))
                      (List.length expected)).
  rewrite Hc. apply (accuracy_ends_below_sound 1000); [apply accuracy_ends_check|lia].
Qed.

Ltac fails :=
  match goal with
  | |- context [SortTest.truthy ?x] =>
      destruct (SortTest.truthy x);
      cbn [compareResults matched CodegenRun.row_success result]; discriminate
  end.

(** X16: one scale of the code-generation test.  The row reports success
    only when the child closed with exit code 0 and its trimmed output
    parsed, and then the row has no error.  Conversely, when the child
    exits with code 0 and prints records that normalize to the reference
    answer (finite averages), as the unrounded, unsorted output of
    processEvents does, the row is a success without error, with accuracy
    100 for 1 to 1000 users. *)
Theorem codegen_scale_success
    (localeCompare : string -> string -> Z)
    (JSON_parse : string -> option (list UserAverage))
    (size : Z) (events : list Event) (latency : Z) (child : ChildOutcome) :
  let row := CodegenRun.main_scale localeCompare JSON_parse size events latency child in
  let reference := computeCorrectAnswer localeCompare events in
  (CodegenRun.row_success row = true ->
   CodegenRun.row_error row = None
   /\ exists stdout stderr out,
        child = Closed (Some 0) stdout stderr
        /\ JSON_parse (trim stdout) = Some out
        /\ matched (compareResults reference (Some (normalize localeCompare out))) = true)
  /\ (forall stdout stderr out,
        child = Closed (Some 0) stdout stderr ->
        JSON_parse (trim stdout) = Some out ->
        normalize localeCompare out = reference ->
        Forall finite_avg reference ->
        CodegenRun.row_success row = true
        /\ CodegenRun.row_error row = None
        /\ ((0 < List.length reference <= 1000)%nat ->
            CodegenRun.row_accuracy row = 100%float))
  /\ normalize localeCompare (processEvents events) = reference.
Proof.
  intros row reference. subst row reference. split; [|split].
  - unfold CodegenRun.main_scale.
    destruct child as [[[| |]|] stdout stderr|message];
      cbn [executeGeneratedCode negb error result latencyMs].
    + destruct (JSON_parse (trim stdout)) as [out|] eqn:E;
        cbn [error result SortTest.truthy CodegenRun.row_success CodegenRun.row_error].
      * intros Hm. split; [reflexivity|]. now exists stdout, stderr, out.
      * discriminate.
    + fails.
    + fails.
    + fails.
    + fails.
  - intros stdout stderr out -> Hp Hn Hfin.
    unfold CodegenRun.main_scale.
    cbn [executeGeneratedCode negb error result latencyMs]. rewrite Hp.
    cbn [error result SortTest.truthy CodegenRun.row_success CodegenRun.row_error
         CodegenRun.row_accuracy].
    rewrite Hn.
    destruct (self_all_correct _ (reference_ids_NoDup localeCompare events) Hfin)
      as [Hm _].
    split; [exact Hm|split; [reflexivity|]].
    intros Hlen. now apply matched_accuracy.
  - apply reference_normalizes.
Qed.

Lemma codegen_scale_success_witness :
  CodegenRun.row_success
    (CodegenRun.main_scale codeUnitCompare
       (fun _ => Some (processEvents
                         [ {| userId := "user2"; duration := 60 |};
                           {| userId := "user1"; duration := 80 |};
                           {| userId := "user2"; duration := 75 |} ]))
       3
       [ {| userId := "user2"; duration := 60 |};
         {| userId := "user1"; duration := 80 |};
         {| userId := "user2"; duration := 75 |} ]
       12 (Closed (Some 0) "[]" "")) = true.
Proof.
  refine (proj1 (proj1 (proj2 (codegen_scale_success codeUnitCompare _ 3 _ 12 _))
                   "[]"%string ""%string _ eq_refl eq_refl _ _)).
  - reflexivity.
  - repeat constructor.
Defined.

(** X17: one scale of the code-generation test, failures.  A child that
    exits with a code other than 0 or is ended by a signal, or whose output
    does not parse, gives a row with accuracy 0, no success and an error
    text that is not empty; the reference answer plays no part. *)
Theorem codegen_scale_failure
    (localeCompare : string -> string -> Z)
    (JSON_parse : string -> option (list UserAverage))
    (size : Z) (events : list Event) (latency : Z)
    (code : option Z) (stdout stderr : string) :
  code <> Some 0 \/ JSON_parse (trim stdout) = None ->
  let row := CodegenRun.main_scale localeCompare JSON_parse size events latency
               (Closed code stdout stderr) in
  CodegenRun.row_accuracy row = 0%float
  /\ CodegenRun.row_success row = false
  /\ SortTest.truthy (CodegenRun.row_error row) = true
  /\ CodegenRun.row_execTime row = latency.
Proof.
  intros H row. subst row. unfold CodegenRun.main_scale.
  assert (Ht : SortTest.truthy
                 (error (executeGeneratedCode localeCompare JSON_parse latency
                           (Closed code stdout stderr))) = true).
  { cbn [executeGeneratedCode].
    destruct code as [[| |]|]; cbn [negb error].
    - destruct H as [H|H]; [contradiction|]. rewrite H. cbn [error].
      now apply truthy_append.
    - destruct (String.eqb_spec stderr ""); [now apply truthy_append|].
      cbn. now destruct stderr.
    - destruct (String.eqb_spec stderr ""); [now apply truthy_append|].
      cbn. now destruct stderr.
    - destruct (String.eqb_spec stderr ""); [now apply truthy_append|].
      cbn. now destruct stderr. }
  rewrite Ht. cbn [CodegenRun.row_accuracy CodegenRun.row_success
                   CodegenRun.row_error CodegenRun.row_execTime].
  repeat split; try assumption.
  destruct code as [[| |]|]; cbn [executeGeneratedCode negb latencyMs];
    try reflexivity.
  now destruct (JSON_parse (trim stdout)).
Qed.

Lemma codegen_scale_failure_witness :
  CodegenRun.row_success
    (CodegenRun.main_scale codeUnitCompare (fun _ => None) 3 [] 12
       (Closed (Some 1) "" "boom")) = false.
Proof.
  refine (proj1 (proj2 (codegen_scale_failure codeUnitCompare (fun _ => None) 3 [] 12
                          (Some 1) ""%string "boom"%string _))).
  left. discriminate.
Defined.

(** X18: the context test scores an answer the same with and without a
    ```json fence around it: for a body without backquotes and without
    white space at its ends that parses, the whole row is the same for
    "```json\n" + body + "\n```" and for body alone.  If the parsed
    records normalize to the reference answer (finite averages), the row is
    a success without error. *)
Theorem context_scale_fenced
    (localeCompare : string -> string -> Z)
    (JSON_parse : string -> option (list UserAverage))
    (size : Z) (events : list Event) (latency tokens : Z)
    (body : string) (out : list UserAverage) :
  no_backquote body = true -> trimmed body ->
  JSON_parse body = Some out ->
  let fenced := ("```json" ++ newline ++ body ++ newline ++ "```")%string in
  let run content := ContextRun.main_scale localeCompare JSON_parse size events latency
                       (ContextRun.Replied content tokens) in
  run fenced = run body
  /\ ContextRun.row_error (run fenced) = None
  /\ ContextRun.row_success (run fenced)
     = matched (compareResults (computeCorrectAnswer localeCompare events)
                               (Some (normalize localeCompare out)))
  /\ (normalize localeCompare out = computeCorrectAnswer localeCompare events ->
      Forall finite_avg (computeCorrectAnswer localeCompare events) ->
      ContextRun.row_success (run fenced) = true).
Proof.
  intros Hb Ht Hp fenced run. subst fenced run.
  destruct (stripFence_fenced_all body Hb Ht) as (_ & Hf & _).
  unfold ContextRun.main_scale, ContextRun.askLLMToCompute.
  rewrite Hf, (stripFence_bare json_fence body Hb Ht), Hp.
  cbn [ContextRun.answer_error ContextRun.answer SortTest.truthy
       ContextRun.row_success ContextRun.row_error].
  repeat split.
  intros Hn Hfin. rewrite Hn.
  apply (self_all_correct _ (reference_ids_NoDup localeCompare events) Hfin).
Qed.

Lemma context_scale_fenced_witness :
  ContextRun.row_success
    (ContextRun.main_scale codeUnitCompare
       (fun _ => Some [ {| id := "user2"; avg := 67.5 |}; {| id := "user1"; avg := 80 |} ])
       3
       [ {| userId := "user2"; duration := 60 |};
         {| userId := "user1"; duration := 80 |};
         {| userId := "user2"; duration := 75 |} ]
       12
       (ContextRun.Replied ("```json" ++ newline ++ "[answer]" ++ newline ++ "```") 40))
  = true.
Proof.
  refine (proj2 (proj2 (proj2
            (context_scale_fenced codeUnitCompare _ 3 _ 12 40 "[answer]" _ _ _ eq_refl)))
            _ _).
  - reflexivity.
  - split; [discriminate|split; reflexivity].
  - reflexivity.
  - repeat constructor.
Defined.

(** X19: what the context test reports when there is no answer to score.
    A reply that does not parse gives accuracy 0, no success and the error
    "Failed to parse response: " with the first 200 characters of the raw
    content and "..."; a request that threw gives accuracy 0, no success
    and 0 tokens, with the message as error, except that an absent or empty
    message leaves the row without error. *)
Theorem context_scale_failure
    (localeCompare : string -> string -> Z)
    (JSON_parse : string -> option (list UserAverage))
    (size : Z) (events : list Event) (latency : Z) :
  let run := ContextRun.main_scale localeCompare JSON_parse size events latency in
  (forall content tokens,
      JSON_parse (stripFence json_fence content) = None ->
      run (ContextRun.Replied content tokens)
      = {| ContextRun.row_size := size;
           ContextRun.row_tokensUsed := tokens;
           ContextRun.row_latencyMs := latency;
           ContextRun.row_accuracy := 0;
           ContextRun.row_success := false;
           ContextRun.row_error :=
             Some ("Failed to parse response: "
                   ++ substring 0 200 content ++ "...")%string |})
  /\ (forall message,
        run (ContextRun.Threw message)
        = {| ContextRun.row_size := size;
             ContextRun.row_tokensUsed := 0;
             ContextRun.row_latencyMs := latency;
             ContextRun.row_accuracy := 0;
             ContextRun.row_success := false;
             ContextRun.row_error :=
               if SortTest.truthy message then message else None |})
  /\ (forall reply,
        ContextRun.row_success (run reply) = true ->
        ContextRun.row_error (run reply) = None
        /\ exists content tokens out,
             reply = ContextRun.Replied content tokens
             /\ JSON_parse (stripFence json_fence content) = Some out).
Proof.
  intros run. subst run. split; [|split].
  - intros content tokens Hp.
    unfold ContextRun.main_scale, ContextRun.askLLMToCompute. rewrite Hp.
    cbn [ContextRun.answer_error]. now rewrite truthy_append.
  - intros message.
    unfold ContextRun.main_scale, ContextRun.askLLMToCompute.
    cbn [ContextRun.answer_error ContextRun.answer ContextRun.tokensUsed
         ContextRun.answer_latencyMs].
    now destruct (SortTest.truthy message).
  - intros [message|content tokens];
      unfold ContextRun.main_scale, ContextRun.askLLMToCompute.
    + cbn [ContextRun.answer_error ContextRun.answer].
      destruct (SortTest.truthy message); discriminate.
    + destruct (JSON_parse (stripFence json_fence content)) as [out|] eqn:E.
      * cbn [ContextRun.answer_error SortTest.truthy ContextRun.row_error].
        intros _. split; [reflexivity|]. now exists content, tokens, out.
      * cbn [ContextRun.answer_error]. rewrite truthy_append by discriminate.
        discriminate.
Qed.

Lemma context_scale_failure_witness :
  ContextRun.row_error
    (ContextRun.main_scale codeUnitCompare (fun _ => None) 3 [] 12
       (ContextRun.Replied "I cannot do that" 40))
  = Some "Failed to parse response: I cannot do that..."%string.
Proof.
  exact (f_equal ContextRun.row_error
           (proj1 (context_scale_failure codeUnitCompare (fun _ => None) 3 [] 12)
              "I cannot do that"%string 40 eq_refl)).
Defined.

(** X20: a sorting sample passes with a fenced answer exactly when it
    would pass with the bare one: for a body without backquotes and
    without white space at its ends that parses to an array, the sample
    with the reply "```json\n" + body + "\n```" passes if and only if the
    array is the input in ascending order, as for the reply body. *)
Theorem sort_fenced_answer
    (JSON_parse : string -> option (list Z))
    (numbers : list Z) (body : string) (array : list Z) :
  no_backquote body = true -> trimmed body ->
  JSON_parse body = Some array ->
  let fenced := ("```json" ++ newline ++ body ++ newline ++ "```")%string in
  SortRun.reply_of JSON_parse fenced = SortRun.reply_of JSON_parse body
  /\ (SortTest.runSingleTest numbers (SortRun.reply_of JSON_parse fenced) = true
      <-> array = SortTest.expectedSorted numbers).
Proof.
  intros Hb Ht Hp fenced. subst fenced.
  destruct (stripFence_fenced_all body Hb Ht) as (_ & Hf & _).
  unfold SortRun.reply_of.
  rewrite Hf, (stripFence_bare json_fence body Hb Ht), Hp.
  split; [reflexivity|].
  unfold SortTest.runSingleTest.
  cbn [SortTest.askLLMToSort SortTest.sort_error SortTest.sorted SortTest.truthy orb].
  rewrite arraysEqual_eq. split; congruence.
Qed.

Lemma sort_fenced_answer_witness :
  SortTest.runSingleTest [3; 1; 2]
    (SortRun.reply_of (fun _ => Some [1; 2; 3])
       ("```json" ++ newline ++ "[1,2,3]" ++ newline ++ "```")) = true.
Proof.
  refine (proj2 (proj2 (sort_fenced_answer (fun _ => Some [1; 2; 3]) [3; 1; 2]
                          "[1,2,3]" [1; 2; 3] _ _ eq_refl)) eq_refl).
  - reflexivity.
  - split; [discriminate|split; reflexivity].
Defined.
